(** * Wikitext serializer (lib/html2wt/WikitextSerializer.js): a shallow embedding

    The development follows the source file top to bottom.  JavaScript
    strings are sequences of UTF-16 code units, regular expressions are
    written out as the deterministic scans they perform, the mutable
    serializer state is a record threaded explicitly, and the collaborators
    that live in other files of the repository (DOMUtils, SerializerState,
    the handler registry, the escape handlers) are taken as interfaces. *)

From Stdlib Require Import String Ascii List NArith ZArith Bool Lia Arith DecimalString
  Permutation.
Import ListNotations.

Set Implicit Arguments.

(** ** JavaScript strings *)

Module JS.
Local Open Scope N_scope.

(** A string is the list of its UTF-16 code units. *)
Definition jstr := list N.

(** Literals are written as Rocq strings and converted code unit by code unit. *)
Definition js (s : string) : jstr := map N_of_ascii (list_ascii_of_string s).

Definition jstr_eqb (a b : jstr) : bool :=
  if list_eq_dec N.eq_dec a b then true else false.

Definition ch_quote : N := 39.   (* ' *)
Definition ch_dquote : N := 34.
Definition ch_lt : N := 60.      (* < *)
Definition ch_gt : N := 62.      (* > *)
Definition ch_slash : N := 47.   (* / *)
Definition ch_eq : N := 61.      (* = *)
Definition ch_nl : N := 10.      (* \n *)

(** [\w] is [A-Za-z0-9_]. *)
Definition is_word (c : N) : bool :=
  ((65 <=? c) && (c <=? 90)) || ((97 <=? c) && (c <=? 122))
  || ((48 <=? c) && (c <=? 57)) || (c =? 95).

(** [\s] and [String.prototype.trim] use the same set: WhiteSpace and
    LineTerminator of ECMAScript. *)
Definition is_space (c : N) : bool :=
  ((9 <=? c) && (c <=? 13)) || (c =? 32) || (c =? 160) || (c =? 5760)
  || ((8192 <=? c) && (c <=? 8202)) || (c =? 8232) || (c =? 8233)
  || (c =? 8239) || (c =? 8287) || (c =? 12288) || (c =? 65279).

(** [strip_prefix lit s]: the rest of [s] after the literal [lit], if [s]
    starts with it. *)
Fixpoint strip_prefix (lit s : jstr) : option jstr :=
  match lit, s with
  | [], _ => Some s
  | a :: lit', b :: s' => if a =? b then strip_prefix lit' s' else None
  | _ :: _, [] => None
  end.

Definition starts_with (lit s : jstr) : bool :=
  match strip_prefix lit s with Some _ => true | None => false end.

Definition ends_with (lit s : jstr) : bool :=
  starts_with (rev lit) (rev s).

(** A greedy [\s*] at the head of [s]: what is left after it. *)
Fixpoint skip_spaces (s : jstr) : jstr :=
  match s with
  | c :: s' => if is_space c then skip_spaces s' else s
  | [] => []
  end.

(** [span p s]: the longest prefix of [s] whose code units satisfy [p], and
    the rest. *)
Fixpoint span (p : N -> bool) (s : jstr) : jstr * jstr :=
  match s with
  | c :: s' => if p c then let (a, b) := span p s' in (c :: a, b) else ([], s)
  | [] => ([], [])
  end.

(** [String.prototype.trim]. *)
Definition trim (s : jstr) : jstr := rev (skip_spaces (rev (skip_spaces s))).

(** [s.split('\n')]: never empty, the pieces hold no newline. *)
Fixpoint split_nl (s : jstr) : list jstr :=
  match s with
  | [] => [[]]
  | c :: s' =>
      if c =? ch_nl then [] :: split_nl s'
      else match split_nl s' with
           | l :: ls => (c :: l) :: ls
           | [] => [[c]]
           end
  end.

(** [pieces.join('\n')]. *)
Fixpoint join_nl (ls : list jstr) : jstr :=
  match ls with
  | [] => []
  | [l] => l
  | l :: ls' => l ++ ch_nl :: join_nl ls'
  end.

(** [pieces.join(sep)] for an arbitrary separator. *)
Fixpoint join (sep : jstr) (ls : list jstr) : jstr :=
  match ls with
  | [] => []
  | [l] => l
  | l :: ls' => l ++ sep ++ join sep ls'
  end.

(** The string holds no newline. *)
Definition no_nl (s : jstr) : Prop := Forall (fun c => c <> ch_nl) s.

(** The string [undefined], which JavaScript substitutes when an undefined
    value is concatenated to or tested as a string. *)
Definition str_undefined : jstr := js "undefined".

(** A value that may be undefined ([None]), used as a string. *)
Definition as_string (o : option jstr) : jstr :=
  match o with Some s => s | None => str_undefined end.

(** An upper-case ASCII letter made lower-case.  Under the [i] flag of a
    regular expression a code unit outside ASCII never matches an ASCII
    letter, so this is all the flag does to an ASCII literal. *)
Definition ascii_lower (c : N) : N :=
  if (65 <=? c) && (c <=? 90) then c + 32 else c.

(** The first alternative that matches. *)
Definition orelse {A} (a b : option A) : option A :=
  match a with Some _ => a | None => b end.

End JS.
Import JS.

(** ** Post-pass: trailing self-closing nowikis (serializeDOM, lines 1226-1236) *)

Module TrailingNowiki.
Local Open Scope N_scope.

(** One [<nowiki], white space, [/>], white space at the head of [s]; what
    is left after it.  Both runs of white space are greedy and what follows
    each of them is not white space, so the regular expression engine has a
    single way through. *)
Definition nowiki_unit (s : jstr) : option jstr :=
  match strip_prefix (js "<nowiki") s with
  | Some r =>
      match strip_prefix (js "/>") (skip_spaces r) with
      | Some r' => Some (skip_spaces r')
      | None => None
      end
  | None => None
  end.

(** One or more such units up to the end of the piece (the group under [+]
    followed by [$]), anchored at the head of [s].  Every unit takes at least
    nine code units, so [length s] rounds are enough. *)
Fixpoint nowiki_units (fuel : nat) (s : jstr) : bool :=
  match fuel with
  | O => false
  | S f =>
      match nowiki_unit s with
      | Some [] => true
      | Some r => nowiki_units f r
      | None => false
      end
  end.

Definition nowikis_to_end (s : jstr) : bool := nowiki_units (length s) s.

(** The whole expression: a lazy captured group of code units other than
    [=], then the run of units up to the end.  The lazy group grows one code
    unit at a time until the rest of the piece is such a run.  The result is
    the captured group. *)
Fixpoint lazy_prefix (s : jstr) : option jstr :=
  if nowikis_to_end s then Some []
  else match s with
       | [] => None
       | c :: s' =>
           if c =? ch_eq then None
           else option_map (cons c) (lazy_prefix s')
       end.

(** [piece.replace(re, '$1')] with the expression above. *)
Definition strip_piece (piece : jstr) : jstr :=
  match lazy_prefix piece with
  | Some p => p
  | None => piece
  end.

(** [state.out.split('\n').map(...).join('\n')]. *)
Definition stripTrailingNowikis (out : jstr) : jstr :=
  join_nl (map strip_piece (split_nl out)).

End TrailingNowiki.

(** ** Post-pass: quote-adjacent nowikis (_stripUnnecessaryQuoteNowikis) *)

Module QuoteNowiki.
Local Open Scope N_scope.

Definition match_lit (lit s : jstr) : option jstr :=
  if starts_with lit s then Some lit else None.

(** The prefix of [s] up to and including its first [>]. *)
Fixpoint upto_gt (s : jstr) : option jstr :=
  match s with
  | [] => None
  | c :: s' => if c =? ch_gt then Some [c] else option_map (cons c) (upto_gt s')
  end.

(** The alternative for an opening or self-closing tag: [<], a run of word
    characters, then either white space and anything up to the first [>],
    or directly [>] or [/>].  The run of word characters is maximal: a
    shorter one would be followed by a word character, which none of the
    continuations accepts.  After white space the lazy class stops at the
    first [>], whether or not a [/] stands before it. *)
Definition match_open_tag (s : jstr) : option jstr :=
  match s with
  | c :: s1 =>
      if c =? ch_lt then
        let (w, s2) := span is_word s1 in
        match w, s2 with
        | [], _ => None
        | _, [] => None
        | _, d :: s3 =>
            if is_space d then option_map (fun t => ch_lt :: w ++ t) (upto_gt s2)
            else if d =? ch_gt then Some (ch_lt :: w ++ [ch_gt])
            else if (d =? ch_slash) && starts_with [ch_gt] s3
                 then Some (ch_lt :: w ++ [ch_slash; ch_gt])
            else None
        end
      else None
  | [] => None
  end.

(** The alternative for a closing tag: [</], word characters, white space,
    [>]. *)
Definition match_close_tag (s : jstr) : option jstr :=
  match strip_prefix (js "</") s with
  | Some s1 =>
      let (w, s2) := span is_word s1 in
      match w with
      | [] => None
      | _ =>
          let (sp, s3) := span is_space s2 in
          match s3 with
          | c :: _ =>
              if c =? ch_gt then Some (js "</" ++ w ++ sp ++ [ch_gt]) else None
          | [] => None
          end
      end
  | None => None
  end.

(** The separator expression of [line.split(...)] tried at the head of [s],
    its alternatives in the order of the source: five, three, two quotes,
    the four brackets, an opening tag, a closing tag. *)
Definition match_sep (s : jstr) : option jstr :=
  orelse (match_lit (js "'''''") s)
  (orelse (match_lit (js "'''") s)
  (orelse (match_lit (js "''") s)
  (orelse (match_lit (js "[[") s)
  (orelse (match_lit (js "]]") s)
  (orelse (match_lit (js "{{") s)
  (orelse (match_lit (js "}}") s)
  (orelse (match_open_tag s) (match_close_tag s)))))))).

(** [line.split(re)] with one capturing group around the whole expression:
    text pieces at the even indices, separators at the odd ones.  [skip]
    counts the code units of the separator just found that are still to be
    passed over; [cur] is the text piece being read, last code unit first. *)
Fixpoint split_go (s : jstr) (skip : nat) (cur : jstr) : list jstr :=
  match s with
  | [] => [rev cur]
  | c :: s' =>
      match skip with
      | S k => split_go s' k cur
      | O =>
          match match_sep s with
          | Some tok => rev cur :: tok :: split_go s' (List.length tok - 1) []
          | None => split_go s' O (c :: cur)
          end
      end
  end.

Definition split_line (line : jstr) : list jstr := split_go line 0 [].

(** [(/^<(\/?\w+)/.exec(tok) || '')[1] || tok]. *)
Definition tag_name (tok : jstr) : jstr :=
  match tok with
  | c :: t =>
      if c =? ch_lt then
        let (sl, t') :=
          match t with
          | d :: t'' => if d =? ch_slash then ([ch_slash], t'') else ([], t)
          | [] => ([], [])
          end in
        let (w, _) := span is_word t' in
        match w with
        | [] => tok
        | _ => sl ++ w
        end
      else tok
  | [] => tok
  end.

Definition selfClose (tok : jstr) : bool := ends_with (js "/>") tok.

(** The variable [tag] of the loop body. *)
Definition tag_of (tok : jstr) : jstr :=
  if selfClose tok then tag_name tok ++ [ch_slash] else tag_name tok.

(** The loop variables.  The top of [stack] is its head; [nowikiIndex] is
    [None] where the source holds -1. *)
Record scan_state := {
  stack : list jstr;
  quotesOnStack : Z;
  nowiki : bool;
  ref : bool;
  nowikiIndex : option nat
}.

Definition init_state : scan_state :=
  {| stack := []; quotesOnStack := 0%Z; nowiki := false; ref := false;
     nowikiIndex := None |}.

(** [p[i]] for an index that may be negative or past the end: [None] is
    undefined. *)
Definition at_index (p : list jstr) (i : Z) : option jstr :=
  if (i <? 0)%Z then None else nth_error p (Z.to_nat i).

Definition strict_eq (o : option jstr) (s : jstr) : bool :=
  match o with Some t => jstr_eqb t s | None => false end.

Definition first_is_quote (o : option jstr) : bool :=
  match o with Some (c :: _) => c =? ch_quote | _ => false end.

(** [lastItem(stack)]. *)
Definition lastItem (stk : list jstr) : option jstr := hd_error stk.

(** The condition under which the nowiki at index [j] is recorded. *)
Definition strippable (p : list jstr) (j : nat) (st : scan_state) : bool :=
  let zj := Z.of_nat j in
  ends_with (js "'") (as_string (at_index p (zj - 1)))
  && negb (strict_eq (at_index p (zj - 1)) (js "'")
           && ends_with (js "''") (as_string (at_index p (zj - 2))))
  && ((quotesOnStack st =? 0)%Z
      || ((quotesOnStack st =? 1)%Z
          && (j + 2 <? List.length p)%nat
          && strict_eq (at_index p (zj + 1)) []
          && first_is_quote (at_index p (zj + 2))
          && match at_index p (zj + 2), lastItem (stack st) with
             | Some a, Some b => jstr_eqb a b
             | _, _ => false
             end)).

Inductive step_result :=
| Return_line
| Continue (st : scan_state).

Definition set_ref (b : bool) (st : scan_state) : scan_state :=
  {| stack := stack st; quotesOnStack := quotesOnStack st;
     nowiki := nowiki st; ref := b; nowikiIndex := nowikiIndex st |}.
Definition set_nowiki (b : bool) (st : scan_state) : scan_state :=
  {| stack := stack st; quotesOnStack := quotesOnStack st;
     nowiki := b; ref := ref st; nowikiIndex := nowikiIndex st |}.
Definition set_stack (stk : list jstr) (q : Z) (st : scan_state) : scan_state :=
  {| stack := stk; quotesOnStack := q;
     nowiki := nowiki st; ref := ref st; nowikiIndex := nowikiIndex st |}.
Definition set_nowikiIndex (j : nat) (st : scan_state) : scan_state :=
  {| stack := stack st; quotesOnStack := quotesOnStack st;
     nowiki := nowiki st; ref := ref st; nowikiIndex := Some j |}.

(** [stack.pop()]: the popped value ([None] when the stack is empty) and
    the stack left. *)
Definition pop (stk : list jstr) : option jstr * list jstr :=
  match stk with
  | [] => (None, [])
  | t :: r => (Some t, r)
  end.

(** ['/' + opentag], where an undefined [opentag] reads [undefined]. *)
Definition closing_of (opentag : option jstr) : jstr :=
  ch_slash :: as_string opentag.

Definition starts_with_ch (c : N) (s : jstr) : bool :=
  match s with d :: _ => d =? c | [] => false end.

(** The token at index [j] reaches the nowiki branch: it is a self-closing
    nowiki met outside ref and nowiki sections. *)
Definition visits_nowiki (tok : jstr) (st : scan_state) : bool :=
  jstr_eqb (tag_of tok) (js "nowiki/") && negb (ref st) && negb (nowiki st).

(** One round of the loop, for the separator [tok = p[j]]. *)
Definition scan_step (p : list jstr) (j : nat) (tok : jstr) (st : scan_state)
  : step_result :=
  let tag := tag_of tok in
  if jstr_eqb tag (js "ref") then Continue (set_ref true st)
  else if ref st then
    Continue (if jstr_eqb tag (js "/ref") then set_ref false st else st)
  else if jstr_eqb tag (js "nowiki") then Continue (set_nowiki true st)
  else if nowiki st then
    Continue (if jstr_eqb tag (js "/nowiki") then set_nowiki false st else st)
  else if jstr_eqb tag (js "]]") then
    let (top, rest) := pop (stack st) in
    if strict_eq top (js "[[") then Continue (set_stack rest (quotesOnStack st) st)
    else Return_line
  else if jstr_eqb tag (js "}}") then
    let (top, rest) := pop (stack st) in
    if strict_eq top (js "{{") then Continue (set_stack rest (quotesOnStack st) st)
    else Return_line
  else if starts_with_ch ch_slash tag then
    let (top, rest) := pop (stack st) in
    if jstr_eqb tag (closing_of top)
    then Continue (set_stack rest (quotesOnStack st) st)
    else Return_line
  else if jstr_eqb tag (js "nowiki/") then
    Continue (if strippable p j st then set_nowikiIndex j st else st)
  else if selfClose tok || jstr_eqb tag (js "br") then Continue st
  else if starts_with_ch ch_quote tag && strict_eq (lastItem (stack st)) tag then
    Continue (set_stack (snd (pop (stack st))) (quotesOnStack st - 1)%Z st)
  else
    Continue (set_stack (tag :: stack st)
                (if starts_with_ch ch_quote tag
                 then (quotesOnStack st + 1)%Z else quotesOnStack st) st).

(** The indices [1, 3, 5, ...] below [n]. *)
Definition odd_indices (n : nat) : list nat := filter Nat.odd (seq 0 n).

(** The loop over the indices [idx], leaving early ([None]) when a round
    returns the line. *)
Fixpoint scan_from (p : list jstr) (idx : list nat) (st : scan_state)
  : option scan_state :=
  match idx with
  | [] => Some st
  | j :: idx' =>
      match scan_step p j (as_string (nth_error p j)) st with
      | Return_line => None
      | Continue st' => scan_from p idx' st'
      end
  end.

Definition scan (p : list jstr) : option scan_state :=
  scan_from p (odd_indices (List.length p)) init_state.

(** [p[j] = ''] *)
Fixpoint blank_at (j : nat) (p : list jstr) : list jstr :=
  match p, j with
  | [], _ => []
  | _ :: p', O => [] :: p'
  | x :: p', S j' => x :: blank_at j' p'
  end.

(** [/<nowiki\s*\/>/.test(line)] *)
Definition selfclosing_nowiki_at (s : jstr) : bool :=
  match strip_prefix (js "<nowiki") s with
  | Some r => starts_with (js "/>") (skip_spaces r)
  | None => false
  end.

Fixpoint has_selfclosing_nowiki (s : jstr) : bool :=
  selfclosing_nowiki_at s ||
  match s with
  | [] => false
  | _ :: s' => has_selfclosing_nowiki s'
  end.

Definition has_quote (s : jstr) : bool := existsb (fun c => c =? ch_quote) s.

(** The function mapped over the lines. *)
Definition strip_line (line : jstr) : jstr :=
  if negb (has_selfclosing_nowiki line && has_quote line) then line
  else
    let p := split_line line in
    match scan p with
    | None => line
    | Some st =>
        match stack st with
        | _ :: _ => line
        | [] =>
            match nowikiIndex st with
            | Some j => concat (blank_at j p)
            | None => line
            end
        end
    end.

(** [out.split(/\n|$/)]: as [split('\n')], except that the empty string
    splits into no piece at all. *)
Definition split_nl_or_end (s : jstr) : list jstr :=
  match s with
  | [] => []
  | _ => split_nl s
  end.

Definition stripUnnecessaryQuoteNowikis (out : jstr) : jstr :=
  join_nl (map strip_line (split_nl_or_end out)).

(** Pairing succeeded on the line: no round returned early and the stack
    is empty at the end. *)
Definition pairing_ok (line : jstr) : bool :=
  match scan (split_line line) with
  | Some st => match stack st with [] => true | _ => false end
  | None => false
  end.

(** The state in which the round for index [j] runs, when the loop gets
    that far: the rounds for the odd indices below [j] have run. *)
Definition state_before (p : list jstr) (j : nat) : option scan_state :=
  scan_from p (odd_indices j) init_state.

(** What the round for index [j] decides about the nowiki there. *)
Definition found_at (p : list jstr) (j : nat) : bool :=
  Nat.odd j &&
  match state_before p j with
  | Some st =>
      visits_nowiki (as_string (nth_error p j)) st && strippable p j st
  | None => false
  end.

(** The nowiki at index [j] is met by the loop and found strippable. *)
Definition strippable_at (p : list jstr) (j : nat) : bool :=
  Nat.odd j && (j <? List.length p)%nat &&
  match state_before p j with
  | Some st =>
      visits_nowiki (as_string (nth_error p j)) st && strippable p j st
  | None => false
  end.

(** [o], when it is a separator, is a non-empty prefix of [s]. *)
Definition is_prefix_of (s : jstr) (o : option jstr) : Prop :=
  forall tok, o = Some tok -> tok <> [] /\ exists r, s = tok ++ r.

End QuoteNowiki.

(** ** Post-pass: indent-pre nowikis (_stripUnnecessaryIndentPreNowikis) *)

Module IndentPre.
Local Open Scope N_scope.

(** What the function takes from the environment and the constants: the
    two expressions for wikitext that is transparent at the start of a
    line, the sets of HTML5 and block tags, the [scrubWikitext] flag, and
    the built-in [String.prototype.toUpperCase].  The first expression is
    spliced into a larger one; it is given as the lengths it can match at
    the head of a string, in the order the engine tries them. *)
Record Config := {
  solTransparentWikitextNoWs : jstr -> list nat;
  solTransparentWikitext_test : jstr -> bool;
  HTML5Tags : jstr -> bool;
  BlockTags : jstr -> bool;
  scrubWikitext : bool;
  String_toUpperCase : jstr -> jstr
}.

Section WithConfig.

Variable conf : Config.

(** A line terminator: after one, [^] matches under the [m] flag, and [.]
    does not match one. *)
Definition is_line_terminator (c : N) : bool :=
  (c =? 10) || (c =? 13) || (c =? 8232) || (c =? 8233).

(** A literal matched under the [i] flag: the text matched, and the rest. *)
Definition strip_prefix_ci (lit s : jstr) : option (jstr * jstr) :=
  let n := List.length lit in
  if jstr_eqb (map ascii_lower (firstn n s)) lit && (n <=? List.length s)%nat
  then Some (firstn n s, skipn n s) else None.

(** The second group, an opening nowiki, white space and a closing nowiki,
    at the head of [s]: the text matched, and the rest. *)
Definition match_nowiki (s : jstr) : option (jstr * jstr) :=
  match strip_prefix_ci (js "<nowiki>") s with
  | Some (o, r) =>
      let (ws, r1) := span is_space r in
      match ws with
      | [] => None
      | _ =>
          match strip_prefix_ci (js "</nowiki>") r1 with
          | Some (c, r2) => Some (o ++ ws ++ c, r2)
          | None => None
          end
      end
  | None => None
  end.

(** The third group: the rest of the line with its newline, or the rest of
    the string. *)
Fixpoint rest_of_line (s : jstr) : jstr :=
  match s with
  | [] => []
  | c :: s' => if c =? ch_nl then [c] else c :: rest_of_line s'
  end.

(** The whole expression tried at a start of line: the first length of the
    transparent prefix after which a nowiki follows.  The three groups. *)
Fixpoint first_match (lens : list nat) (s : jstr) : option (jstr * jstr * jstr) :=
  match lens with
  | [] => None
  | n :: lens' =>
      if (n <=? List.length s)%nat then
        match match_nowiki (skipn n s) with
        | Some (nowiki, r) => Some (firstn n s, nowiki, rest_of_line r)
        | None => first_match lens' s
        end
      else first_match lens' s
  end.

Definition match_at (sol : bool) (s : jstr) : option (jstr * jstr * jstr) :=
  if sol then first_match (solTransparentWikitextNoWs conf s) s else None.

(** [this.state.out.split(noWikiRegexp)]: the text before the first match,
    then for every match its three groups and the text that follows.
    [sol] tells whether the head of [s] starts a line; [skip] counts the
    code units of the current match still to be passed over. *)
Fixpoint split_go (s : jstr) (sol : bool) (skip : nat) (cur : jstr) : list jstr :=
  match s with
  | [] => [rev cur]
  | c :: s' =>
      match skip with
      | S k => split_go s' (is_line_terminator c) k cur
      | O =>
          match match_at sol s with
          | Some (g1, g2, g3) =>
              rev cur :: g1 :: g2 :: g3
              :: split_go s' (is_line_terminator c)
                   (List.length g1 + List.length g2 + List.length g3 - 1) []
          | None => split_go s' (is_line_terminator c) 0 (c :: cur)
          end
      end
  end.

(** One HTML tag at the head of [s]: a less-than sign, one code unit that
    is not an exclamation mark, code units other than angle brackets, a
    greater-than sign. *)
Definition html_tag_at (s : jstr) : option jstr :=
  match s with
  | c :: c1 :: r =>
      if (c =? ch_lt) && negb (c1 =? 33) then
        let (run, r') :=
          span (fun d => negb ((d =? ch_lt) || (d =? ch_gt))) r in
        match r' with
        | d :: _ => if d =? ch_gt then Some (c :: c1 :: run ++ [d]) else None
        | [] => None
        end
      else None
  | _ => None
  end.

(** [rest.match(re) || []] for the global tag expression. *)
Fixpoint htmlTags (s : jstr) (skip : nat) : list jstr :=
  match s with
  | [] => []
  | _ :: s' =>
      match skip with
      | S k => htmlTags s' k
      | O =>
          match html_tag_at s with
          | Some t => t :: htmlTags s' (List.length t - 1)
          | None => htmlTags s' 0
          end
      end
  end.

(** The length removed at the head of [s] by the expression that strips a
    tag down to its name: a less-than sign with an optional slash, a white
    space with all that follows on its line, or a greater-than sign. *)
Definition strip_len (s : jstr) : nat :=
  match s with
  | c :: s' =>
      if c =? ch_lt then
        match s' with
        | d :: _ => if d =? ch_slash then 2%nat else 1%nat
        | [] => 1%nat
        end
      else if is_space c then
        S (List.length (fst (span (fun d => negb (is_line_terminator d)) s')))
      else if c =? ch_gt then 1%nat
      else 0%nat
  | [] => 0%nat
  end.

Fixpoint strip_to_name (s : jstr) (skip : nat) : jstr :=
  match s with
  | [] => []
  | c :: s' =>
      match skip with
      | S k => strip_to_name s' k
      | O =>
          match strip_len s with
          | O => c :: strip_to_name s' 0
          | S k => strip_to_name s' k
          end
      end
  end.

Definition tagName (tag : jstr) : jstr :=
  String_toUpperCase conf (strip_to_name tag 0).

(** The loop over [htmlTags]: a tag that is not an HTML5 tag makes the
    nowiki required and ends the loop, a block tag makes it not required. *)
Fixpoint reqd_after_tags (tags : list jstr) (reqd : bool) : bool :=
  match tags with
  | [] => reqd
  | t :: tags' =>
      if negb (HTML5Tags conf (tagName t)) then true
      else if BlockTags conf (tagName t) then reqd_after_tags tags' false
      else reqd_after_tags tags' reqd
  end.

Definition reqd (rest : jstr) : bool :=
  if negb (solTransparentWikitext_test conf rest)
  then reqd_after_tags (htmlTags rest 0) true
  else false.

(** The nowiki with its tags taken off: the white space between them, and
    what follows the closing tag.  The expression used here is
    case-sensitive. *)
Definition unwrap_nowiki (nowiki : jstr) : option (jstr * jstr) :=
  match strip_prefix (js "<nowiki>") nowiki with
  | Some r =>
      let (ws, r1) := span is_space r in
      match ws with
      | [] => None
      | _ =>
          match strip_prefix (js "</nowiki>") r1 with
          | Some tail => Some (ws, tail)
          | None => None
          end
      end
  | None => None
  end.

(** One match put back into the output. *)
Definition rewrite_match (g1 nowiki rest : jstr) : jstr :=
  if negb (reqd rest) then
    g1 ++ match unwrap_nowiki nowiki with
          | Some (ws, tail) => ws ++ tail
          | None => nowiki
          end ++ rest
  else if scrubWikitext conf then
    g1 ++ match unwrap_nowiki nowiki with
          | Some (_, tail) => tail
          | None => nowiki
          end ++ skip_spaces rest
  else g1 ++ nowiki ++ rest.

(** The loop over the pieces, four at a time. *)
Fixpoint rewrite_pieces (pieces : list jstr) : jstr :=
  match pieces with
  | g1 :: nowiki :: rest :: text :: more =>
      rewrite_match g1 nowiki rest ++ text ++ rewrite_pieces more
  | _ => []
  end.

Definition stripUnnecessaryIndentPreNowikis (out : jstr) : jstr :=
  match split_go out true 0 [] with
  | first :: pieces => first ++ rewrite_pieces pieces
  | [] => []
  end.

End WithConfig.

(** A configuration for running the pass: nothing but the empty string is
    transparent without white space, white space alone is transparent,
    [div], [span] and [p] are the HTML5 tags and [div] and [p] the block
    tags among them. *)
Definition upper_ascii (s : jstr) : jstr :=
  map (fun c => if (97 <=? c) && (c <=? 122) then c - 32 else c) s.

Definition sample_config (scrub : bool) : Config :=
  {| solTransparentWikitextNoWs := fun _ => [0%nat];
     solTransparentWikitext_test := forallb is_space;
     HTML5Tags := fun n => existsb (jstr_eqb n) [js "DIV"; js "SPAN"; js "P"];
     BlockTags := fun n => existsb (jstr_eqb n) [js "DIV"; js "P"];
     scrubWikitext := scrub;
     String_toUpperCase := upper_ascii |}.

(** The same, with a comment also counting as transparent. *)
Definition is_comment (s : jstr) : bool :=
  starts_with (js "<!--") s && ends_with (js "-->") s.

Definition comment_config : Config :=
  {| solTransparentWikitextNoWs := fun _ => [0%nat];
     solTransparentWikitext_test := fun s => forallb is_space s || is_comment s;
     HTML5Tags := fun n => existsb (jstr_eqb n) [js "DIV"; js "SPAN"; js "P"];
     BlockTags := fun n => existsb (jstr_eqb n) [js "DIV"; js "P"];
     scrubWikitext := false;
     String_toUpperCase := upper_ascii |}.

(** A line whose comment holds a carriage return, after which a second
    nowiki and a block tag stand. *)
Definition line_with_cr : jstr :=
  js "<nowiki> </nowiki><!--" ++ [13] ++ js "<nowiki> </nowiki><div>-->".

End IndentPre.

(** ** JavaScript values that reach the serializer through JSON *)

Module Val.

Inductive jsval :=
| JUndefined
| JNull
| JBool (b : bool)
| JNum (z : Z)
| JStr (s : jstr)
| JObject.

Definition truthy (v : jsval) : bool :=
  match v with
  | JUndefined | JNull => false
  | JBool b => b
  | JNum z => negb (z =? 0)%Z
  | JStr s => match s with [] => false | _ => true end
  | JObject => true
  end.

Definition typeof_string (v : jsval) : bool :=
  match v with JStr _ => true | _ => false end.

(** [n.toString()] for an integer. *)
Definition Z_toString (z : Z) : jstr :=
  js (DecimalString.NilZero.string_of_int (Z.to_int z)).

(** The conversion applied when a value is used where a string is expected. *)
Definition toString (v : jsval) : jstr :=
  match v with
  | JUndefined => str_undefined
  | JNull => js "null"
  | JBool true => js "true"
  | JBool false => js "false"
  | JNum z => Z_toString z
  | JStr s => s
  | JObject => js "[object Object]"
  end.

(** An entry of a DSR array: a number, null, or undefined when the array is
    too short; sums and differences of entries can also be NaN. *)
Inductive dsrval :=
| DNum (z : Z)
| DNull
| DUndefined
| DNaN.

(** The number an entry counts as in arithmetic and comparisons: null is 0,
    undefined is NaN ([None]). *)
Definition dsr_number (a : dsrval) : option Z :=
  match a with
  | DNum z => Some z
  | DNull => Some 0%Z
  | DUndefined | DNaN => None
  end.

(** [a > b] *)
Definition dsr_gt (a b : dsrval) : bool :=
  match dsr_number a, dsr_number b with
  | Some x, Some y => (y <? x)%Z
  | _, _ => false
  end.

(** [a === b] *)
Definition dsr_eq (a b : dsrval) : bool :=
  match a, b with
  | DNum x, DNum y => (x =? y)%Z
  | DNull, DNull => true
  | DUndefined, DUndefined => true
  | _, _ => false
  end.

(** [a + b] and [a - b] *)
Definition dsr_plus (a b : dsrval) : dsrval :=
  match dsr_number a, dsr_number b with
  | Some x, Some y => DNum (x + y)
  | _, _ => DNaN
  end.

Definition dsr_minus (a b : dsrval) : dsrval :=
  match dsr_number a, dsr_number b with
  | Some x, Some y => DNum (x - y)
  | _, _ => DNaN
  end.

Definition dsr_at (d : list dsrval) (i : nat) : dsrval := nth i d DUndefined.

(** [s.substring(a, b)]: both ends are clamped to the string and swapped
    when out of order; NaN counts as 0 and an undefined end as the length. *)
Definition substring (s : jstr) (a b : dsrval) : jstr :=
  let len := Z.of_nat (List.length s) in
  let clamp z := Z.max 0 (Z.min z len) in
  let ia := match a with DNum z => clamp z | _ => 0%Z end in
  let ib := match b with DNum z => clamp z | DUndefined => len | _ => 0%Z end in
  let lo := Z.min ia ib in
  let hi := Z.max ia ib in
  firstn (Z.to_nat (hi - lo)) (skipn (Z.to_nat lo) s).

End Val.
Import Val.

(** ** Data model: provenance, tokens, data-mw *)

Module Data.

(** An attribute of a token: [pd.KV]. *)
Record KV := { kv_k : jstr; kv_v : jstr }.

(** What [token.getAttributeShadowInfo(k)] returns. *)
Record ShadowInfo := { value : jstr; modified : bool; fromsrc : bool }.

(** An entry of [data-parsoid.pi]: the recorded key, the [named] flag and
    the four pieces of spacing around key and value, when remembered. *)
Record ParamInfo := {
  pi_k : jstr;
  named : bool;
  spc : option (jstr * jstr * jstr * jstr)
}.

(** [data-parsoid].  An absent flag is [false], an absent value [None];
    [dp_a] and [dp_sa] keep the order of [Object.keys]. *)
Record DataParsoid := {
  dsr : option (list dsrval);
  stx : option jstr;
  fostered : bool;
  misnested : bool;
  autoInsertedStart : bool;
  autoInsertedEnd : bool;
  dp_selfClose : bool;
  noClose : bool;
  srcTagName : option jstr;
  liHackSrc : option jstr;
  dp_a : option (list (jstr * jsval));
  dp_sa : option (list (jstr * jstr));
  dp_pi : option (list (list ParamInfo))
}.

(** The empty object [{}]. *)
Definition empty_dp : DataParsoid :=
  {| dsr := None; stx := None; fostered := false; misnested := false;
     autoInsertedStart := false; autoInsertedEnd := false;
     dp_selfClose := false; noClose := false; srcTagName := None;
     liHackSrc := None; dp_a := None; dp_sa := None; dp_pi := None |}.

(** [dp.dsr || []] *)
Definition dsr_or_empty (dp : DataParsoid) : list dsrval :=
  match dsr dp with Some d => d | None => [] end.

(** [pd.TagTk] and [pd.EndTagTk]. *)
Record Token := {
  tk_name : jstr;
  attribs : list KV;
  dataAttribs : DataParsoid
}.

(** [extTok.addAttribute(name, value)] *)
Definition addAttribute (t : Token) (name val : jstr) : Token :=
  {| tk_name := tk_name t;
     attribs := attribs t ++ [{| kv_k := name; kv_v := val |}];
     dataAttribs := dataAttribs t |}.

(** An entry [a] of [data-mw.attribs]: [a[0]] is the key, a plain string or
    an object with [txt] and [html]; of [a[1]] only [html] is read. *)
Inductive AttrKey :=
| KeyString (s : jstr)
| KeyObject (txt : option jstr) (html : jsval).

Record TplAttr := { ta_key : AttrKey; ta_val_html : jsval }.

(** A template parameter [tpl.params[k]]: [key] is [None] when absent,
    otherwise it holds [key.wt]. *)
Record Param := {
  wt : jsval;
  p_html : jsval;
  key : option jsval
}.

(** [part.template].  [params] keeps the order of [Object.keys]. *)
Record Template := {
  target_wt : jsval;
  target_href : jsval;
  params : list (jstr * Param);
  tpl_i : option nat
}.

(** An element of [srcParts]: a string, a transclusion, or another object
    (which has no [template] property). *)
Inductive Part :=
| PartString (s : jstr)
| PartTemplate (tpl : Template)
| PartOther.

(** [data-mw.body] of an extension. *)
Record ExtBody := {
  body_html : jsval;
  body_id : jsval;
  extsrc : jsval
}.

(** [data-mw] of an extension, with the [attribs] of templated attributes. *)
Record DataMw := {
  mw_name : jstr;
  mw_attrs : option (list (jstr * jstr));
  mw_body : option ExtBody;
  mw_attribs : option (list TplAttr)
}.

(** Lookup in an object used as a map; the first entry wins, as the keys of
    an object are distinct. *)
Fixpoint lookup {A} (key : jstr) (m : list (jstr * A)) : option A :=
  match m with
  | [] => None
  | (k, x) :: m' => if jstr_eqb k key then Some x else lookup key m'
  end.

(** The members every object inherits from [Object.prototype].  Reading
    one of these names from an object without an own property of that name
    gives the inherited member, not undefined. *)
Definition object_prototype_members : list jstr :=
  [ js "constructor"; js "hasOwnProperty"; js "isPrototypeOf";
    js "propertyIsEnumerable"; js "toLocaleString"; js "toString";
    js "valueOf"; js "__defineGetter__"; js "__defineSetter__";
    js "__lookupGetter__"; js "__lookupSetter__"; js "__proto__" ].

Definition inherited (key : jstr) : bool :=
  existsb (jstr_eqb key) object_prototype_members.

(** An inherited member read where a parameter is expected: a function or
    an object, of which [wt], [html] and [key] are undefined. *)
Definition inherited_member : Param :=
  {| wt := JUndefined; p_html := JUndefined; key := None |}.

(** [tpl.params[k]]: the own property, else the inherited member when [k]
    names one, else undefined. *)
Definition get_param (k : jstr) (params : list (jstr * Param)) : option Param :=
  match lookup k params with
  | Some p => Some p
  | None => if inherited k then Some inherited_member else None
  end.

(** [obj[key] = x]: an existing property is overwritten in place, a new one
    is added last. *)
Fixpoint assign {A} (key : jstr) (x : A) (m : list (jstr * A)) : list (jstr * A) :=
  match m with
  | [] => [(key, x)]
  | (k, y) :: m' =>
      if jstr_eqb k key then (k, x) :: m' else (k, y) :: assign key x m'
  end.

Definition nonempty (s : jstr) : bool :=
  match s with [] => false | _ => true end.

(** Every double quote of [s] replaced by [&quot;]. *)
Definition escape_quot (s : jstr) : jstr :=
  flat_map (fun c => if N.eqb c ch_dquote then js "&quot;" else [c]) s.

(** The key, [=], and the value between double quotes. *)
Definition attr_string (k v : jstr) : jstr :=
  k ++ js "=" ++ [ch_dquote] ++ v ++ [ch_dquote].

End Data.
Import Data.

(** ** A state monad for the code that mutates the serializer state

    The promise chains of the source run one continuation after the other:
    [p.then(f)] is sequencing, [Promise.reduce] a left-to-right loop. *)

Module Monad.

Definition M (W A : Type) : Type := W -> A * W.

Definition ret {W A} (x : A) : M W A := fun w => (x, w).

Definition bind {W A B} (m : M W A) (f : A -> M W B) : M W B :=
  fun w => let (x, w') := m w in f x w'.

Definition get {W} : M W W := fun w => (w, w).

Definition modify {W} (f : W -> W) : M W unit := fun w => (tt, f w).

Definition when {W} (b : bool) (m : M W unit) : M W unit :=
  if b then m else ret tt.

(** [Promise.reduce(xs, f, init)]: the items one after the other. *)
Fixpoint reduce {W A B} (f : B -> A -> M W B) (xs : list A) (init : B) : M W B :=
  match xs with
  | [] => ret init
  | x :: xs' => bind (f init x) (fun acc => reduce f xs' acc)
  end.

Declare Scope monad_scope.
Delimit Scope monad_scope with monad.
Notation "x <- c ;; k" := (bind c (fun x => k))
  (at level 61, c at next level, right associativity) : monad_scope.
Notation "c ;;; k" := (bind c (fun _ => k))
  (at level 61, right associativity) : monad_scope.

End Monad.
Import Monad.

(** ** The serializer *)

Module WTS.
Local Open Scope monad_scope.

Inductive NodeType := ELEMENT_NODE | TEXT_NODE | COMMENT_NODE | OTHER_NODE.

(** How a call ends: with a value, or with an exception thrown (a rejected
    promise). *)
Inductive Outcome (A : Type) :=
| Returned (x : A)
| Thrown.
Arguments Returned {A} x.
Arguments Thrown {A}.

Section Serializer.

(** DOM nodes and documents, constrained-text chunks, and whatever
    SerializerState.js keeps besides the fields this file reads or writes. *)
Variables Node Doc CT Hidden : Type.

(** [state.sep.constraints.constraintInfo] *)
Record ConstraintInfo := {
  ci_onSOL : bool;
  sepType : jstr;
  nodeA : option Node;
  nodeB : option Node
}.

(** [state.sep] *)
Record Separator := {
  src : option jstr;
  constraintInfo : ConstraintInfo;
  lastSourceNode : option Node
}.

(** The serializer state: the fields WikitextSerializer.js reads or writes.
    What else SerializerState.js keeps (the current line, the stack of
    single-line contexts, ...) is [internals]. *)
Record SerializerState := {
  selserMode : bool;
  inModifiedContent : bool;
  currNodeUnmodified : bool;
  prevNodeUnmodified : bool;
  onSOL : bool;
  escapeText : bool;
  inNoWiki : bool;
  inHTMLPre : bool;
  inIndentPre : bool;
  sep : Separator;
  out : jstr;
  hasIndentPreNowikis : bool;
  hasQuoteNowikis : bool;
  hasSelfClosingNowikis : bool;
  internals : Hidden
}.

Definition set_inHTMLPre (b : bool) (s : SerializerState) : SerializerState :=
  {| selserMode := selserMode s; inModifiedContent := inModifiedContent s;
     currNodeUnmodified := currNodeUnmodified s;
     prevNodeUnmodified := prevNodeUnmodified s; onSOL := onSOL s;
     escapeText := escapeText s; inNoWiki := inNoWiki s; inHTMLPre := b;
     inIndentPre := inIndentPre s; sep := sep s; out := out s;
     hasIndentPreNowikis := hasIndentPreNowikis s;
     hasQuoteNowikis := hasQuoteNowikis s;
     hasSelfClosingNowikis := hasSelfClosingNowikis s;
     internals := internals s |}.

Definition set_escapeText (b : bool) (s : SerializerState) : SerializerState :=
  {| selserMode := selserMode s; inModifiedContent := inModifiedContent s;
     currNodeUnmodified := currNodeUnmodified s;
     prevNodeUnmodified := prevNodeUnmodified s; onSOL := onSOL s;
     escapeText := b; inNoWiki := inNoWiki s; inHTMLPre := inHTMLPre s;
     inIndentPre := inIndentPre s; sep := sep s; out := out s;
     hasIndentPreNowikis := hasIndentPreNowikis s;
     hasQuoteNowikis := hasQuoteNowikis s;
     hasSelfClosingNowikis := hasSelfClosingNowikis s;
     internals := internals s |}.

Definition set_currNodeUnmodified (b : bool) (s : SerializerState) : SerializerState :=
  {| selserMode := selserMode s; inModifiedContent := inModifiedContent s;
     currNodeUnmodified := b;
     prevNodeUnmodified := prevNodeUnmodified s; onSOL := onSOL s;
     escapeText := escapeText s; inNoWiki := inNoWiki s; inHTMLPre := inHTMLPre s;
     inIndentPre := inIndentPre s; sep := sep s; out := out s;
     hasIndentPreNowikis := hasIndentPreNowikis s;
     hasQuoteNowikis := hasQuoteNowikis s;
     hasSelfClosingNowikis := hasSelfClosingNowikis s;
     internals := internals s |}.

Definition set_inModifiedContent (b : bool) (s : SerializerState) : SerializerState :=
  {| selserMode := selserMode s; inModifiedContent := b;
     currNodeUnmodified := currNodeUnmodified s;
     prevNodeUnmodified := prevNodeUnmodified s; onSOL := onSOL s;
     escapeText := escapeText s; inNoWiki := inNoWiki s; inHTMLPre := inHTMLPre s;
     inIndentPre := inIndentPre s; sep := sep s; out := out s;
     hasIndentPreNowikis := hasIndentPreNowikis s;
     hasQuoteNowikis := hasQuoteNowikis s;
     hasSelfClosingNowikis := hasSelfClosingNowikis s;
     internals := internals s |}.

Definition set_sep (x : Separator) (s : SerializerState) : SerializerState :=
  {| selserMode := selserMode s; inModifiedContent := inModifiedContent s;
     currNodeUnmodified := currNodeUnmodified s;
     prevNodeUnmodified := prevNodeUnmodified s; onSOL := onSOL s;
     escapeText := escapeText s; inNoWiki := inNoWiki s; inHTMLPre := inHTMLPre s;
     inIndentPre := inIndentPre s; sep := x; out := out s;
     hasIndentPreNowikis := hasIndentPreNowikis s;
     hasQuoteNowikis := hasQuoteNowikis s;
     hasSelfClosingNowikis := hasSelfClosingNowikis s;
     internals := internals s |}.

Definition set_out (x : jstr) (s : SerializerState) : SerializerState :=
  {| selserMode := selserMode s; inModifiedContent := inModifiedContent s;
     currNodeUnmodified := currNodeUnmodified s;
     prevNodeUnmodified := prevNodeUnmodified s; onSOL := onSOL s;
     escapeText := escapeText s; inNoWiki := inNoWiki s; inHTMLPre := inHTMLPre s;
     inIndentPre := inIndentPre s; sep := sep s; out := x;
     hasIndentPreNowikis := hasIndentPreNowikis s;
     hasQuoteNowikis := hasQuoteNowikis s;
     hasSelfClosingNowikis := hasSelfClosingNowikis s;
     internals := internals s |}.

(** What a handler or [_serializeDOMNode] resolves to: undefined, or a node
    or null. *)
Inductive Next :=
| NextUndefined
| NextNode (n : option Node).

(** A DOM handler: an object that may have a [handle] method.  The method
    runs against the state and resolves to the node to go on with. *)
Record Handler := {
  handle : option (Node -> SerializerState -> bool -> Next * SerializerState)
}.

(** The object literal [{}]. *)
Definition no_handler : Handler := {| handle := None |}.

(** What is passed to [state.emitChunk]: a string or a constrained text. *)
Inductive Chunk :=
| ChunkString (s : jstr)
| ChunkCT (ct : CT).

(** Calls that leave this file, in the order they are made.  An emitted
    chunk is recorded with the state [emitChunk] was entered in. *)
Inductive Event :=
| EvEmitChunk (c : Chunk) (n : Node) (entered : SerializerState)
| EvHandle (h : Handler) (n : Node) (wrapperUnmodified : bool)
| EvLog (logType : jstr) (message : jstr)
| EvTrace (label : jstr)
| EvAssertFailed (message : jstr).

Record World := {
  state : SerializerState;
  events : list Event
}.

Definition record (e : Event) : M World unit :=
  modify (fun w => {| state := state w; events := events w ++ [e] |}).

Definition getState : M World SerializerState :=
  fun w => (state w, w).

Definition modifyState (f : SerializerState -> SerializerState) : M World unit :=
  modify (fun w => {| state := f (state w); events := events w |}).

(** What a run of events shows: the chunks handed to [emitChunk], the
    handler calls, the messages logged, the assertions that failed. *)
Fixpoint emitted (es : list Event) : list (Chunk * Node) :=
  match es with
  | [] => []
  | EvEmitChunk c n _ :: es' => (c, n) :: emitted es'
  | _ :: es' => emitted es'
  end.

Fixpoint handled (es : list Event) : list (Handler * Node * bool) :=
  match es with
  | [] => []
  | EvHandle h n wu :: es' => (h, n, wu) :: handled es'
  | _ :: es' => handled es'
  end.

Fixpoint logged (es : list Event) : list (jstr * jstr) :=
  match es with
  | [] => []
  | EvLog t m :: es' => (t, m) :: logged es'
  | _ :: es' => logged es'
  end.

Fixpoint failed_assertions (es : list Event) : list jstr :=
  match es with
  | [] => []
  | EvAssertFailed m :: es' => m :: failed_assertions es'
  | _ :: es' => failed_assertions es'
  end.

(** [this.env.log(logType, ...)] *)
Definition log (logType message : jstr) : M World unit :=
  record (EvLog logType message).

(** [this.trace(...)] *)
Definition trace (label : jstr) : M World unit :=
  record (EvTrace label).


(** *** Collaborators from other files of the repository *)

(** The DOM API. *)
Record DOMApi := {
  nodeType : Node -> NodeType;
  nodeName : Node -> jstr;
  nodeValue : Node -> jstr;
  getAttribute : Node -> jstr -> option jstr;
  outerHTML : Node -> jstr;
  innerHTML : Node -> jstr;
  parentNode : Node -> option Node;
  nextSibling : Node -> option Node;
  previousSibling : Node -> option Node;
  firstChild : Node -> option Node;
  childNodes : Node -> list Node;
  ownerDocument : Node -> Doc;
  getElementById : Doc -> jstr -> option Node;
  querySelector : Node -> jstr -> option Node;
  docQuerySelector : Doc -> jstr -> Outcome (option Node)
}.

(** utils/DOMUtils.js.  The functions that take the environment are given
    it once and for all. *)
Record DOMUtils := {
  isElt : Node -> bool;
  isBody : Node -> bool;
  getDataParsoid : Node -> DataParsoid;
  getDataMw : Node -> DataMw;
  mkTagTk : Node -> Token;
  mkEndTagTk : Node -> Token;
  escapeNowikiTags : jstr -> jstr;
  previousNonSepSibling : Node -> option Node;
  nextNonSepSibling : Node -> option Node;
  isList : Node -> bool;
  isListItem : Node -> bool;
  isNewElt : Node -> bool;
  atTheTop : Node -> bool;
  isDocumentFragment : Node -> bool;
  allChildrenAreText : option Node -> bool;
  origSrcValidInEditedContext : Node -> bool;
  hasDiffMarkers : Node -> bool;
  isZeroWidthWikitextElt : Node -> bool;
  isFirstEncapsulationWrapperNode : Node -> bool;
  skipOverEncapsulatedContent : Node -> option Node;
  onlySubtreeChanged : Node -> bool;
  hasInsertedDiffMark : Node -> bool;
  isMarkerMeta : Node -> jstr -> bool
}.

(** utils/Util.js, html2wt/WTSUtils.js, config/WikitextConstants.js, the
    token method [getAttributeShadowInfo] of wt2html/parser.defines.js, and
    the built-in [String.prototype.toLowerCase] in full. *)
Record Utils := {
  isValidDSR : list dsrval -> bool;
  isVoidElement : jstr -> bool;
  escapeEntities : jstr -> jstr;
  lookupKV : list KV -> jstr -> bool;
  tokensToString : jsval -> jstr;
  String_toLowerCase : jstr -> jstr;
  hasValidTagWidths : list dsrval -> bool;
  commentWT : jstr -> jstr;
  getAttributeShadowInfo : Token -> jstr -> ShadowInfo;
  ParentTableTags : jstr -> bool;
  ChildTableTags : jstr -> bool
}.

(** The options object handed to [escapeTplArgWT]. *)
Record EscapeOpts := {
  serializeAsNamed : bool;
  isTemplate : bool;
  argPositionalIndex : Z;
  numPositionalArgs : Z;
  argIndex : Z;
  numArgs : Z
}.

(** What [escapeTplArgWT] returns. *)
Record EscapedValue := {
  ev_serializeAsNamed : bool;
  ev_v : jstr
}.

(** The options object handed to [serializeHTML]. *)
Record SerializeOpts := {
  opt_onSOL : option bool;
  opt_inAttribute : bool;
  opt_extName : option jstr
}.

(** The methods of SerializerState.js, separators.js, ConstrainedText.js
    and escapeWikitext.js called from this file, the environment, and the
    nested serialization of an HTML string (which builds a serializer of
    its own and shares nothing with the state at hand).  [getOrigSrc] reads
    the original source of the page, which is fixed for a serialization. *)
Record Externals := {
  SS_emitChunk : Chunk -> Node -> SerializerState -> SerializerState;
  getOrigSrc : dsrval -> dsrval -> jstr;
  setSep : jstr -> SerializerState -> SerializerState;
  updateSep : Node -> SerializerState -> SerializerState;
  updateModificationFlags : Node -> SerializerState -> SerializerState;
  singleLineContext_disable : SerializerState -> SerializerState;
  singleLineContext_pop : SerializerState -> SerializerState;
  handleSeparatorText : Node -> SerializerState -> bool * SerializerState;
  updateSeparatorConstraints :
    option Node -> Handler -> option Node -> Handler ->
    SerializerState -> SerializerState;
  fromSelSer : jstr -> Node -> DataParsoid -> list CT;
  ct_node : CT -> Node;
  escapeTplArgWT : jstr -> EscapeOpts -> EscapedValue;
  serializeHTML : SerializeOpts -> jsval -> jstr;
  editedDoc : option Doc;
  tagHandlers : jstr -> option Handler;
  htmlElementHandler : Handler;
  _getEncapsulatedContentHandler : Node -> option Handler
}.

Variable dom : DOMApi.
Variable DU : DOMUtils.
Variable U : Utils.
Variable X : Externals.

(** [state.emitChunk(chunk, node)] *)
Definition emitChunk (c : Chunk) (n : Node) : M World unit :=
  st <- getState ;;
  record (EvEmitChunk c n st) ;;;
  modifyState (SS_emitChunk X c n).

(** [s.toLowerCase()], as far as a comparison with an ASCII word can tell:
    besides the capital letters only the Kelvin sign maps to an ASCII
    letter. *)
Definition toLowerCase (s : jstr) : jstr :=
  map (fun c => if (65 <=? c)%N && (c <=? 90)%N then (c + 32)%N
                else if (c =? 8490)%N then 107%N else c) s.

(** *** Attribute keys and values generated by templates (lines 103-142) *)

Definition opts_key : SerializeOpts :=
  {| opt_onSOL := Some false; opt_inAttribute := false; opt_extName := None |}.

Definition opts_value : SerializeOpts :=
  {| opt_onSOL := Some false; opt_inAttribute := true; opt_extName := None |}.

(** The loop of [getAttributeKey]: the [html] of the first entry whose key
    object has this [txt] and a truthy [html]. *)
Fixpoint generated_key (tplAttrs : list TplAttr) (k : jstr) : option jsval :=
  match tplAttrs with
  | [] => None
  | a :: rest =>
      match ta_key a with
      | KeyObject (Some t) h =>
          if jstr_eqb t k && truthy h then Some h else generated_key rest k
      | _ => generated_key rest k
      end
  end.

Definition getAttributeKey (node : Node) (k : jstr) : jstr :=
  match mw_attribs (getDataMw DU node) with
  | Some tplAttrs =>
      match generated_key tplAttrs k with
      | Some h => serializeHTML X opts_key h
      | None => k
      end
  | None => k
  end.

(** The loop of [getAttributeValue]: the value [html] of the first entry
    whose key is this string, or is an object with this [txt] while the
    value [html] is not null. *)
Fixpoint generated_value (tplAttrs : list TplAttr) (k : jstr) : option jsval :=
  match tplAttrs with
  | [] => None
  | a :: rest =>
      let hit :=
        match ta_key a with
        | KeyString s => jstr_eqb s k
        | KeyObject (Some t) _ =>
            jstr_eqb t k
            && match ta_val_html a with JNull => false | _ => true end
        | KeyObject None _ => false
        end in
      if hit then Some (ta_val_html a) else generated_value rest k
  end.

Definition getAttributeValue (node : Node) (k : jstr) (val : jstr) : jstr :=
  match mw_attribs (getDataMw DU node) with
  | Some tplAttrs =>
      match generated_value tplAttrs k with
      | Some h => serializeHTML X opts_value h
      | None => val
      end
  | None => val
  end.

(** *** _serializeAttributes (lines 230-353) *)

Definition IGNORED_ATTRIBUTES : list jstr :=
  [ js "data-parsoid"; js "data-ve-changed"; js "data-parsoid-changed";
    js "data-parsoid-diff"; js "data-parsoid-serialize" ].

Definition set_has (s : list jstr) (k : jstr) : bool := existsb (jstr_eqb k) s.

(** [_getDOMAttribs] (lines 777-787): the attributes of a DOM node as a
    list of key-value pairs, those of [IGNORED_ATTRIBUTES] left out. *)
Definition _getDOMAttribs (attributes : list (jstr * jstr)) : list KV :=
  map (fun a => {| kv_k := fst a; kv_v := snd a |})
      (filter (fun a => negb (set_has IGNORED_ATTRIBUTES (fst a))) attributes).

(** The keys the loop passes over: [IGNORED_ATTRIBUTES] and [data-mw]. *)
Definition ignore_set : list jstr :=
  [ js "data-parsoid"; js "data-mw"; js "data-ve-changed";
    js "data-parsoid-changed"; js "data-parsoid-diff";
    js "data-parsoid-serialize" ].

(** [/^mw[\w-]{2,}$/.test(v)] *)
Definition is_parsoid_id (v : jstr) : bool :=
  match strip_prefix (js "mw") v with
  | Some r =>
      (2 <=? List.length r)%nat
      && forallb (fun c => is_word c || (c =? 45)%N) r
  | None => false
  end.

(** The two expressions of [PARSOID_ATTRIBUTES]. *)
Inductive ParsoidValueRE := AboutRE | TypeofRE.

Definition PARSOID_ATTRIBUTES_get (k : jstr) : option ParsoidValueRE :=
  if jstr_eqb k (js "about") then Some AboutRE
  else if jstr_eqb k (js "typeof") then Some TypeofRE
  else None.

Definition is_digit (c : N) : bool := ((48 <=? c) && (c <=? 57))%N.

(** [/^#mwt\d+$/] *)
Definition about_matches (s : jstr) : bool :=
  match strip_prefix (js "#mwt") s with
  | Some r => nonempty r && forallb is_digit r
  | None => false
  end.

(** [mw:] and a maximal, non-empty run of code units that are not white
    space, at the head of [s]: the length matched. *)
Definition mw_here (s : jstr) : option nat :=
  match strip_prefix (js "mw:") s with
  | Some r =>
      let n := List.length (fst (span (fun c => negb (is_space c)) r)) in
      if (0 <? n)%nat then Some (3 + n)%nat else None
  | None => None
  end.

(** The typeof expression tried at the head of [s]: the start of the string
    or one white space, then [mw_here].  [at_start] tells whether the head
    of [s] is the start of the string. *)
Definition mw_match_len (at_start : bool) (s : jstr) : option nat :=
  orelse
    (if at_start then mw_here s else None)
    (match s with
     | c :: s' => if is_space c then option_map S (mw_here s') else None
     | [] => None
     end).

Fixpoint has_mw (s : jstr) (at_start : bool) : bool :=
  match mw_match_len at_start s with
  | Some _ => true
  | None =>
      match s with
      | [] => false
      | _ :: s' => has_mw s' false
      end
  end.

(** Every match removed, left to right; [skip] counts the code units of the
    current match still to be dropped. *)
Fixpoint replace_mw (s : jstr) (at_start : bool) (skip : nat) : jstr :=
  match s with
  | [] => []
  | c :: s' =>
      match skip with
      | S n => replace_mw s' false n
      | O =>
          match mw_match_len at_start s with
          | Some n => replace_mw s' false (n - 1)
          | None => c :: replace_mw s' false 0
          end
      end
  end.

(** [v.match(re)] is not null. *)
Definition re_matches (re : ParsoidValueRE) (s : jstr) : bool :=
  match re with
  | AboutRE => about_matches s
  | TypeofRE => has_mw s true
  end.

(** [v.replace(re, '')], for a [v] that matches. *)
Definition re_strip (re : ParsoidValueRE) (s : jstr) : jstr :=
  match re with
  | AboutRE => if about_matches s then [] else s
  | TypeofRE => replace_mw s true 0
  end.

(** [kk.replace(/^data-x-/i, '')] *)
Definition strip_data_x (kk : jstr) : jstr :=
  if jstr_eqb (map ascii_lower (firstn 7 kk)) (js "data-x-")
  then skipn 7 kk else kk.

(** [kk.match(/[{<]/)] *)
Definition has_brace_or_lt (kk : jstr) : bool :=
  existsb (fun c => (c =? 123)%N || (c =? ch_lt)%N) kk.

(** [node.getAttribute(name)] used as a condition. *)
Definition attr_truthy (o : option jstr) : bool :=
  match o with Some s => nonempty s | None => false end.

Definition id_warning (node : Node) (kv : KV) : jstr :=
  js "Parsoid id found on element without a matching data-parsoid entry: ID="
  ++ kv_v kv ++ js "; ELT=" ++ outerHTML dom node.

(** The last branch of the loop body: an attribute that is neither ignored
    nor Parsoid-generated. *)
Definition serialize_plain_attribute (node : Node) (token : Token)
    (acc : list jstr) (kv : KV) : list jstr :=
  let k := kv_k kv in
  if (0 <? List.length k)%nat then
    let vInfo := getAttributeShadowInfo U token k in
    let kk := strip_data_x (getAttributeKey node k) in
    let vv := getAttributeValue node (kv_k kv) (value vInfo) in
    if (0 <? List.length vv)%nat then
      let vv := if negb (fromsrc vInfo) then escapeEntities U vv else vv in
      acc ++ [attr_string kk (escape_quot vv)]
    else if has_brace_or_lt kk then acc ++ [kk]
    else acc ++ [kk ++ js "=" ++ [ch_dquote; ch_dquote]]
  else if (0 <? List.length (kv_v kv))%nat then acc ++ [kv_v kv]
  else acc.

(** The body of the loop over [token.attribs]; [acc] is the array [out]. *)
Definition serialize_attribute (node : Node) (token : Token)
    (acc : list jstr) (kv : KV) : M World (list jstr) :=
  let k := kv_k kv in
  if set_has IGNORED_ATTRIBUTES k || jstr_eqb k (js "data-mw") then ret acc
  else if jstr_eqb k (js "id") && is_parsoid_id (kv_v kv) then
    if negb (attr_truthy (getAttribute dom node (js "data-parsoid"))) then
      log (js "warning/html2wt") (id_warning node kv) ;;;
      ret acc
    else
      let vInfo := getAttributeShadowInfo U token k in
      if negb (modified vInfo) && fromsrc vInfo
      then ret (acc ++ [attr_string k (escape_quot (value vInfo))])
      else ret acc
  else
    match PARSOID_ATTRIBUTES_get k with
    | Some re =>
        if re_matches re (kv_v kv) then
          let v := re_strip re (kv_v kv) in
          if nonempty v then ret (acc ++ [attr_string k v]) else ret acc
        else ret (serialize_plain_attribute node token acc kv)
    | None => ret (serialize_plain_attribute node token acc kv)
    end.

(** The attributes sanitized away, added back after the live ones.  The
    value [sa[k]] is read as an own property of [sa]: a string, or
    undefined. *)
Definition restore_sanitized (token : Token) (acc : list jstr) : list jstr :=
  match dp_a (dataAttribs token), dp_sa (dataAttribs token) with
  | Some a, Some sa =>
      fold_left
        (fun acc k =>
           if negb (lookupKV U (attribs token) k) then
             match lookup k sa with
             | Some (c :: v) => acc ++ [attr_string k (escape_quot (c :: v))]
             | _ => acc ++ [k]
             end
           else acc)
        (map fst a) acc
  | _, _ => acc
  end.

Definition _serializeAttributes (node : Node) (token : Token) : M World jstr :=
  acc <- reduce (serialize_attribute node token) (attribs token) [] ;;
  ret (join (js " ") (restore_sanitized token acc)).

(** *** _serializeHTMLTag and _serializeHTMLEndTag (lines 163-228)

    Both read [dp.dsr] only when [wrapperUnmodified] is set, which
    [_serializeDOMNode] does after it has put an array there. *)

Definition _serializeHTMLTag (node : Node) (wrapperUnmodified : bool)
  : M World jstr :=
  let token := mkTagTk DU node in
  when (jstr_eqb (tk_name token) (js "pre"))
       (modifyState (set_inHTMLPre true)) ;;;
  if wrapperUnmodified then
    let d := dsr_or_empty (getDataParsoid DU node) in
    ret (getOrigSrc X (dsr_at d 0) (dsr_plus (dsr_at d 0) (dsr_at d 2)))
  else
    let da := dataAttribs token in
    if autoInsertedStart da then ret []
    else
      let close :=
        if (isVoidElement U (tk_name token) && negb (noClose da))
           || dp_selfClose da
        then js " /" else [] in
      sAttribs <- _serializeAttributes node token ;;
      let sAttribs :=
        if (0 <? List.length sAttribs)%nat then js " " ++ sAttribs
        else sAttribs in
      let tokenName :=
        match srcTagName da with
        | Some (c :: n) => c :: n
        | _ => tk_name token
        end in
      let r := js "<" ++ tokenName ++ sAttribs ++ close ++ js ">" in
      ret (if jstr_eqb (toLowerCase tokenName) (js "nowiki")
           then escapeNowikiTags DU r else r).

Definition _serializeHTMLEndTag (node : Node) (wrapperUnmodified : bool)
  : M World jstr :=
  if wrapperUnmodified then
    let d := dsr_or_empty (getDataParsoid DU node) in
    ret (getOrigSrc X (dsr_minus (dsr_at d 1) (dsr_at d 3)) (dsr_at d 1))
  else
    let token := mkEndTagTk DU node in
    when (jstr_eqb (tk_name token) (js "pre"))
         (modifyState (set_inHTMLPre false)) ;;;
    let da := dataAttribs token in
    let tokenName :=
      match srcTagName da with
      | Some (c :: n) => c :: n
      | _ => tk_name token
      end in
    let r :=
      if negb (autoInsertedEnd da) && negb (isVoidElement U (tk_name token))
         && negb (dp_selfClose da)
      then js "</" ++ tokenName ++ js ">" else [] in
    ret (if jstr_eqb (toLowerCase tokenName) (js "nowiki")
         then escapeNowikiTags DU r else r).

(** *** _buildTemplateWT (lines 372-539) *)

Definition countPositionalArgs (tpl : Template) (paramInfos : list ParamInfo) : Z :=
  fold_left
    (fun res paramInfo =>
       match get_param (pi_k paramInfo) (params tpl) with
       | Some _ => if negb (named paramInfo) then (res + 1)%Z else res
       | None => res
       end)
    paramInfos 0%Z.

(** The variables the closure [pushArg] shares with its caller: the array
    [argBuf] and the two counters. *)
Record ArgState := {
  argBuf : list jstr;
  argIndexVar : Z;
  numericIndex : Z
}.

(** The object [{}] that stands in for a missing [paramInfo]. *)
Definition no_paramInfo : ParamInfo :=
  {| pi_k := []; named := false; spc := None |}.

Definition opts_param : SerializeOpts :=
  {| opt_onSOL := None; opt_inAttribute := false; opt_extName := None |}.

(** The options [pushArg] hands to the escape handler for key [k]. *)
Definition arg_opts (isTpl : bool) (numPositional n : Z) (st : ArgState)
    (k : jstr) (paramInfo : ParamInfo) : EscapeOpts :=
  {| serializeAsNamed :=
       named paramInfo || negb (jstr_eqb k (Z_toString (numericIndex st)));
     isTemplate := isTpl;
     argPositionalIndex := numericIndex st;
     numPositionalArgs := numPositional;
     argIndex := argIndexVar st;
     numArgs := n |}.

(** The value of a parameter before escaping: its [wt] unless that is
    undefined, else its serialized [html]. *)
Definition arg_value (p : Param) : jsval :=
  match wt p with
  | JUndefined => JStr (serializeHTML X opts_param (p_html p))
  | w => w
  end.

(** The string handed to the escape handler: a value that is not a string
    goes through [Util.tokensToString]. *)
Definition arg_string (p : Param) : jstr :=
  match arg_value p with
  | JStr s => s
  | other => tokensToString U other
  end.

(** The name override: [tpl.params[k].key.wt], when [key] is there and its
    [wt] is not undefined. *)
Definition key_wt (p : Param) : option jsval :=
  match key p with
  | Some JUndefined => None
  | Some w => Some w
  | None => None
  end.

(** Whether [pushArg] emits the argument in named form. *)
Definition emitted_as_named (p : Param) (ev : EscapedValue) : bool :=
  match key_wt p with
  | Some _ => true
  | None => ev_serializeAsNamed ev
  end.

(** The spacing around a named parameter: what [pi] recorded, else none
    for a blank key and one space on either side of the equals sign
    otherwise. *)
Definition arg_spacing (opts : EscapeOpts) (k : jstr) (info : ParamInfo)
  : jstr * jstr * jstr * jstr :=
  match spc info with
  | Some s => s
  | None =>
      if serializeAsNamed opts && jstr_eqb k []
      then ([], [], [], [])
      else ([], js " ", js " ", [])
  end.

(** The closure [pushArg] (lines 425-510), with the variables it shares
    passed in and out.  A key without a parameter does not reach it: its
    callers test or assign [tpl.params[k]] first. *)
Definition pushArg (params : list (jstr * Param)) (isTpl : bool)
    (numPositional n : Z) (st : ArgState) (k : jstr)
    (paramInfo : option ParamInfo) : M World ArgState :=
  let paramInfo := match paramInfo with Some i => i | None => no_paramInfo end in
  let opts := arg_opts isTpl numPositional n st k paramInfo in
  let st := {| argBuf := argBuf st; argIndexVar := (argIndexVar st + 1)%Z;
               numericIndex := numericIndex st |} in
  match get_param k params with
  | None => ret st
  | Some p =>
      match arg_value p with
      | JStr _ => ret tt
      | _ => log (js "error/html2wt/spec") k
      end ;;;
      let escapedValue := escapeTplArgWT X (arg_string p) opts in
      let '(s0, s1, s2, s3) := arg_spacing opts k paramInfo in
      let paramName :=
        match key_wt p with
        | Some w => toString w
        | None => k
        end in
      if emitted_as_named p escapedValue then
        ret {| argBuf := argBuf st ++
                 [s0 ++ paramName ++ s1 ++ js "=" ++ s2
                  ++ trim (ev_v escapedValue) ++ s3];
               argIndexVar := argIndexVar st;
               numericIndex := numericIndex st |}
      else
        ret {| argBuf := argBuf st ++ [ev_v escapedValue];
               argIndexVar := argIndexVar st;
               numericIndex := (numericIndex st + 1)%Z |}
  end.

(** The first loop: the parameters recorded in [pi], in their order. *)
Definition push_old_params (tpl : Template) (isTpl : bool)
    (numPositional n : Z) (paramInfos : list ParamInfo) (st : ArgState)
  : M World ArgState :=
  reduce
    (fun st paramInfo =>
       match get_param (pi_k paramInfo) (params tpl) with
       | Some _ =>
           pushArg (params tpl) isTpl numPositional n st (pi_k paramInfo)
             (Some paramInfo)
       | None => ret st
       end)
    paramInfos st.

(** The second loop: the remaining parameters, under their trimmed keys.
    The loop state carries [tpl.params], which the loop extends. *)
Definition push_new_params (isTpl : bool) (numPositional n : Z)
    (origKeys keys : list jstr) (ps : list (jstr * Param)) (st : ArgState)
  : M World (list (jstr * Param) * ArgState) :=
  reduce
    (fun (acc : list (jstr * Param) * ArgState) k =>
       let (ps, st) := acc in
       let strippedK := trim k in
       if negb (set_has origKeys strippedK) then
         let ps :=
           if negb (jstr_eqb strippedK k) then
             match lookup k ps with
             | Some p => assign strippedK p ps
             | None => ps
             end
           else ps in
         st' <- pushArg ps isTpl numPositional n st strippedK None ;;
         ret (ps, st')
       else ret acc)
    keys (ps, st).

(** One element of [srcParts] appended to [buf]. *)
Definition build_part (dp : DataParsoid) (buf : jstr) (part : Part)
  : M World jstr :=
  match part with
  | PartString s => ret (buf ++ s)
  | PartOther => ret (buf ++ js "[object Object]")
  | PartTemplate tpl =>
      let isTpl := typeof_string (target_href tpl) in
      let buf := buf ++ js "{{" ++ toString (target_wt tpl) in
      let keys := map fst (params tpl) in
      let paramInfos :=
        match dp_pi dp, tpl_i tpl with
        | Some infos, Some i => nth i infos []
        | _, _ => []
        end in
      let origKeys := map pi_k paramInfos in
      let n := Z.of_nat (List.length keys) in
      if (n =? 0)%Z then ret (buf ++ js "}}")
      else
        let numPositional := countPositionalArgs tpl paramInfos in
        let st0 := {| argBuf := []; argIndexVar := 1; numericIndex := 1 |} in
        st1 <- push_old_params tpl isTpl numPositional n paramInfos st0 ;;
        r <- push_new_params isTpl numPositional n origKeys keys (params tpl) st1 ;;
        ret (buf ++ js "|" ++ join (js "|") (argBuf (snd r)) ++ js "}}")
  end.

Definition _buildTemplateWT (node : Node) (srcParts : list Part) : M World jstr :=
  reduce (build_part (getDataParsoid DU node)) srcParts [].

(** *** defaultExtensionHandler (lines 541-651) *)

(** The extra debugging text of the error message.  The selector [href] is
    looked up in the owner document and in the edited document; an invalid
    selector throws, and so does a missing edited document. *)
Definition extraDebug (node : Node) : Outcome jstr :=
  match querySelector dom node (js "a[href]") with
  | None => Returned []
  | Some firstA =>
      let href := getAttribute dom firstA (js "href") in
      if starts_with (js "#")
           (match href with Some h => h | None => js "null" end)
      then
        let href := match href with Some h => h | None => js "null" end in
        match docQuerySelector dom (ownerDocument dom node) href with
        | Thrown => Thrown
        | Returned own =>
            let dbg :=
              match own with
              | Some r => js " [own doc: " ++ outerHTML dom r ++ js "]"
              | None => []
              end in
            match editedDoc X with
            | None => Thrown
            | Some d =>
                match docQuerySelector dom d href with
                | Thrown => Thrown
                | Returned main =>
                    let dbg :=
                      match main with
                      | Some r => dbg ++ js " [main doc: " ++ outerHTML dom r ++ js "]"
                      | None => dbg
                      end in
                    Returned
                      (match dbg with
                       | [] => js " [reference " ++ href ++ js " not found]"
                       | _ => dbg
                       end)
                end
            end
        end
      else Returned []
  end.

(** The element [body.id] points to: looked up in the document of the node,
    then in the edited document when there is one. *)
Definition find_body_element (node : Node) (id : jsval) : option Node :=
  match getElementById dom (ownerDocument dom node) (toString id) with
  | Some e => Some e
  | None =>
      match editedDoc X with
      | Some d => getElementById dom d (toString id)
      | None => None
      end
  end.

Definition opts_ext (extName : jstr) : SerializeOpts :=
  {| opt_onSOL := None; opt_inAttribute := false; opt_extName := Some extName |}.

(** The token built from [data-mw.attrs], with the [about] and [typeof] of
    the node. *)
Definition extension_token (node : Node) (dataMW : DataMw) : Token :=
  let attrs := match mw_attrs dataMW with Some a => a | None => [] end in
  let extTok :=
    {| tk_name := mw_name dataMW;
       attribs := map (fun kv => {| kv_k := fst kv; kv_v := snd kv |}) attrs;
       dataAttribs := empty_dp |} in
  let extTok :=
    match getAttribute dom node (js "about") with
    | Some (c :: a) => addAttribute extTok (js "about") (c :: a)
    | _ => extTok
    end in
  match getAttribute dom node (js "typeof") with
  | Some (c :: t) => addAttribute extTok (js "typeof") (c :: t)
  | _ => extTok
  end.

(** How the body of the extension is obtained. *)
Inductive BodySource :=
| BodyHtml (htmlText : jsval)      (* body.html, or the innerHTML found *)
| BodyMissingElement               (* body.id points to no element *)
| BodyExtsrc (s : jsval)           (* body.extsrc *)
| BodyUnavailable.                 (* none of the three *)

Definition resolve_body (node : Node) (b : ExtBody) : BodySource :=
  if typeof_string (body_html b) || typeof_string (body_id b) then
    if truthy (body_html b) then BodyHtml (body_html b)
    else
      match find_body_element node (body_id b) with
      | Some bodyElt => BodyHtml (JStr (innerHTML dom bodyElt))
      | None => BodyMissingElement
      end
  else
    match extsrc b with
    | JNull | JUndefined => BodyUnavailable
    | s => BodyExtsrc s
    end.

Definition missing_element_message (node : Node) (b : ExtBody) (dbg : jstr) : jstr :=
  js "extension src id " ++ toString (body_id b)
  ++ js " points to non-existent element for:" ++ outerHTML dom node
  ++ js ". Dropping the extension. More debug info: " ++ dbg.

Definition defaultExtensionHandler (node : Node) (dataMW : DataMw)
  : M World (Outcome jstr) :=
  let extName := mw_name dataMW in
  attrStr <- _serializeAttributes node (extension_token node dataMW) ;;
  let srcParts := [js "<"; extName] in
  let srcParts :=
    if nonempty attrStr then srcParts ++ [js " "; attrStr] else srcParts in
  match mw_body dataMW with
  | None => ret (Returned (concat (srcParts ++ [js " />"])))
  | Some b =>
      let srcParts := srcParts ++ [js ">"] in
      let close := [js "</"; extName; js ">"] in
      match resolve_body node b with
      | BodyHtml htmlText =>
          if truthy htmlText then
            let res := serializeHTML X (opts_ext extName) htmlText in
            ret (Returned (concat (srcParts ++ [res] ++ close)))
          else ret (Returned (concat (srcParts ++ close)))
      | BodyMissingElement =>
          match extraDebug node with
          | Thrown => ret Thrown
          | Returned dbg =>
              log (js "error/" ++ extName) (missing_element_message node b dbg) ;;;
              ret (Returned (concat []))
          end
      | BodyExtsrc s =>
          ret (Returned (concat (srcParts ++ [toString s] ++ close)))
      | BodyUnavailable =>
          log (js "error")
              (js "extension src unavailable for: " ++ outerHTML dom node) ;;;
          ret (Returned (concat (srcParts ++ close)))
      end
  end.

(** *** _getDOMHandler (lines 656-688) *)

Definition is_html_stx (dp : DataParsoid) : bool :=
  match stx dp with Some s => jstr_eqb s (js "html") | None => false end.

(** The test for a new element under a list or table in HTML syntax.  An
    element reached by the walker has a parent. *)
Definition new_elt_in_html_parent (node : Node) : bool :=
  match parentNode dom node with
  | Some parent =>
      isNewElt DU node && negb (atTheTop DU node)
      && negb (isDocumentFragment DU parent)
      && is_html_stx (getDataParsoid DU parent)
      && ((isList DU parent && isListItem DU node)
          || (ParentTableTags U (nodeName dom parent)
              && ChildTableTags U (nodeName dom node)))
  | None => false
  end.

Definition _getDOMHandler (node : option Node) : Handler :=
  match node with
  | None => no_handler
  | Some node =>
      if negb (isElt DU node) then no_handler
      else
        match _getEncapsulatedContentHandler X node with
        | Some handler => handler
        | None =>
            let dp := getDataParsoid DU node in
            let name := String_toLowerCase U (nodeName dom node) in
            let handler :=
              tagHandlers X (name ++ js "_" ++ as_string (stx dp)) in
            match handler with
            | None =>
                if is_html_stx dp && negb (jstr_eqb name (js "a"))
                then htmlElementHandler X
                else if new_elt_in_html_parent node then htmlElementHandler X
                else
                  match tagHandlers X name with
                  | Some h => h
                  | None => htmlElementHandler X
                  end
            | Some h =>
                if new_elt_in_html_parent node then htmlElementHandler X
                else h
            end
        end
  end.

(** *** _serializeTextNode (lines 690-748) *)

Definition is_blank (c : N) : bool := ((c =? 32) || (c =? 9))%N.

(** The length matched at the head of [s] by a greedy repetition of blanks
    followed by a newline; [pending] counts the blanks read since the last
    newline, [acc] the length up to it. *)
Fixpoint blank_lines_len (s : jstr) (pending acc : nat) : nat :=
  match s with
  | c :: s' =>
      if (c =? ch_nl)%N then blank_lines_len s' 0 (acc + pending + 1)
      else if is_blank c then blank_lines_len s' (S pending) acc
      else acc
  | [] => acc
  end.

(** [res.match(doubleNewlineRE_G)]: the number of matches of a newline
    followed by one or more blank lines. *)
Fixpoint doubleNewlineCount (s : jstr) (skip : nat) : nat :=
  match s with
  | [] => 0
  | c :: s' =>
      match skip with
      | S n => doubleNewlineCount s' n
      | O =>
          if (c =? ch_nl)%N && (0 <? blank_lines_len s' 0 0)%nat
          then S (doubleNewlineCount s' (blank_lines_len s' 0 0))
          else doubleNewlineCount s' 0
      end
  end.

(** [res.replace(doubleNewlineRE_G, '\n')] *)
Fixpoint collapse_newlines (s : jstr) (skip : nat) : jstr :=
  match s with
  | [] => []
  | c :: s' =>
      match skip with
      | S n => collapse_newlines s' n
      | O =>
          if (c =? ch_nl)%N && (0 <? blank_lines_len s' 0 0)%nat
          then ch_nl :: collapse_newlines s' (blank_lines_len s' 0 0)
          else c :: collapse_newlines s' 0
      end
  end.

(** [sepSuffixWithNlsRE]: the leftmost newline after which the string holds
    white space only.  The text before the match, and the match. *)
Fixpoint sepSuffixWithNls (s : jstr) : option (jstr * jstr) :=
  match s with
  | [] => None
  | c :: s' =>
      if (c =? ch_nl)%N && forallb is_space s' then Some ([], s)
      else
        match sepSuffixWithNls s' with
        | Some (before, m) => Some (c :: before, m)
        | None => None
        end
  end.

(** [res.replace(sepPrefixWithNlsRE, '')]: blanks, at least one newline,
    then all the white space that follows. *)
Definition strip_sepPrefixWithNls (s : jstr) : jstr :=
  match snd (span is_blank s) with
  | c :: r => if (c =? ch_nl)%N then skip_spaces (c :: r) else s
  | [] => s
  end.

(** The text emitted for a text node with value [res0], in state [st]. *)
Definition text_to_emit (node : Node) (st : SerializerState) (res0 : jstr) : jstr :=
  let count := doubleNewlineCount res0 0 in
  let res :=
    match sepSuffixWithNls res0 with
    | Some (before, _) => before
    | None => res0
    end in
  let res :=
    if negb (inIndentPre st) then
      let res :=
        if negb (inHTMLPre st)
           && (negb (allChildrenAreText DU (parentNode dom node))
               || negb (count =? 1)%nat)
        then collapse_newlines res 0 else res in
      strip_sepPrefixWithNls res
    else res in
  escapeEntities U res.

(** The value [escapeText] is given before the chunk is emitted. *)
Definition escapeText_for (st : SerializerState) : bool :=
  (onSOL st || negb (currNodeUnmodified st))
  && negb (inNoWiki st) && negb (inHTMLPre st).

Definition sep_src_truthy (st : SerializerState) : bool :=
  match src (sep st) with Some s => nonempty s | None => false end.

(** The end of [_serializeTextNode]: the trailing newlines become the source
    of the next separator unless it has one already. *)
Definition move_trailing_newlines (node : Node)
    (newSepMatch : option (jstr * jstr)) : M World unit :=
  match newSepMatch with
  | Some (_, m) =>
      st <- getState ;;
      if negb (sep_src_truthy st) then
        modifyState (setSep X m) ;;;
        modifyState (updateSep X node)
      else ret tt
  | None => ret tt
  end.

Definition _serializeTextNode (node : Node) : M World unit :=
  st <- getState ;;
  let res := text_to_emit node st (nodeValue dom node) in
  modifyState (fun st => set_escapeText (escapeText_for st) st) ;;;
  emitChunk (ChunkString res) node ;;;
  modifyState (set_escapeText false) ;;;
  move_trailing_newlines node (sepSuffixWithNls (nodeValue dom node)).

(** *** _serializeDOMNode (lines 790-931)

    The function first stores [dp.dsr || []] back into [dp]; here every
    reader of [dp.dsr] applies [dsr_or_empty] instead. *)

Definition name_in (names : list jstr) (n : jstr) : bool :=
  existsb (jstr_eqb n) names.

(** Condition 4 of the comment that opens the function: positive width, or
    zero width on a P, BR or OL, or fostered or misnested content. *)
Definition usable_width (node : Node) (dp : DataParsoid) : bool :=
  let d := dsr_or_empty dp in
  dsr_gt (dsr_at d 1) (dsr_at d 0)
  || (dsr_eq (dsr_at d 1) (dsr_at d 0)
      && name_in [js "P"; js "BR"; js "OL"] (nodeName dom node))
  || fostered dp || misnested dp.

(** The condition of the outer [if]. *)
Definition selser_candidate (st : SerializerState) (node : Node) : bool :=
  let dp := getDataParsoid DU node in
  selserMode st
  && negb (inModifiedContent st)
  && origSrcValidInEditedContext DU node
  && isValidDSR U (dsr_or_empty dp)
  && usable_width node dp.

(** The node is serialized from the original source. *)
Definition reuses_source (st : SerializerState) (node : Node) : bool :=
  selser_candidate st node && negb (hasDiffMarkers DU node).

Definition to_parent_child (node : Node) (st : SerializerState) : SerializerState :=
  set_sep
    {| src := src (sep st);
       constraintInfo :=
         {| ci_onSOL := onSOL st;
            sepType := js "parent-child";
            nodeA := Some node;
            nodeB := firstChild dom node |};
       lastSourceNode := lastSourceNode (sep st) |}
    st.

Definition suppressSLC (node : Node) : bool :=
  isFirstEncapsulationWrapperNode DU node
  || name_in [js "DL"; js "UL"; js "OL"] (nodeName dom node)
  || (jstr_eqb (nodeName dom node) (js "TABLE")
      && match parentNode dom node with
         | Some parent => jstr_eqb (nodeName dom parent) (js "DD")
         | None => false
         end
      && match previousNonSepSibling DU node with
         | None => true
         | Some _ => false
         end).

(** What [emitChunk] is handed for a constrained text. *)
Definition chunk_of (ct : CT) : Chunk * Node := (ChunkCT ct, ct_node X ct).

Fixpoint emit_all (cts : list CT) : M World unit :=
  match cts with
  | [] => ret tt
  | ct :: rest => emitChunk (ChunkCT ct) (ct_node X ct) ;;; emit_all rest
  end.

(** The branch that serializes the node from source (lines 842-902). *)
Definition serialize_from_source (node : Node) : M World Next :=
  let dp := getDataParsoid DU node in
  let d := dsr_or_empty dp in
  modifyState (set_currNodeUnmodified true) ;;;
  st <- getState ;;
  when (isZeroWidthWikitextElt DU node
        && (0 <? List.length (childNodes dom node))%nat
        && jstr_eqb (sepType (constraintInfo (sep st))) (js "sibling"))
       (modifyState (to_parent_child node)) ;;;
  let orig := getOrigSrc X (dsr_at d 0) (dsr_at d 1) in
  trace (js "ORIG-src with DSR") ;;;
  when (suppressSLC node) (modifyState (singleLineContext_disable X)) ;;;
  emit_all (fromSelSer X orig node dp) ;;;
  when (suppressSLC node) (modifyState (singleLineContext_pop X)) ;;;
  if isFirstEncapsulationWrapperNode DU node
  then ret (NextNode (skipOverEncapsulatedContent DU node))
  else ret (NextNode (nextSibling dom node)).

(** The test that sets [wrapperUnmodified] (lines 904-916). *)
Definition wrapper_unmodified (node : Node) : bool :=
  let dp := getDataParsoid DU node in
  onlySubtreeChanged DU node
  && hasValidTagWidths U (dsr_or_empty dp)
  && ((negb (autoInsertedStart dp) && negb (autoInsertedEnd dp))
      || name_in [js "TD"; js "TH"; js "TR"] (nodeName dom node)).

(** [domHandler.handle(node, state, wrapperUnmodified)]; calling a handler
    that has no such method throws. *)
Definition call_handle (h : Handler) (node : Node) (wrapperUnmodified : bool)
  : M World (Outcome Next) :=
  record (EvHandle h node wrapperUnmodified) ;;;
  match handle h with
  | Some f =>
      st <- getState ;;
      let (next, st') := f node st wrapperUnmodified in
      modifyState (fun _ => st') ;;;
      ret (Returned next)
  | None => ret Thrown
  end.

Definition _serializeDOMNode (node : Node) (domHandler : Handler)
  : M World (Outcome Next) :=
  st <- getState ;;
  if selser_candidate st node && negb (hasDiffMarkers DU node) then
    next <- serialize_from_source node ;;
    ret (Returned next)
  else
    let wrapperUnmodified := selser_candidate st node && wrapper_unmodified node in
    modifyState (set_currNodeUnmodified false) ;;;
    let inModified := selserMode st && hasInsertedDiffMark DU node in
    when inModified (modifyState (set_inModifiedContent true)) ;;;
    r <- call_handle domHandler node wrapperUnmodified ;;
    match r with
    | Returned next =>
        when inModified (modifyState (set_inModifiedContent false)) ;;;
        ret (Returned next)
    | Thrown => ret Thrown
    end.

(** *** _serializeNode (lines 936-1010) *)

Definition has_handle (h : Handler) : bool :=
  match handle h with Some _ => true | None => false end.

Definition or_parent (o : option Node) (node : Node) : option Node :=
  match o with
  | Some n => Some n
  | None => parentNode dom node
  end.

(** The test that marks a text node as unmodified in selser mode. *)
Definition text_node_unmodified (st : SerializerState) (node : Node) : bool :=
  negb (inModifiedContent st)
  && match previousSibling dom node with
     | None =>
         match parentNode dom node with
         | Some parent => isBody DU parent
         | None => false
         end
     | Some prev => negb (isMarkerMeta DU prev (js "mw:DiffMarker"))
     end.

(** The continuation run once the node has been serialized. *)
Definition after_node (node : Node) (domHandler : Handler) (r : Outcome Next)
  : M World (Outcome (option Node)) :=
  match r with
  | Thrown => ret Thrown
  | Returned nextNode =>
      let next := or_parent (nextNonSepSibling DU node) node in
      modifyState
        (updateSeparatorConstraints X (Some node) domHandler
           next (_getDOMHandler next)) ;;;
      modifyState (updateModificationFlags X node) ;;;
      ret (Returned
             match nextNode with
             | NextUndefined => nextSibling dom node
             | NextNode n => n
             end)
  end.

Definition before_node (node : Node) (domHandler : Handler) : M World unit :=
  let prev := or_parent (previousNonSepSibling DU node) node in
  modifyState
    (updateSeparatorConstraints X prev (_getDOMHandler prev)
       (Some node) domHandler).

Definition set_lastSourceNode (node : Node) (st : SerializerState) : SerializerState :=
  set_sep {| src := src (sep st); constraintInfo := constraintInfo (sep st);
             lastSourceNode := Some node |} st.

Definition _serializeNode (node : Node) : M World (Outcome (option Node)) :=
  trace (js "node") ;;;
  match nodeType dom node with
  | ELEMENT_NODE =>
      if isMarkerMeta DU node (js "mw:DiffMarker") then
        modifyState (set_lastSourceNode node) ;;;
        modifyState (updateModificationFlags X node) ;;;
        ret (Returned (nextSibling dom node))
      else
        let domHandler := _getDOMHandler (Some node) in
        when (negb (has_handle domHandler))
             (record (EvAssertFailed
                        (js "No dom handler found for" ++ outerHTML dom node))) ;;;
        before_node node domHandler ;;;
        r <- _serializeDOMNode node domHandler ;;
        after_node node domHandler r
  | TEXT_NODE =>
      st <- getState ;;
      let (isSep, st') := handleSeparatorText X node st in
      modifyState (fun _ => st') ;;;
      if isSep then ret (Returned (nextSibling dom node))
      else
        when (selserMode st')
             (modifyState (fun st =>
                set_currNodeUnmodified (text_node_unmodified st node) st)) ;;;
        before_node node no_handler ;;;
        _serializeTextNode node ;;;
        after_node node no_handler (Returned NextUndefined)
  | COMMENT_NODE =>
      modifyState (fun st =>
        setSep X
          (match src (sep st) with
           | Some (c :: s) => c :: s
           | _ => []
           end ++ commentWT U (nodeValue dom node)) st) ;;;
      ret (Returned (nextSibling dom node))
  | OTHER_NODE => ret Thrown
  end.

(** *** The end of serializeDOM (lines 1210-1238): the post-passes over
    the output, each under its flag. *)

Variable conf : IndentPre.Config.

Definition strip_passes (st : SerializerState) : SerializerState :=
  let st :=
    if hasIndentPreNowikis st
    then set_out (IndentPre.stripUnnecessaryIndentPreNowikis conf (out st)) st
    else st in
  let st :=
    if hasQuoteNowikis st
    then set_out (QuoteNowiki.stripUnnecessaryQuoteNowikis (out st)) st
    else st in
  if hasSelfClosingNowikis st || selserMode st
  then set_out (TrailingNowiki.stripTrailingNowikis (out st)) st
  else st.

End Serializer.

Arguments EvLog {Node CT Hidden} logType message.
Arguments EvTrace {Node CT Hidden} label.
Arguments EvAssertFailed {Node CT Hidden} message.
Arguments ChunkString {CT} s.
Arguments NextUndefined {Node}.
Arguments no_handler {Node Hidden}.

End WTS.

(** ** A small page, for running the serializer

    The page source is [foo], a newline and an HTML pre; the DOM holds a
    paragraph (node 1) with its text (node 2), the pre (node 3) and an
    extension wrapper (node 4) under the body (node 0). *)

Module Page.
Import WTS.

Definition page_src : jstr := js "foo
<pre>x</pre>".

Definition nodeType (n : nat) : NodeType :=
  match n with
  | 2 => TEXT_NODE
  | _ => ELEMENT_NODE
  end.

Definition nodeName (n : nat) : jstr :=
  match n with
  | 0 => js "BODY"
  | 1 => js "P"
  | 2 => js "#text"
  | 3 => js "PRE"
  | _ => js "SPAN"
  end.

Definition dom : DOMApi nat unit :=
  {| WTS.nodeType := nodeType;
     WTS.nodeName := nodeName;
     nodeValue := fun n => match n with 2 => js "foo" | _ => [] end;
     getAttribute := fun _ _ => None;
     outerHTML := fun n => js "<" ++ nodeName n ++ js ">";
     innerHTML := fun _ => [];
     parentNode := fun n =>
       match n with 0 => None | 2 => Some 1 | _ => Some 0 end;
     nextSibling := fun n =>
       match n with 1 => Some 3 | 3 => Some 4 | _ => None end;
     previousSibling := fun n =>
       match n with 3 => Some 1 | 4 => Some 3 | _ => None end;
     firstChild := fun n =>
       match n with 0 => Some 1 | 1 => Some 2 | _ => None end;
     childNodes := fun n =>
       match n with 0 => [1; 3; 4] | 1 => [2] | _ => [] end;
     ownerDocument := fun _ => tt;
     getElementById := fun _ _ => None;
     querySelector := fun _ _ => None;
     docQuerySelector := fun _ _ => Returned None |}.

Definition dp_of (n : nat) : DataParsoid :=
  match n with
  | 1 =>
      {| dsr := Some [DNum 0; DNum 3; DNum 0; DNum 0]; stx := None;
         fostered := false; misnested := false;
         autoInsertedStart := false; autoInsertedEnd := false;
         dp_selfClose := false; noClose := false; srcTagName := None;
         liHackSrc := None; dp_a := None; dp_sa := None; dp_pi := None |}
  | 3 =>
      {| dsr := Some [DNum 4; DNum 16; DNum 5; DNum 6]; stx := Some (js "html");
         fostered := false; misnested := false;
         autoInsertedStart := false; autoInsertedEnd := false;
         dp_selfClose := false; noClose := false; srcTagName := None;
         liHackSrc := None; dp_a := None; dp_sa := None; dp_pi := None |}
  | _ => empty_dp
  end.

Definition no_data_mw : DataMw :=
  {| mw_name := []; mw_attrs := None; mw_body := None; mw_attribs := None |}.

Definition tag_token (n : nat) : Token :=
  {| tk_name := toLowerCase (nodeName n); attribs := []; dataAttribs := dp_of n |}.

Definition DU : DOMUtils nat :=
  {| isElt := fun n => negb (n =? 2)%nat;
     isBody := fun n => (n =? 0)%nat;
     getDataParsoid := dp_of;
     getDataMw := fun _ => no_data_mw;
     mkTagTk := tag_token;
     mkEndTagTk := tag_token;
     escapeNowikiTags := fun s => s;
     previousNonSepSibling := previousSibling dom;
     nextNonSepSibling := nextSibling dom;
     isList := fun _ => false;
     isListItem := fun _ => false;
     isNewElt := fun _ => false;
     atTheTop := fun n => (n =? 0)%nat;
     isDocumentFragment := fun _ => false;
     allChildrenAreText := fun o => match o with Some 1 => true | _ => false end;
     origSrcValidInEditedContext := fun _ => true;
     hasDiffMarkers := fun _ => false;
     isZeroWidthWikitextElt := fun _ => false;
     isFirstEncapsulationWrapperNode := fun n => (n =? 4)%nat;
     skipOverEncapsulatedContent := nextSibling dom;
     onlySubtreeChanged := fun _ => false;
     hasInsertedDiffMark := fun _ => false;
     isMarkerMeta := fun _ _ => false |}.

Definition valid_offset (a : dsrval) : bool :=
  match a with DNum z => (0 <=? z)%Z | _ => false end.

Definition shadow_info (t : Token) (k : jstr) : ShadowInfo :=
  {| value :=
       match find (fun kv => jstr_eqb (kv_k kv) k) (attribs t) with
       | Some kv => kv_v kv
       | None => []
       end;
     modified := false;
     fromsrc := false |}.

Definition U : Utils :=
  {| isValidDSR := fun d => valid_offset (dsr_at d 0) && valid_offset (dsr_at d 1);
     isVoidElement := fun n => jstr_eqb n (js "br");
     escapeEntities := fun s => s;
     lookupKV := fun kvs k => existsb (fun kv => jstr_eqb (kv_k kv) k) kvs;
     tokensToString := toString;
     String_toLowerCase := toLowerCase;
     hasValidTagWidths := fun d => valid_offset (dsr_at d 2) && valid_offset (dsr_at d 3);
     commentWT := fun s => js "<!--" ++ s ++ js "-->";
     getAttributeShadowInfo := shadow_info;
     ParentTableTags := fun _ => false;
     ChildTableTags := fun _ => false |}.

(** A handler that emits nothing and leaves the next node to the walker. *)
Definition quiet_handler : Handler nat unit :=
  {| handle := Some (fun _ st _ => (NextUndefined, st)) |}.

Definition chunk_text (c : Chunk (jstr * nat)) : jstr :=
  match c with
  | ChunkString s => s
  | ChunkCT ct => fst ct
  end.

(** An escape handler that asks for the named form when the value holds an
    equals sign, and leaves the value as it is. *)
Definition escape_arg (val : jstr) (o : EscapeOpts) : EscapedValue :=
  {| ev_serializeAsNamed :=
       serializeAsNamed o || existsb (fun c => N.eqb c ch_eq) val;
     ev_v := val |}.

Definition X : Externals nat unit (jstr * nat) unit :=
  {| SS_emitChunk := fun c _ st => set_out (out st ++ chunk_text c) st;
     getOrigSrc := substring page_src;
     setSep := fun s st =>
       set_sep {| src := Some s; constraintInfo := constraintInfo (sep st);
                  lastSourceNode := lastSourceNode (sep st) |} st;
     updateSep := fun n st => set_lastSourceNode n st;
     updateModificationFlags := fun _ st => st;
     singleLineContext_disable := fun st => st;
     singleLineContext_pop := fun st => st;
     handleSeparatorText := fun _ st => (false, st);
     updateSeparatorConstraints := fun _ _ _ _ st => st;
     fromSelSer := fun orig n _ => [(orig, n)];
     ct_node := snd;
     escapeTplArgWT := escape_arg;
     serializeHTML := fun _ h => toString h;
     editedDoc := Some tt;
     tagHandlers := fun key =>
       if jstr_eqb key (js "p") then Some quiet_handler else None;
     htmlElementHandler := quiet_handler;
     _getEncapsulatedContentHandler := fun _ => None |}.

Definition start_state (selser : bool) : SerializerState nat unit :=
  {| selserMode := selser; inModifiedContent := false;
     currNodeUnmodified := false; prevNodeUnmodified := false;
     onSOL := true; escapeText := false; inNoWiki := false;
     inHTMLPre := false; inIndentPre := false;
     sep := {| src := None;
               constraintInfo := {| ci_onSOL := true; sepType := js "sibling";
                                    nodeA := None; nodeB := None |};
               lastSourceNode := None |};
     out := [];
     hasIndentPreNowikis := false; hasQuoteNowikis := false;
     hasSelfClosingNowikis := false;
     internals := tt |}.

Definition start (selser : bool) : World nat (jstr * nat) unit :=
  {| state := start_state selser; events := [] |}.

(** An extension [ref] and three bodies. *)
Definition ref_with (b : ExtBody) : DataMw :=
  {| mw_name := js "ref"; mw_attrs := None; mw_body := Some b; mw_attribs := None |}.

Definition body_by_id_with_extsrc : ExtBody :=
  {| body_html := JUndefined; body_id := JStr (js "mw-reference-text-1");
     extsrc := JStr (js "SRC") |}.



(** A token whose only attribute is a protected [data-mw]. *)
Definition protected_token : Token :=
  {| tk_name := js "div";
     attribs := [{| kv_k := js "data-x-data-mw"; kv_v := js "foo" |}];
     dataAttribs := empty_dp |}.

(** A template parameter with the wikitext [a]. *)
Definition param_a : Param :=
  {| wt := JStr (js "a"); p_html := JUndefined; key := None |}.

Definition param_b : Param :=
  {| wt := JStr (js "b"); p_html := JUndefined; key := None |}.

(** The template [echo] with the parameters [1] and [x], of which [pi]
    records the first. *)
Definition echo : Template :=
  {| target_wt := JStr (js "echo"); target_href := JStr (js "./Template:Echo");
     params := [(js "1", param_a); (js "x", param_b)];
     tpl_i := Some 0%nat |}.

Definition echo_dp : DataParsoid :=
  {| dsr := None; stx := None; fostered := false; misnested := false;
     autoInsertedStart := false; autoInsertedEnd := false;
     dp_selfClose := false; noClose := false; srcTagName := None;
     liHackSrc := None; dp_a := None; dp_sa := None;
     dp_pi := Some [[{| pi_k := js "1"; named := false; spc := None |}]] |}.

End Page.

(** ** Further methods of WikitextSerializer.js *)

Module WTSMore.
Import WTS.
Local Open Scope monad_scope.

Section Serializer.

Variables Node Doc CT Hidden : Type.
Variable X : Externals Node Doc CT Hidden.

(** *** emitWikitext (lines 753-775)

    Non-separator wikitext that needs no escaping: the leading newlines go,
    the trailing newlines become the source of the next separator unless
    it has one already. *)
Definition emitWikitext (text : jstr) (node : Node)
  : M (World Node CT Hidden) unit :=
  let res := strip_sepPrefixWithNls text in
  let newSepMatch := sepSuffixWithNls res in
  let res :=
    match newSepMatch with
    | Some (before, _) => before
    | None => res
    end in
  emitChunk X (ChunkString res) node ;;;
  move_trailing_newlines X node newSepMatch.

End Serializer.

(** *** The argument loops of _buildTemplateWT (lines 512-530) *)

Section Transclusion.

Variables Node Doc CT Hidden : Type.
Variable U : Utils.
Variable X : Externals Node Doc CT Hidden.
Variable params : list (jstr * Param).
Variables (isTpl : bool) (numPositional n : Z).

(** One call of [pushArg]: for a key, with the info recorded for it or,
    for a new parameter, with none. *)
Definition one_push (st : ArgState) (slot : jstr * option ParamInfo)
  : M (World Node CT Hidden) ArgState :=
  pushArg U X params isTpl numPositional n st (fst slot) (snd slot).

(** The call for the key and info [snd slot], made with [argIndex] at
    [fst slot], pushes [arg] and nothing else. *)
Definition pushed_at (slot : nat * (jstr * option ParamInfo)) (arg : jstr)
  : Prop :=
  exists (st : ArgState) (w : World Node CT Hidden),
    argIndexVar st = Z.of_nat (fst slot) /\
    argBuf (fst (one_push st (snd slot) w)) = argBuf st ++ [arg].

End Transclusion.

(** The keys in the order of the two loops: the recorded infos whose key is
    a parameter, then the parameters without a recorded info. *)
Definition pass_order (keys : list jstr) (infos : list ParamInfo)
  : list (jstr * option ParamInfo) :=
  map (fun i => (pi_k i, Some i))
      (filter (fun i => set_has keys (pi_k i)) infos)
  ++ map (fun k => (k, None))
         (filter (fun k => negb (set_has (map pi_k infos) k)) keys).

(** The text holds an opening [<nowiki], in any letter case. *)
Fixpoint mentions_nowiki (s : jstr) : bool :=
  match IndentPre.strip_prefix_ci (js "<nowiki") s with
  | Some _ => true
  | None =>
      match s with
      | [] => false
      | _ :: s' => mentions_nowiki s'
      end
  end.

End WTSMore.

(** ** The command line utility (bin/parse.js) *)

Module ParseCLI.
Import WTS.

(** The options the conversion reads ([argv]); each is whatever value the
    option parser left there. *)
Record Argv := {
  wt2html : jsval;
  html2wt : jsval;
  wt2wt : jsval;
  html2html : jsval;
  selser : jsval;
  normalize : jsval;
  document : jsval;
  lint : jsval;
  offline : jsval;
  prefix : jsval;
  domain : jsval;
  apiURL : jsval;
  fetchConfig : jsval;
  fetchTemplates : jsval;
  fetchImageInfo : jsval;
  usephppreprocessor : jsval
}.

Definition set_html2wt (v : jsval) (a : Argv) : Argv :=
  {| wt2html := wt2html a; html2wt := v; wt2wt := wt2wt a;
     html2html := html2html a; selser := selser a; normalize := normalize a;
     document := document a; lint := lint a; offline := offline a;
     prefix := prefix a; domain := domain a; apiURL := apiURL a;
     fetchConfig := fetchConfig a; fetchTemplates := fetchTemplates a;
     fetchImageInfo := fetchImageInfo a;
     usephppreprocessor := usephppreprocessor a |}.

Definition set_wt2html (v : jsval) (a : Argv) : Argv :=
  {| wt2html := v; html2wt := html2wt a; wt2wt := wt2wt a;
     html2html := html2html a; selser := selser a; normalize := normalize a;
     document := document a; lint := lint a; offline := offline a;
     prefix := prefix a; domain := domain a; apiURL := apiURL a;
     fetchConfig := fetchConfig a; fetchTemplates := fetchTemplates a;
     fetchImageInfo := fetchImageInfo a;
     usephppreprocessor := usephppreprocessor a |}.

Definition set_offline (a : Argv) : Argv :=
  {| wt2html := wt2html a; html2wt := html2wt a; wt2wt := wt2wt a;
     html2html := html2html a; selser := selser a; normalize := normalize a;
     document := document a; lint := lint a; offline := offline a;
     prefix := prefix a; domain := domain a; apiURL := apiURL a;
     fetchConfig := JBool false; fetchTemplates := JBool false;
     fetchImageInfo := JBool false;
     usephppreprocessor := JBool false |}.

(** *** The defaults set by the main function (lines 309-337) *)

(** Selser implies html2wt; without html2wt, wt2wt and html2html the mode
    is wt2html; offline turns the fetches off. *)
Definition default_modes (argv : Argv) : Argv :=
  let argv :=
    if truthy (selser argv) then set_html2wt (JBool true) argv else argv in
  let argv :=
    if negb (truthy (html2wt argv)) && negb (truthy (wt2wt argv))
       && negb (truthy (html2html argv))
    then set_wt2html (JBool true) argv else argv in
  if truthy (offline argv) then set_offline argv else argv.

(** [v || null] *)
Definition or_null (v : jsval) : jsval := if truthy v then v else JNull.

(** The variables [prefix] and [domain] after the defaults. *)
Definition select_wiki (argv : Argv) : jsval * jsval :=
  let p := or_null (prefix argv) in
  let d := or_null (domain argv) in
  if truthy (apiURL argv) then (JStr (js "customwiki"), JNull)
  else if negb (truthy p || truthy d) then (p, JStr (js "en.wikipedia.org"))
  else (p, d).

(** *** startsAtHTML and startsAtWikitext (lines 140-194) *)

(** What the conversion resolves to: [{ trailingNL: true, out: out, env:
    env }], where [out] is a string or, under [argv.document], the
    document. *)
Inductive Out (HDoc : Type) :=
| OutString (s : jstr)
| OutDoc (d : HDoc).
Arguments OutString {HDoc} s.
Arguments OutDoc {HDoc} d.

Record Result (HDoc : Type) := {
  trailingNL : bool;
  out : Out HDoc
}.

(** How a run ends: with a value and the environment it leaves, with an
    exception, or not within the number of stages allowed. *)
Inductive Run (A : Type) :=
| Done (x : A)
| Threw
| OutOfFuel.
Arguments Done {A} x.
Arguments Threw {A}.
Arguments OutOfFuel {A}.

Section Pipeline.

(** The environment with all that hangs on it (page, documents), document
    references, and the value of a parsed data-parsoid blob. *)
Variables E HDoc DPV : Type.

Definition P (A : Type) : Type := E -> Run (A * E).

Definition pret {A} (x : A) : P A := fun e => Done (x, e).

Definition pbind {A B} (m : P A) (k : A -> P B) : P B :=
  fun e =>
    match m e with
    | Done (x, e') => k x e'
    | Threw => Threw
    | OutOfFuel => OutOfFuel
    end.

(** A call that leaves this file: it returns (or resolves) or throws (or
    rejects). *)
Definition call {A} (f : E -> Outcome (A * E)) : P A :=
  fun e =>
    match f e with
    | Returned r => Done r
    | Thrown => Threw
    end.

(** The calls into DOMUtils, the environment, the DOM and JSON. *)
Record Ops := {
  parseHTML : jstr -> E -> Outcome (HDoc * E);
  getDpScriptText : HDoc -> E -> Outcome (option jstr * E);
  removeDpScript : HDoc -> E -> Outcome (unit * E);
  JSON_parse : jstr -> E -> Outcome (DPV * E);
  dp_truthy : DPV -> bool;
  pageDomOwnerDocument : E -> Outcome (HDoc * E);
  applyDataParsoid : HDoc -> DPV -> E -> Outcome (unit * E);
  serializeDOM : HDoc -> jsval -> E -> Outcome (jstr * E);
  setPageSrcInfo : jstr -> E -> Outcome (unit * E);
  page_src : E -> Outcome (jstr * E);
  pipelineParse : jstr -> E -> Outcome (HDoc * E);
  env_log : jstr -> E -> Outcome (unit * E);
  normalizeOut : HDoc -> bool -> E -> Outcome (jstr * E);
  serializeNode_str : HDoc -> E -> Outcome (jstr * E)
}.

Variable ops : Ops.

(** A data-parsoid value that may be undefined, used as a condition. *)
Definition dp_given (dp : option DPV) : bool :=
  match dp with
  | Some d => dp_truthy ops d
  | None => false
  end.

(** [dpFromHead] (lines 140-148): the data-parsoid blob of the script
    element with the id [mw-data-parsoid], which is taken out of the
    document; undefined without such an element. *)
Definition dpFromHead (doc : HDoc) : P (option DPV) :=
  pbind (call (getDpScriptText ops doc)) (fun text =>
  match text with
  | Some t =>
      pbind (call (removeDpScript ops doc)) (fun _ =>
      pbind (call (JSON_parse ops t)) (fun dp =>
      pret (Some dp)))
  | None => pret None
  end).

(** [DU.applyDataParsoid(doc, dp)] under [if (dp)]. *)
Definition apply_if_given (doc : P HDoc) (dp : option DPV) : P unit :=
  match dp with
  | Some d =>
      if dp_truthy ops d
      then pbind doc (fun target => call (applyDataParsoid ops target d))
      else pret tt
  | None => pret tt
  end.

(** [argv.normalize === 'parsoid'] *)
Definition is_parsoid (v : jsval) : bool :=
  match v with
  | JStr s => jstr_eqb s (js "parsoid")
  | _ => false
  end.

(** The two stages call each other; [fuel] bounds the number of stages. *)
Fixpoint startsAtHTML (fuel : nat) (argv : Argv) (input : jstr)
    (dp : option DPV) {struct fuel} : P (Result HDoc) :=
  match fuel with
  | O => fun _ => OutOfFuel
  | S fuel' =>
      pbind (call (parseHTML ops input)) (fun doc =>
      pbind (if dp_given dp then pret dp else dpFromHead doc) (fun dp =>
      pbind
        (if truthy (selser argv) then
           pbind (if dp_given dp then pret dp
                  else pbind (call (pageDomOwnerDocument ops)) dpFromHead)
             (fun dp =>
           pbind (apply_if_given (call (pageDomOwnerDocument ops)) dp) (fun _ =>
           pret dp))
         else pret dp) (fun dp =>
      pbind (apply_if_given (pret doc) dp) (fun _ =>
      pbind (call (serializeDOM ops doc (selser argv))) (fun res =>
      if truthy (html2wt argv) || truthy (wt2wt argv)
      then pret {| trailingNL := true; out := OutString res |}
      else startsAtWikitext fuel' argv res)))))
  end

with startsAtWikitext (fuel : nat) (argv : Argv) (input : jstr)
    {struct fuel} : P (Result HDoc) :=
  match fuel with
  | O => fun _ => OutOfFuel
  | S fuel' =>
      pbind (call (setPageSrcInfo ops input)) (fun _ =>
      pbind (call (page_src ops)) (fun src =>
      pbind (call (pipelineParse ops src)) (fun doc =>
      pbind (if truthy (lint argv) then call (env_log ops (js "end/parse"))
             else pret tt) (fun _ =>
      if truthy (wt2html argv) || truthy (html2html argv) then
        pbind
          (if truthy (normalize argv) then
             pbind (call (normalizeOut ops doc (is_parsoid (normalize argv))))
               (fun s => pret (OutString s))
           else if truthy (document argv) then pret (OutDoc doc)
           else pbind (call (serializeNode_str ops doc))
                  (fun s => pret (OutString s)))
          (fun o => pret {| trailingNL := true; out := o |})
      else
        pbind (call (serializeNode_str ops doc)) (fun html =>
        startsAtHTML fuel' argv html None)))))
  end.

End Pipeline.

(** *** A run of the pipeline on strings

    The environment is the page source and the list of the conversions
    made; a document is the text it was made from. *)
Definition echo_ops : Ops (jstr * list jstr) jstr unit :=
  {| parseHTML := fun s e => Returned (s, e);
     getDpScriptText := fun _ e => Returned (None, e);
     removeDpScript := fun _ e => Returned (tt, e);
     JSON_parse := fun _ e => Returned (tt, e);
     dp_truthy := fun _ => true;
     pageDomOwnerDocument := fun e => Thrown;
     applyDataParsoid := fun _ _ e => Returned (tt, e);
     serializeDOM := fun d _ e =>
       Returned (d, (fst e, snd e ++ [js "serializeDOM"]));
     setPageSrcInfo := fun s e => Returned (tt, (s, snd e));
     page_src := fun e => Returned (fst e, e);
     pipelineParse := fun s e => Returned (s, (fst e, snd e ++ [js "parse"]));
     env_log := fun _ e => Returned (tt, e);
     normalizeOut := fun d _ e => Returned (d, e);
     serializeNode_str := fun d e => Returned (d, e) |}.

Definition no_options : Argv :=
  {| wt2html := JBool false; html2wt := JBool false; wt2wt := JBool false;
     html2html := JBool false; selser := JBool false; normalize := JBool false;
     document := JUndefined; lint := JBool false; offline := JBool false;
     prefix := JNull; domain := JNull; apiURL := JUndefined;
     fetchConfig := JUndefined; fetchTemplates := JUndefined;
     fetchImageInfo := JUndefined; usephppreprocessor := JUndefined |}.

End ParseCLI.

(** ** The small page again: a separator, and text inside a pre *)

Module PageMore.
Import WTS.

(** The externals of the page, with every text node taken for a
    separator. *)
Definition X_sep : Externals nat unit (jstr * nat) unit :=
  {| SS_emitChunk := SS_emitChunk Page.X;
     getOrigSrc := getOrigSrc Page.X;
     setSep := setSep Page.X;
     updateSep := updateSep Page.X;
     updateModificationFlags := updateModificationFlags Page.X;
     singleLineContext_disable := singleLineContext_disable Page.X;
     singleLineContext_pop := singleLineContext_pop Page.X;
     handleSeparatorText := fun _ st => (true, st);
     updateSeparatorConstraints := updateSeparatorConstraints Page.X;
     fromSelSer := fromSelSer Page.X;
     ct_node := ct_node Page.X;
     escapeTplArgWT := escapeTplArgWT Page.X;
     serializeHTML := serializeHTML Page.X;
     editedDoc := editedDoc Page.X;
     tagHandlers := tagHandlers Page.X;
     htmlElementHandler := htmlElementHandler Page.X;
     _getEncapsulatedContentHandler := _getEncapsulatedContentHandler Page.X |}.

(** The page with a link in every node whose href, a reference id with a
    colon, is no valid selector: looking it up throws. *)
Definition dom_invalid_href : DOMApi nat unit :=
  {| WTS.nodeType := WTS.nodeType Page.dom;
     WTS.nodeName := WTS.nodeName Page.dom;
     nodeValue := nodeValue Page.dom;
     getAttribute := fun _ name =>
       if jstr_eqb name (js "href") then Some (js "#cite_note-:0-1") else None;
     outerHTML := outerHTML Page.dom;
     innerHTML := innerHTML Page.dom;
     parentNode := parentNode Page.dom;
     nextSibling := nextSibling Page.dom;
     previousSibling := previousSibling Page.dom;
     firstChild := firstChild Page.dom;
     childNodes := childNodes Page.dom;
     ownerDocument := ownerDocument Page.dom;
     getElementById := getElementById Page.dom;
     querySelector := fun _ _ => Some 5%nat;
     docQuerySelector := fun _ _ => Thrown |}.

(** The start of a serialization inside an HTML pre. *)
Definition in_pre : World nat (jstr * nat) unit :=
  {| state := set_inHTMLPre true (Page.start_state false); events := [] |}.

(** A buffer of two lines, in selser mode. *)
Definition buffer (text : jstr) : SerializerState nat unit :=
  set_out text (Page.start_state true).

End PageMore.

(** * Facts and theorems *)

(** ** Facts about the string primitives *)

Module JSFacts.
Local Open Scope N_scope.

Lemma jstr_eqb_eq (a b : jstr) : jstr_eqb a b = true <-> a = b.
Proof.
  unfold jstr_eqb. destruct (list_eq_dec N.eq_dec a b); split; congruence.
Qed.

Lemma jstr_eqb_refl (a : jstr) : jstr_eqb a a = true.
Proof. apply jstr_eqb_eq. reflexivity. Qed.

Lemma strip_prefix_sound lit : forall s r,
  strip_prefix lit s = Some r -> s = lit ++ r.
Proof.
  induction lit as [|a lit IH]; intros s r H; simpl in H.
  - destruct s; inversion H; reflexivity.
  - destruct s as [|b s]; [discriminate|].
    destruct (N.eqb_spec a b); [|discriminate].
    subst. simpl. f_equal. apply IH. exact H.
Qed.

Lemma strip_prefix_complete lit : forall r, strip_prefix lit (lit ++ r) = Some r.
Proof.
  induction lit as [|a lit IH]; intros r; simpl.
  - destruct r; reflexivity.
  - rewrite N.eqb_refl. apply IH.
Qed.

Lemma strip_prefix_app lit s r u :
  strip_prefix lit s = Some r -> strip_prefix lit (s ++ u) = Some (r ++ u).
Proof.
  intros H. apply strip_prefix_sound in H. subst s.
  rewrite <- app_assoc. apply strip_prefix_complete.
Qed.

Lemma skip_spaces_app_stop a c t u :
  skip_spaces a = c :: t -> skip_spaces (a ++ u) = (c :: t) ++ u.
Proof.
  induction a as [|x a IH]; simpl; [discriminate|].
  destruct (is_space x); [exact IH|].
  intros H. inversion H. reflexivity.
Qed.

Lemma skip_spaces_app_through a u :
  skip_spaces a = [] -> skip_spaces (a ++ u) = skip_spaces u.
Proof.
  induction a as [|x a IH]; simpl; [reflexivity|].
  destruct (is_space x); [exact IH|discriminate].
Qed.

Lemma skip_spaces_suffix s : exists a, s = a ++ skip_spaces s.
Proof.
  induction s as [|c s [a IH]]; simpl.
  - exists []. reflexivity.
  - destruct (is_space c).
    + exists (c :: a). simpl. f_equal. exact IH.
    + exists []. reflexivity.
Qed.

Lemma skip_spaces_length s : (List.length (skip_spaces s) <= List.length s)%nat.
Proof.
  induction s as [|c s IH]; simpl; [lia|].
  destruct (is_space c); simpl; lia.
Qed.

Lemma span_app p s : fst (span p s) ++ snd (span p s) = s.
Proof.
  induction s as [|c s IH]; simpl; [reflexivity|].
  destruct (p c); [|reflexivity].
  destruct (span p s) as [a b]. simpl in *. f_equal. exact IH.
Qed.

(** *** Lines *)

Lemma split_nl_nonempty s : split_nl s <> [].
Proof.
  destruct s as [|c s]; simpl; [discriminate|].
  destruct (c =? ch_nl); [discriminate|].
  destruct (split_nl s); discriminate.
Qed.

Lemma split_nl_no_nl s : Forall no_nl (split_nl s).
Proof.
  induction s as [|c s IH]; simpl.
  - repeat constructor.
  - destruct (N.eqb_spec c ch_nl).
    + constructor; [constructor|exact IH].
    + destruct (split_nl s) as [|l ls].
      * repeat constructor. exact n.
      * inversion IH; subst. constructor; [constructor; assumption|assumption].
Qed.

Lemma join_split_nl s : join_nl (split_nl s) = s.
Proof.
  induction s as [|c s IH]; simpl; [reflexivity|].
  destruct (N.eqb_spec c ch_nl).
  - subst c. pose proof (split_nl_nonempty s) as Hne.
    destruct (split_nl s) as [|l ls]; [congruence|].
    simpl in *. f_equal. exact IH.
  - pose proof (split_nl_nonempty s) as Hne.
    destruct (split_nl s) as [|l ls]; [congruence|].
    destruct ls; simpl in *; subst; reflexivity.
Qed.

Lemma split_nl_line l : no_nl l -> split_nl l = [l].
Proof.
  induction 1 as [|c l Hc Hl IH]; simpl; [reflexivity|].
  destruct (N.eqb_spec c ch_nl); [contradiction|].
  rewrite IH. reflexivity.
Qed.

Lemma split_nl_cons_line l s :
  no_nl l -> split_nl (l ++ ch_nl :: s) = l :: split_nl s.
Proof.
  induction 1 as [|c l Hc Hl IH]; simpl.
  - reflexivity.
  - destruct (N.eqb_spec c ch_nl); [contradiction|].
    rewrite IH. reflexivity.
Qed.

Lemma split_join_nl ls :
  ls <> [] -> Forall no_nl ls -> split_nl (join_nl ls) = ls.
Proof.
  induction ls as [|l ls IH]; intros Hne Hall; [congruence|].
  inversion Hall as [|? ? Hl Hls]; subst.
  destruct ls as [|l' ls].
  - simpl. apply split_nl_line. exact Hl.
  - change (join_nl (l :: l' :: ls)) with (l ++ ch_nl :: join_nl (l' :: ls)).
    rewrite split_nl_cons_line by exact Hl.
    f_equal. apply IH; [discriminate|exact Hls].
Qed.

End JSFacts.
Import JSFacts.

(** ** The trailing-nowiki pass *)

Module TrailingNowikiFacts.
Import TrailingNowiki.
Local Open Scope N_scope.

Lemma nowiki_unit_shorter s r :
  nowiki_unit s = Some r -> (List.length r < List.length s)%nat.
Proof.
  unfold nowiki_unit. intros H.
  destruct (strip_prefix (js "<nowiki") s) as [r1|] eqn:E1; [|discriminate].
  destruct (strip_prefix (js "/>") (skip_spaces r1)) as [r2|] eqn:E2; [|discriminate].
  inversion H; subst. apply strip_prefix_sound in E1, E2.
  pose proof (skip_spaces_length r2). pose proof (skip_spaces_length r1).
  subst s. rewrite E2 in H1. rewrite length_app in *. simpl in *. lia.
Qed.

Lemma nowiki_unit_head s r :
  nowiki_unit s = Some r -> exists t, s = ch_lt :: t.
Proof.
  unfold nowiki_unit. intros H.
  destruct (strip_prefix (js "<nowiki") s) as [r1|] eqn:E1; [|discriminate].
  apply strip_prefix_sound in E1. subst s. eexists. reflexivity.
Qed.

Lemma nowiki_unit_app s r u :
  nowiki_unit s = Some r ->
  nowiki_unit (s ++ u) =
    Some (match r with [] => skip_spaces u | _ => r ++ u end).
Proof.
  unfold nowiki_unit. intros H.
  destruct (strip_prefix (js "<nowiki") s) as [r1|] eqn:E1; [|discriminate].
  destruct (strip_prefix (js "/>") (skip_spaces r1)) as [r2|] eqn:E2; [|discriminate].
  inversion H; subst; clear H.
  rewrite strip_prefix_app with (r := r1) by exact E1.
  destruct (skip_spaces r1) as [|c t] eqn:E3; [discriminate|].
  rewrite skip_spaces_app_stop with (c := c) (t := t) by exact E3.
  rewrite strip_prefix_app with (r := r2) by exact E2.
  destruct (skip_spaces r2) as [|c' t'] eqn:E4.
  - rewrite skip_spaces_app_through by exact E4. reflexivity.
  - rewrite skip_spaces_app_stop with (c := c') (t := t') by exact E4. reflexivity.
Qed.

Lemma nowiki_units_mono f : forall g s,
  (f <= g)%nat -> nowiki_units f s = true -> nowiki_units g s = true.
Proof.
  induction f as [|f IH]; intros g s Hle H; simpl in H; [discriminate|].
  destruct g as [|g]; [lia|]. simpl.
  destruct (nowiki_unit s) as [[|c r]|]; try assumption.
  apply IH; [lia|exact H].
Qed.

(** The fuel [length s] is enough: whatever amount of fuel accepts [s],
    [length s] accepts it too. *)
Lemma nowiki_units_enough f : forall s,
  nowiki_units f s = true -> nowikis_to_end s = true.
Proof.
  unfold nowikis_to_end.
  induction f as [|f IH]; intros s H; simpl in H; [discriminate|].
  destruct (nowiki_unit s) as [r|] eqn:E; [|discriminate].
  pose proof (@nowiki_unit_shorter _ _ E) as Hlt.
  destruct (List.length s) as [|n] eqn:En; [lia|]. simpl. rewrite E.
  destruct r as [|c r]; [reflexivity|].
  apply nowiki_units_mono with (f := List.length (c :: r)); [lia|].
  apply IH. exact H.
Qed.

Lemma nowiki_units_head f s :
  nowiki_units f s = true -> exists t, s = ch_lt :: t.
Proof.
  destruct f; simpl; [discriminate|].
  destruct (nowiki_unit s) eqn:E; [|discriminate].
  intros _. eapply nowiki_unit_head. exact E.
Qed.

Lemma nowiki_units_app f : forall s u g,
  nowiki_units f s = true -> nowiki_units g u = true ->
  nowiki_units (f + g) (s ++ u) = true.
Proof.
  induction f as [|f IH]; intros s u g Hs Hu; simpl in Hs; [discriminate|].
  destruct (nowiki_unit s) as [r|] eqn:E; [|discriminate].
  simpl. rewrite nowiki_unit_app with (r := r) by exact E.
  destruct r as [|c r].
  - destruct (@nowiki_units_head _ _ Hu) as [t ->].
    simpl. apply nowiki_units_mono with (f := g); [lia|exact Hu].
  - simpl. apply (IH (c :: r) u g Hs Hu).
Qed.

Lemma nowikis_to_end_app s u :
  nowikis_to_end s = true -> nowikis_to_end u = true ->
  nowikis_to_end (s ++ u) = true.
Proof.
  unfold nowikis_to_end. intros Hs Hu.
  rewrite length_app. apply nowiki_units_app; assumption.
Qed.

Lemma nowikis_to_end_nil : nowikis_to_end [] = false.
Proof. reflexivity. Qed.

Lemma lazy_prefix_sound s : forall p,
  lazy_prefix s = Some p ->
  exists u, s = p ++ u /\ nowikis_to_end u = true.
Proof.
  induction s as [|c s IH]; intros p H.
  - simpl in H. discriminate.
  - simpl in H. destruct (nowikis_to_end (c :: s)) eqn:E.
    + inversion H; subst. exists (c :: s). split; [reflexivity|exact E].
    + destruct (c =? ch_eq); [discriminate|].
      destruct (lazy_prefix s) as [p'|] eqn:E'; [|discriminate].
      inversion H; subst. destruct (IH p' eq_refl) as [u [-> Hu]].
      exists u. split; [reflexivity|exact Hu].
Qed.

(** The captured group matches no further: it is the shortest prefix that
    leaves a run of nowikis, so it does not end with such a run itself. *)
Lemma lazy_prefix_stable s : forall p,
  lazy_prefix s = Some p -> lazy_prefix p = None.
Proof.
  induction s as [|c s IH]; intros p H.
  - simpl in H. discriminate.
  - simpl in H. destruct (nowikis_to_end (c :: s)) eqn:E.
    + inversion H; subst. reflexivity.
    + destruct (N.eqb_spec c ch_eq) as [|Hc]; [discriminate|].
      destruct (lazy_prefix s) as [p'|] eqn:E'; [|discriminate].
      inversion H; subst. simpl.
      destruct (nowikis_to_end (c :: p')) eqn:E2.
      * destruct (@lazy_prefix_sound _ _ E') as [u [-> Hu]].
        pose proof (@nowikis_to_end_app _ _ E2 Hu) as Habs.
        simpl in Habs. congruence.
      * destruct (N.eqb_spec c ch_eq); [contradiction|].
        rewrite (IH p' eq_refl). reflexivity.
Qed.

Lemma strip_piece_idempotent s : strip_piece (strip_piece s) = strip_piece s.
Proof.
  unfold strip_piece at 2 3. destruct (lazy_prefix s) as [p|] eqn:E.
  - unfold strip_piece. rewrite (@lazy_prefix_stable _ _ E). reflexivity.
  - unfold strip_piece. rewrite E. reflexivity.
Qed.

Lemma strip_piece_prefix s : exists u, s = strip_piece s ++ u.
Proof.
  unfold strip_piece. destruct (lazy_prefix s) as [p|] eqn:E.
  - destruct (@lazy_prefix_sound _ _ E) as [u [-> _]]. exists u. reflexivity.
  - exists []. rewrite app_nil_r. reflexivity.
Qed.

Lemma strip_piece_no_nl s : no_nl s -> no_nl (strip_piece s).
Proof.
  intros H. destruct (strip_piece_prefix s) as [u Hu].
  rewrite Hu in H. apply Forall_app in H. tauto.
Qed.

End TrailingNowikiFacts.

Module QuoteNowikiFacts.
Import QuoteNowiki.
Local Open Scope N_scope.

Lemma starts_with_sound lit s :
  starts_with lit s = true -> exists r, s = lit ++ r.
Proof.
  unfold starts_with. destruct (strip_prefix lit s) as [r|] eqn:E; [|discriminate].
  intros _. exists r. apply strip_prefix_sound. exact E.
Qed.

Lemma orelse_prefix s a b :
  is_prefix_of s a -> is_prefix_of s b -> is_prefix_of s (orelse a b).
Proof.
  unfold is_prefix_of, orelse. intros Ha Hb tok.
  destruct a; [apply Ha|apply Hb].
Qed.

Lemma match_lit_prefix lit s : lit <> [] -> is_prefix_of s (match_lit lit s).
Proof.
  unfold is_prefix_of, match_lit. intros Hne tok.
  destruct (starts_with lit s) eqn:E; [|discriminate].
  intros H. inversion H; subst. split; [exact Hne|].
  apply starts_with_sound. exact E.
Qed.

Lemma upto_gt_prefix s : forall t,
  upto_gt s = Some t -> exists r, s = t ++ r.
Proof.
  induction s as [|c s IH]; intros t H; simpl in H; [discriminate|].
  destruct (c =? ch_gt).
  - inversion H; subst. exists s. reflexivity.
  - destruct (upto_gt s) as [t'|]; [|discriminate].
    inversion H; subst. destruct (IH t' eq_refl) as [r ->].
    exists r. reflexivity.
Qed.

Lemma match_open_tag_prefix s : is_prefix_of s (match_open_tag s).
Proof.
  unfold is_prefix_of, match_open_tag. intros tok H.
  destruct s as [|c s1]; [discriminate|].
  destruct (N.eqb_spec c ch_lt) as [->|]; [|discriminate].
  pose proof (span_app is_word s1) as Hsp.
  destruct (span is_word s1) as [w s2]. simpl in Hsp. subst s1.
  destruct w as [|w0 w]; [discriminate|].
  destruct s2 as [|d s3]; [discriminate|].
  destruct (is_space d).
  - destruct (upto_gt (d :: s3)) as [t|] eqn:E; [|discriminate].
    inversion H; subst. split; [discriminate|].
    destruct (upto_gt_prefix _ E) as [r ->].
    exists r. simpl. rewrite <- !app_assoc. reflexivity.
  - destruct (N.eqb_spec d ch_gt) as [->|].
    + inversion H; subst. split; [discriminate|].
      exists s3. simpl. rewrite <- app_assoc. reflexivity.
    + destruct (N.eqb_spec d ch_slash) as [->|]; [|discriminate].
      simpl in H. destruct (starts_with [ch_gt] s3) eqn:E; [|discriminate].
      inversion H; subst. split; [discriminate|].
      destruct (starts_with_sound _ _ E) as [r ->].
      exists r. simpl. rewrite <- app_assoc. reflexivity.
Qed.

Lemma match_close_tag_prefix s : is_prefix_of s (match_close_tag s).
Proof.
  unfold is_prefix_of, match_close_tag. intros tok H.
  destruct (strip_prefix (js "</") s) as [s1|] eqn:E1; [|discriminate].
  apply strip_prefix_sound in E1. subst s.
  pose proof (span_app is_word s1) as Hsp.
  destruct (span is_word s1) as [w s2]. simpl in Hsp. subst s1.
  destruct w as [|w0 w]; [discriminate|].
  pose proof (span_app is_space s2) as Hsp.
  destruct (span is_space s2) as [sp s3]. simpl in Hsp. subst s2.
  destruct s3 as [|c s4]; [discriminate|].
  destruct (N.eqb_spec c ch_gt) as [->|]; [|discriminate].
  inversion H; subst. split; [discriminate|].
  exists s4. simpl. rewrite <- !app_assoc. reflexivity.
Qed.

Lemma match_sep_prefix s : is_prefix_of s (match_sep s).
Proof.
  unfold match_sep.
  repeat (apply orelse_prefix; [apply match_lit_prefix; discriminate|]).
  apply orelse_prefix; [apply match_open_tag_prefix|apply match_close_tag_prefix].
Qed.

(** Splitting loses nothing: the pieces put together again give the line. *)
Lemma concat_split_go s : forall skip cur,
  concat (split_go s skip cur) = rev cur ++ skipn skip s.
Proof.
  induction s as [|c s IH]; intros skip cur.
  - simpl. rewrite skipn_nil, app_nil_r. reflexivity.
  - destruct skip as [|k].
    + change (split_go (c :: s) 0 cur) with
        (match match_sep (c :: s) with
         | Some tok => rev cur :: tok :: split_go s (List.length tok - 1) []
         | None => split_go s 0 (c :: cur)
         end).
      destruct (match_sep (c :: s)) as [tok|] eqn:E.
      * destruct (@match_sep_prefix (c :: s) tok E) as [Hne [r Hr]].
        simpl. rewrite IH. simpl. f_equal.
        destruct tok as [|t0 tok]; [congruence|].
        simpl in Hr. inversion Hr; subst.
        simpl. rewrite Nat.sub_0_r.
        rewrite skipn_app, skipn_all, Nat.sub_diag. reflexivity.
      * rewrite IH. simpl. rewrite <- app_assoc. reflexivity.
    + simpl. apply IH.
Qed.

Lemma concat_split_line line : concat (split_line line) = line.
Proof. unfold split_line. rewrite concat_split_go. reflexivity. Qed.

(** *** Blanking one piece *)

Lemma concat_blank_at p : forall j,
  concat (blank_at j p) = concat (firstn j p) ++ concat (skipn (S j) p).
Proof.
  induction p as [|x p IH]; intros j.
  - destruct j; reflexivity.
  - destruct j as [|j]; simpl.
    + reflexivity.
    + rewrite IH. rewrite <- app_assoc. reflexivity.
Qed.

Lemma concat_at (p : list jstr) : forall j tok,
  nth_error p j = Some tok ->
  concat p = concat (firstn j p) ++ tok ++ concat (skipn (S j) p).
Proof.
  induction p as [|x p IH]; intros j tok H.
  - destruct j; discriminate.
  - destruct j as [|j]; simpl in *.
    + inversion H; subst. reflexivity.
    + rewrite (IH j tok H). rewrite <- app_assoc. reflexivity.
Qed.

(** *** The loop *)

Lemma odd_indices_S m :
  odd_indices (S m) = odd_indices m ++ (if Nat.odd m then [m] else []).
Proof.
  unfold odd_indices. rewrite seq_S, filter_app. simpl.
  destruct (Nat.odd m); reflexivity.
Qed.

Lemma scan_from_app p a : forall b st,
  scan_from p (a ++ b) st =
  match scan_from p a st with
  | Some st1 => scan_from p b st1
  | None => None
  end.
Proof.
  induction a as [|j a IH]; intros b st; simpl; [reflexivity|].
  destruct (scan_step p j (as_string (nth_error p j)) st); [reflexivity|apply IH].
Qed.

Lemma jstr_eqb_neq a b : a <> b -> jstr_eqb a b = false.
Proof.
  intros H. destruct (jstr_eqb a b) eqn:E; [|reflexivity].
  apply jstr_eqb_eq in E. contradiction.
Qed.

(** A round changes [nowikiIndex] exactly when it meets a strippable
    nowiki. *)
Lemma scan_step_nowikiIndex p j tok st st' :
  scan_step p j tok st = Continue st' ->
  nowikiIndex st' =
    if visits_nowiki tok st && strippable p j st then Some j
    else nowikiIndex st.
Proof.
  unfold scan_step, visits_nowiki.
  destruct (jstr_eqb (tag_of tok) (js "ref")) eqn:E1.
  { apply jstr_eqb_eq in E1. rewrite E1. intros H; inversion H; reflexivity. }
  destruct (ref st) eqn:Eref.
  { rewrite andb_false_r. simpl.
    destruct (jstr_eqb (tag_of tok) (js "/ref")); intros H; inversion H; reflexivity. }
  destruct (jstr_eqb (tag_of tok) (js "nowiki")) eqn:E2.
  { apply jstr_eqb_eq in E2. rewrite E2. intros H; inversion H; reflexivity. }
  destruct (nowiki st) eqn:Enw.
  { rewrite andb_false_r. simpl.
    destruct (jstr_eqb (tag_of tok) (js "/nowiki")); intros H; inversion H; reflexivity. }
  destruct (jstr_eqb (tag_of tok) (js "]]")) eqn:E3.
  { apply jstr_eqb_eq in E3. rewrite E3. simpl.
    destruct (pop (stack st)) as [top rest].
    destruct (strict_eq top (js "[[")); intros H; inversion H; reflexivity. }
  destruct (jstr_eqb (tag_of tok) (js "}}")) eqn:E4.
  { apply jstr_eqb_eq in E4. rewrite E4. simpl.
    destruct (pop (stack st)) as [top rest].
    destruct (strict_eq top (js "{{")); intros H; inversion H; reflexivity. }
  destruct (starts_with_ch ch_slash (tag_of tok)) eqn:E5.
  { assert (jstr_eqb (tag_of tok) (js "nowiki/") = false) as ->.
    { apply jstr_eqb_neq. intros Heq. rewrite Heq in E5. discriminate. }
    simpl. destruct (pop (stack st)) as [top rest].
    destruct (jstr_eqb (tag_of tok) (closing_of top)); intros H; inversion H; reflexivity. }
  destruct (jstr_eqb (tag_of tok) (js "nowiki/")) eqn:E6.
  { simpl. destruct (strippable p j st); intros H; inversion H; reflexivity. }
  simpl.
  destruct (selfClose tok || jstr_eqb (tag_of tok) (js "br")).
  { intros H; inversion H; reflexivity. }
  destruct (starts_with_ch ch_quote (tag_of tok) && strict_eq (lastItem (stack st)) (tag_of tok));
    intros H; inversion H; reflexivity.
Qed.

(** After the rounds below [m], [nowikiIndex] is the last index below [m]
    at which a strippable nowiki was met. *)
Lemma scan_nowikiIndex_last p m : forall st,
  scan_from p (odd_indices m) init_state = Some st ->
  match nowikiIndex st with
  | None => forall j, (j < m)%nat -> found_at p j = false
  | Some j =>
      (j < m)%nat /\ found_at p j = true /\
      forall j', (j < j' < m)%nat -> found_at p j' = false
  end.
Proof.
  induction m as [|m IH]; intros st H.
  - simpl in H. inversion H; subst. simpl. intros j Hj. lia.
  - rewrite odd_indices_S, scan_from_app in H.
    destruct (scan_from p (odd_indices m) init_state) as [stm|] eqn:Em; [|discriminate].
    specialize (IH stm eq_refl).
    destruct (Nat.odd m) eqn:Eodd.
    + simpl in H.
      destruct (scan_step p m (as_string (nth_error p m)) stm) as [|st1] eqn:Es;
        [discriminate|].
      inversion H; subst st1; clear H.
      rewrite (scan_step_nowikiIndex _ _ _ _ Es).
      assert (found_at p m =
              visits_nowiki (as_string (nth_error p m)) stm && strippable p m stm) as Hf.
      { unfold found_at, state_before. rewrite Eodd, Em. reflexivity. }
      destruct (visits_nowiki (as_string (nth_error p m)) stm && strippable p m stm).
      * split; [lia|]. split; [exact Hf|]. intros j' Hj'. lia.
      * destruct (nowikiIndex stm) as [j|].
        -- destruct IH as [Hlt [Hj Hlater]]. split; [lia|]. split; [exact Hj|].
           intros j' Hj'. destruct (Nat.eq_dec j' m) as [->|]; [exact Hf|].
           apply Hlater. lia.
        -- intros j Hj. destruct (Nat.eq_dec j m) as [->|]; [exact Hf|].
           apply IH. lia.
    + simpl in H. inversion H; subst stm; clear H.
      assert (found_at p m = false) as Hf.
      { unfold found_at. rewrite Eodd. reflexivity. }
      destruct (nowikiIndex st) as [j|].
      * destruct IH as [Hlt [Hj Hlater]]. split; [lia|]. split; [exact Hj|].
        intros j' Hj'. destruct (Nat.eq_dec j' m) as [->|]; [exact Hf|].
        apply Hlater. lia.
      * intros j Hj. destruct (Nat.eq_dec j m) as [->|]; [exact Hf|].
        apply IH. lia.
Qed.

Lemma strippable_at_found p j :
  strippable_at p j = (j <? List.length p)%nat && found_at p j.
Proof.
  unfold strippable_at, found_at.
  destruct (Nat.odd j), (j <? List.length p)%nat; reflexivity.
Qed.

Lemma found_at_tag p j :
  found_at p j = true ->
  tag_of (as_string (nth_error p j)) = js "nowiki/".
Proof.
  unfold found_at, visits_nowiki. intros H.
  apply andb_true_iff in H. destruct H as [_ H].
  destruct (state_before p j); [|discriminate].
  apply andb_true_iff in H. destruct H as [H _].
  apply andb_true_iff in H. destruct H as [H _].
  apply andb_true_iff in H. destruct H as [H _].
  apply jstr_eqb_eq. exact H.
Qed.

End QuoteNowikiFacts.

Module PostPassTheorems.
Import TrailingNowiki TrailingNowikiFacts QuoteNowiki QuoteNowikiFacts.
Local Open Scope N_scope.

(** The last index at which the loop finds a strippable nowiki is the one
    it has recorded when it ends. *)
Lemma last_strippable_recorded (p : list jstr) (st : scan_state) (j : nat) :
  scan p = Some st ->
  strippable_at p j = true ->
  (forall j', (j < j')%nat -> strippable_at p j' = false) ->
  nowikiIndex st = Some j.
Proof.
  unfold scan. intros Hscan Hj Hlast.
  pose proof (scan_nowikiIndex_last p (List.length p) Hscan) as H.
  rewrite strippable_at_found in Hj. apply andb_true_iff in Hj.
  destruct Hj as [Hlt Hfound]. apply Nat.ltb_lt in Hlt.
  destruct (nowikiIndex st) as [j0|].
  - destruct H as [Hlt0 [Hfound0 Hlater0]].
    destruct (Nat.lt_trichotomy j j0) as [Hc|[Hc|Hc]].
    + specialize (Hlast j0 Hc). rewrite strippable_at_found, Hfound0 in Hlast.
      apply Nat.ltb_lt in Hlt0. rewrite Hlt0 in Hlast. discriminate.
    + subst. reflexivity.
    + rewrite (Hlater0 j) in Hfound by lia. discriminate.
  - rewrite (H j Hlt) in Hfound. discriminate.
Qed.

(** C7.  For every line handed to the quote-nowiki pass: when pairing
    fails (a round returns early, or the stack is not empty at the end) the
    line comes back unchanged; otherwise the line comes back unchanged or
    with exactly one separator removed, which is a self-closing nowiki, was
    found strippable by the loop, and is the last such one.  And when
    pairing succeeds on a line that holds a self-closing nowiki and a
    quote, the last strippable nowiki is removed. *)
Theorem quote_nowiki_line_unchanged_or_last_stripped (line : jstr) :
  (pairing_ok line = false -> strip_line line = line) /\
  (pairing_ok line = true ->
     strip_line line = line \/
     exists j tok,
       nth_error (split_line line) j = Some tok /\
       tag_of tok = js "nowiki/" /\
       strippable_at (split_line line) j = true /\
       (forall j', (j < j')%nat -> strippable_at (split_line line) j' = false) /\
       line = concat (firstn j (split_line line)) ++ tok
              ++ concat (skipn (S j) (split_line line)) /\
       strip_line line = concat (firstn j (split_line line))
                         ++ concat (skipn (S j) (split_line line))) /\
  (pairing_ok line = true ->
   has_selfclosing_nowiki line && has_quote line = true ->
   forall j,
     strippable_at (split_line line) j = true ->
     (forall j', (j < j')%nat -> strippable_at (split_line line) j' = false) ->
     strip_line line = concat (firstn j (split_line line))
                       ++ concat (skipn (S j) (split_line line))).
Proof.
  unfold pairing_ok, strip_line.
  set (p := split_line line).
  destruct (scan p) as [st|] eqn:Escan.
  2:{ destruct (negb (has_selfclosing_nowiki line && has_quote line));
      repeat split; try reflexivity; discriminate. }
  destruct (stack st) as [|top stk].
  2:{ destruct (negb (has_selfclosing_nowiki line && has_quote line));
      repeat split; try reflexivity; discriminate. }
  split; [discriminate|]. split.
  - intros _.
    destruct (negb (has_selfclosing_nowiki line && has_quote line));
      [left; reflexivity|].
    pose proof (scan_nowikiIndex_last p (List.length p) Escan) as Hlast.
    destruct (nowikiIndex st) as [j|]; [|left; reflexivity].
    right. destruct Hlast as [Hlt [Hfound Hlater]].
    destruct (nth_error p j) as [tok|] eqn:Etok.
    2:{ apply nth_error_None in Etok. lia. }
    exists j, tok.
    split; [exact Etok|].
    split.
    { pose proof (found_at_tag _ _ Hfound) as Htag. rewrite Etok in Htag. exact Htag. }
    split.
    { rewrite strippable_at_found, Hfound.
      apply Nat.ltb_lt in Hlt. rewrite Hlt. reflexivity. }
    split.
    { intros j' Hj'. rewrite strippable_at_found.
      destruct (Nat.ltb_spec j' (List.length p)) as [Hin|Hout]; [|reflexivity].
      simpl. apply Hlater. lia. }
    split.
    { rewrite <- (concat_split_line line) at 1. fold p. apply concat_at. exact Etok. }
    apply concat_blank_at.
  - intros _ Hpre j Hj Hlast. rewrite Hpre. simpl.
    rewrite (@last_strippable_recorded p st j Escan Hj Hlast).
    apply concat_blank_at.
Qed.

(** The example of the specification: the nowiki before the closing quotes
    goes, the one after the opening quotes stays. *)
Example quote_nowiki_spec_line :
  strip_line (js "''<nowiki/>'foo'<nowiki/>''") = js "''<nowiki/>'foo'''".
Proof. vm_compute. reflexivity. Qed.

(** A closing tag [undefined] pairs with the empty stack. *)
Example quote_nowiki_undefined_closer :
  strip_line (js "a'<nowiki/></undefined>") = js "a'</undefined>".
Proof. vm_compute. reflexivity. Qed.

Lemma strip_piece_lines out :
  split_nl (join_nl (map strip_piece (split_nl out))) =
  map strip_piece (split_nl out).
Proof.
  apply split_join_nl.
  - pose proof (split_nl_nonempty out). destruct (split_nl out); [congruence|discriminate].
  - pose proof (split_nl_no_nl out) as H. induction H; simpl; constructor.
    + apply strip_piece_no_nl. assumption.
    + assumption.
Qed.

(** C4, as amended.  The pass that strips trailing self-closing nowikis is
    idempotent: run twice on any buffer it gives what one run gives. *)
Theorem trailing_nowiki_strip_idempotent (out : jstr) :
  stripTrailingNowikis (stripTrailingNowikis out) = stripTrailingNowikis out.
Proof.
  unfold stripTrailingNowikis. rewrite strip_piece_lines, map_map.
  f_equal. apply map_ext. intros piece. apply strip_piece_idempotent.
Qed.

(** C4, counterexample.  The quote-nowiki pass removes one nowiki per line
    and call: on this buffer a first run removes the second nowiki and a
    second run the first, so two runs differ from one. *)
Lemma quote_nowiki_strip_not_idempotent :
  stripUnnecessaryQuoteNowikis (js "'<nowiki/>'<nowiki/>") = js "'<nowiki/>'" /\
  stripUnnecessaryQuoteNowikis (js "'<nowiki/>'") = js "''" /\
  jstr_eqb
    (stripUnnecessaryQuoteNowikis
       (stripUnnecessaryQuoteNowikis (js "'<nowiki/>'<nowiki/>")))
    (stripUnnecessaryQuoteNowikis (js "'<nowiki/>'<nowiki/>")) = false.
Proof. vm_compute. repeat split; reflexivity. Qed.

(** The indent-pre pass is not idempotent either once [scrubWikitext] is
    set: scrubbing the first nowiki of this line brings a second one to the
    start of the line, where the next run scrubs it. *)
Example indent_pre_strip_not_idempotent :
  let strip := IndentPre.stripUnnecessaryIndentPreNowikis (IndentPre.sample_config true) in
  strip (js "<nowiki> </nowiki><nowiki> </nowiki>x") = js "<nowiki> </nowiki>x" /\
  strip (js "<nowiki> </nowiki>x") = js "x".
Proof. vm_compute. split; reflexivity. Qed.

(** Nor is it without [scrubWikitext]: the second nowiki of this line
    stands behind a carriage return inside a comment, so the first run
    takes the whole comment for the rest of the line and the second run
    finds the nowiki at a start of line of its own. *)
Example indent_pre_strip_twice_after_cr :
  let strip := IndentPre.stripUnnecessaryIndentPreNowikis IndentPre.comment_config in
  strip IndentPre.line_with_cr
    = js " <!--" ++ [13%N] ++ js "<nowiki> </nowiki><div>-->" /\
  strip (strip IndentPre.line_with_cr)
    = js " <!--" ++ [13%N] ++ js " <div>-->".
Proof. vm_compute. split; reflexivity. Qed.

(** The example of the specification for the indent-pre pass: a block tag
    on the line makes the nowiki unnecessary. *)
Example indent_pre_spec_line :
  IndentPre.stripUnnecessaryIndentPreNowikis (IndentPre.sample_config false)
    (js "<nowiki> </nowiki><div>x</div>") = js " <div>x</div>".
Proof. vm_compute. reflexivity. Qed.

End PostPassTheorems.

Module WalkerFacts.
Import WTS.

Section Facts.

Variables Node Doc CT Hidden : Type.
Variable dom : DOMApi Node Doc.
Variable DU : DOMUtils Node.
Variable U : Utils.
Variable X : Externals Node Doc CT Hidden.


(** *** Events *)

Lemma emitted_app (a b : list (Event Node CT Hidden)) :
  emitted (a ++ b) = emitted a ++ emitted b.
Proof.
  induction a as [|e a IH]; simpl; [reflexivity|].
  destruct e; simpl; rewrite IH; reflexivity.
Qed.

Lemma handled_app (a b : list (Event Node CT Hidden)) :
  handled (a ++ b) = handled a ++ handled b.
Proof.
  induction a as [|e a IH]; simpl; [reflexivity|].
  destruct e; simpl; rewrite IH; reflexivity.
Qed.

Lemma failed_assertions_app (a b : list (Event Node CT Hidden)) :
  failed_assertions (a ++ b) = failed_assertions a ++ failed_assertions b.
Proof.
  induction a as [|e a IH]; simpl; [reflexivity|].
  destruct e; simpl; rewrite IH; reflexivity.
Qed.

Lemma logged_app (a b : list (Event Node CT Hidden)) :
  logged (a ++ b) = logged a ++ logged b.
Proof.
  induction a as [|e a IH]; simpl; [reflexivity|].
  destruct e; simpl; rewrite IH; reflexivity.
Qed.

(** *** Emitting the chunks of reused source *)

Lemma emit_all_events (cts : list CT) : forall w : World Node CT Hidden,
  emitted (events (snd (emit_all X cts w)))
    = emitted (events w) ++ map (chunk_of X) cts
  /\ handled (events (snd (emit_all X cts w))) = handled (events w)
  /\ failed_assertions (events (snd (emit_all X cts w)))
     = failed_assertions (events w).
Proof.
  induction cts as [|ct cts IH]; intros w.
  - simpl. rewrite app_nil_r. auto.
  - simpl. unfold bind, emitChunk, bind, getState, record, modifyState, modify.
    simpl.
    match goal with |- context [emit_all X cts ?w1] => destruct (IH w1) as [He [Hh Ha]] end.
    rewrite He, Hh, Ha. simpl.
    rewrite emitted_app, handled_app, failed_assertions_app. simpl.
    rewrite <- !app_assoc, !app_nil_r. auto.
Qed.


(** *** _serializeDOMNode *)

Lemma serialize_from_source_events (node : Node) (w : World Node CT Hidden) :
  let dp := getDataParsoid DU node in
  let d := dsr_or_empty dp in
  let r := serialize_from_source dom DU X node w in
  emitted (events (snd r))
    = emitted (events w)
      ++ map (chunk_of X)
           (fromSelSer X (getOrigSrc X (dsr_at d 0) (dsr_at d 1)) node dp)
  /\ handled (events (snd r)) = handled (events w)
  /\ failed_assertions (events (snd r)) = failed_assertions (events w)
  /\ fst r = NextNode (if isFirstEncapsulationWrapperNode DU node
                       then skipOverEncapsulatedContent DU node
                       else nextSibling dom node).
Proof.
  intros dp d r. subst r. unfold serialize_from_source.
  fold dp. fold d.
  unfold bind, when, modifyState, modify, getState, trace, record, ret.
  simpl.
  set (orig := getOrigSrc X (dsr_at d 0) (dsr_at d 1)).
  destruct (isZeroWidthWikitextElt DU node
            && (0 <? Datatypes.length (childNodes dom node))%nat
            && jstr_eqb (sepType (constraintInfo (sep (state w)))) (js "sibling"));
  destruct (suppressSLC dom DU node);
  destruct (isFirstEncapsulationWrapperNode DU node); simpl;
  match goal with
  | |- context [emit_all X ?cts ?w1] =>
      destruct (emit_all_events cts w1) as [He [Hh Ha]];
      destruct (emit_all X cts w1) as [u w2] eqn:Eall
  end; simpl in *;
  rewrite He, Hh, Ha, emitted_app, handled_app, failed_assertions_app; simpl;
  rewrite !app_nil_r;
  repeat split; reflexivity.
Qed.

Lemma call_handle_events (h : Handler Node Hidden) (node : Node) (wu : bool)
    (w : World Node CT Hidden) :
  let r := call_handle h node wu w in
  emitted (events (snd r)) = emitted (events w)
  /\ handled (events (snd r)) = handled (events w) ++ [(h, node, wu)]
  /\ failed_assertions (events (snd r)) = failed_assertions (events w).
Proof.
  unfold call_handle, bind, record, modify, getState, modifyState, ret. simpl.
  destruct (handle h) as [f|]; simpl.
  - destruct (f node (state w) wu) as [next st']. simpl.
    rewrite emitted_app, handled_app, failed_assertions_app. simpl.
    rewrite !app_nil_r. auto.
  - rewrite emitted_app, handled_app, failed_assertions_app. simpl.
    rewrite !app_nil_r. auto.
Qed.

(** The branch taken by [_serializeDOMNode]. *)
Lemma serializeDOMNode_reuse (node : Node) (h : Handler Node Hidden)
    (w : World Node CT Hidden) :
  reuses_source dom DU U (state w) node = true ->
  _serializeDOMNode dom DU U X node h w =
    (Returned (fst (serialize_from_source dom DU X node w)),
     snd (serialize_from_source dom DU X node w)).
Proof.
  unfold reuses_source, _serializeDOMNode, bind, getState. simpl.
  intros ->. unfold ret.
  destruct (serialize_from_source dom DU X node w). reflexivity.
Qed.

Lemma serializeDOMNode_handler_events (node : Node) (h : Handler Node Hidden)
    (w : World Node CT Hidden) :
  reuses_source dom DU U (state w) node = false ->
  let r := _serializeDOMNode dom DU U X node h w in
  emitted (events (snd r)) = emitted (events w)
  /\ handled (events (snd r)) =
      handled (events w)
      ++ [(h, node, selser_candidate dom DU U (state w) node
                    && wrapper_unmodified dom DU U node)]
  /\ failed_assertions (events (snd r)) = failed_assertions (events w).
Proof.
  unfold reuses_source, _serializeDOMNode, bind, getState. simpl.
  intros ->. unfold when, modifyState, modify, ret. simpl.
  set (wu := selser_candidate dom DU U (state w) node
             && wrapper_unmodified dom DU U node).
  destruct (selserMode (state w) && hasInsertedDiffMark DU node); simpl;
  match goal with
  | |- context [call_handle h node wu ?w1] =>
      destruct (call_handle_events h node wu w1) as [He [Hh Ha]];
      destruct (call_handle h node wu w1) as [[next|] w2]
  end; simpl in *; auto.
Qed.

(** C1.  In selser mode a node is serialized from its original source (the
    chunks handed to [emitChunk] are those made from the source between
    [dsr[0]] and [dsr[1]], and no handler is called) exactly when the
    serializer is not in modified content, the original source is valid in
    the edited context, the DSR is valid and has positive width, or zero
    width on a P, BR or OL, or the node is fostered or misnested, and the
    node has no diff markers.  Otherwise nothing is emitted from source and
    the handler is called. *)
Theorem selser_reuse_exactly_when (node : Node) (h : Handler Node Hidden)
    (w : World Node CT Hidden) :
  selserMode (state w) = true ->
  let dp := getDataParsoid DU node in
  let d := dsr_or_empty dp in
  let qualifies :=
    negb (inModifiedContent (state w))
    && origSrcValidInEditedContext DU node
    && (isValidDSR U d
        && (dsr_gt (dsr_at d 1) (dsr_at d 0)
            || (dsr_eq (dsr_at d 1) (dsr_at d 0)
                && name_in [js "P"; js "BR"; js "OL"] (nodeName dom node))
            || fostered dp || misnested dp))
    && negb (hasDiffMarkers DU node) in
  let w' := snd (_serializeDOMNode dom DU U X node h w) in
  if qualifies then
    emitted (events w')
      = emitted (events w)
        ++ map (chunk_of X)
             (fromSelSer X (getOrigSrc X (dsr_at d 0) (dsr_at d 1)) node dp)
    /\ handled (events w') = handled (events w)
  else
    emitted (events w') = emitted (events w)
    /\ exists wrapperUnmodified,
         handled (events w') = handled (events w) ++ [(h, node, wrapperUnmodified)].
Proof.
  intros Hsel dp d qualifies w'.
  assert (reuses_source dom DU U (state w) node = qualifies) as Hq.
  { unfold reuses_source, selser_candidate, usable_width, qualifies.
    fold dp. fold d. rewrite Hsel. simpl. rewrite <- !andb_assoc. reflexivity. }
  subst w'. destruct qualifies.
  - rewrite (serializeDOMNode_reuse node h w Hq). simpl.
    destruct (serialize_from_source_events node w) as [He [Hh _]].
    split; assumption.
  - destruct (serializeDOMNode_handler_events node h w Hq) as [He [Hh _]].
    split; [exact He|]. eexists. exact Hh.
Qed.

(** C2.  A node that takes the reuse path has no handler called for it,
    and the walker goes on with its next sibling, or with the node after
    the encapsulated content when the node is the first wrapper of a
    template or extension: this is what [_serializeDOMNode] resolves to and
    what the continuation in [_serializeNode] passes on. *)
Theorem reuse_path_skips_handler (node : Node) (h : Handler Node Hidden)
    (w : World Node CT Hidden) :
  reuses_source dom DU U (state w) node = true ->
  let target :=
    if isFirstEncapsulationWrapperNode DU node
    then skipOverEncapsulatedContent DU node
    else nextSibling dom node in
  let r := _serializeDOMNode dom DU U X node h w in
  handled (events (snd r)) = handled (events w)
  /\ fst r = Returned (NextNode target)
  /\ fst (after_node dom DU U X node h (fst r) (snd r)) = Returned target.
Proof.
  intros Hq target r. subst r.
  rewrite (serializeDOMNode_reuse node h w Hq). simpl.
  destruct (serialize_from_source_events node w) as [_ [Hh [_ Hn]]].
  rewrite Hn. fold target. split; [exact Hh|]. split; reflexivity.
Qed.

End Facts.
End WalkerFacts.

Module StateFacts.
Import WTS WalkerFacts.

Section Facts.

Variables Node Doc CT Hidden : Type.
Variable dom : DOMApi Node Doc.
Variable DU : DOMUtils Node.
Variable U : Utils.
Variable X : Externals Node Doc CT Hidden.

(** *** _serializeTextNode *)

(** C8.  While the chunk of a text node is emitted, [escapeText] holds
    [(onSOL || !currNodeUnmodified) && !inNoWiki && !inHTMLPre], computed
    from the state the function was entered in; it is false again as soon
    as [emitChunk] has returned, before the trailing newlines are moved
    into the separator.  One chunk is emitted. *)
Theorem text_chunk_escapeText (node : Node) (w : World Node CT Hidden) :
  let st := state w in
  let flag :=
    (onSOL st || negb (currNodeUnmodified st))
    && negb (inNoWiki st) && negb (inHTMLPre st) in
  let res := @ChunkString CT (text_to_emit dom DU U node st (nodeValue dom node)) in
  let entered := set_escapeText flag st in
  let left := set_escapeText false (SS_emitChunk X res node entered) in
  escapeText entered = flag
  /\ escapeText left = false
  /\ _serializeTextNode dom DU U X node w =
       move_trailing_newlines X node (sepSuffixWithNls (nodeValue dom node))
         {| state := left;
            events := events w ++ [EvEmitChunk res node entered] |}
  /\ events (snd (_serializeTextNode dom DU U X node w))
     = events w ++ [EvEmitChunk res node entered].
Proof.
  intros st flag res entered left.
  split; [reflexivity|]. split; [reflexivity|].
  assert (_serializeTextNode dom DU U X node w =
       move_trailing_newlines X node (sepSuffixWithNls (nodeValue dom node))
         {| state := left;
            events := events w ++ [EvEmitChunk res node entered] |}) as Heq.
  { reflexivity. }
  split; [exact Heq|]. rewrite Heq.
  unfold move_trailing_newlines.
  destruct (sepSuffixWithNls (nodeValue dom node)) as [[before m]|]; [|reflexivity].
  unfold bind, getState, modifyState, modify, ret. simpl.
  destruct (sep_src_truthy left); reflexivity.
Qed.

(** *** _serializeAttributes leaves the state alone *)

Lemma serialize_attribute_state (node : Node) (token : Token)
    (acc : list jstr) (kv : KV) (w : World Node CT Hidden) :
  state (snd (serialize_attribute dom DU U X node token acc kv w)) = state w.
Proof.
  unfold serialize_attribute.
  destruct (set_has IGNORED_ATTRIBUTES (kv_k kv) || jstr_eqb (kv_k kv) (js "data-mw"));
    [reflexivity|].
  destruct (jstr_eqb (kv_k kv) (js "id") && is_parsoid_id (kv_v kv)).
  - destruct (negb (attr_truthy (getAttribute dom node (js "data-parsoid")))).
    + reflexivity.
    + destruct (negb (modified (getAttributeShadowInfo U token (kv_k kv)))
                && fromsrc (getAttributeShadowInfo U token (kv_k kv))); reflexivity.
  - destruct (PARSOID_ATTRIBUTES_get (kv_k kv)) as [re|]; [|reflexivity].
    destruct (re_matches re (kv_v kv)); [|reflexivity].
    destruct (nonempty (re_strip re (kv_v kv))); reflexivity.
Qed.

Lemma reduce_attributes_state (node : Node) (token : Token) (kvs : list KV) :
  forall acc (w : World Node CT Hidden),
  state (snd (reduce (serialize_attribute dom DU U X node token) kvs acc w))
  = state w.
Proof.
  induction kvs as [|kv kvs IH]; intros acc w; simpl; [reflexivity|].
  unfold bind.
  pose proof (serialize_attribute_state node token acc kv w) as Hs.
  destruct (serialize_attribute dom DU U X node token acc kv w) as [acc' w'].
  simpl in Hs. rewrite IH. exact Hs.
Qed.

Lemma serializeAttributes_state (node : Node) (token : Token)
    (w : World Node CT Hidden) :
  state (snd (_serializeAttributes dom DU U X node token w)) = state w.
Proof.
  unfold _serializeAttributes, bind, ret.
  pose proof (reduce_attributes_state node token (attribs token) [] w) as Hs.
  destruct (reduce (serialize_attribute dom DU U X node token) (attribs token) [] w).
  exact Hs.
Qed.

(** *** The inHTMLPre flag *)

(** The open tag of a pre sets the flag, whether or not the wrapper is
    unmodified. *)
Lemma open_pre_sets_inHTMLPre (node : Node) (wu : bool) (w : World Node CT Hidden) :
  tk_name (mkTagTk DU node) = js "pre" ->
  inHTMLPre (state (snd (_serializeHTMLTag dom DU U X node wu w))) = true.
Proof.
  intros Hpre. unfold _serializeHTMLTag. rewrite Hpre.
  unfold bind, when, modifyState, modify, ret. simpl.
  destruct wu; [reflexivity|].
  destruct (autoInsertedStart (dataAttribs (mkTagTk DU node))); [reflexivity|].
  match goal with
  | |- context [_serializeAttributes dom DU U X node ?t ?w1] =>
      pose proof (serializeAttributes_state node t w1) as Hs;
      destruct (_serializeAttributes dom DU U X node t w1) as [sAttribs w2]
  end.
  simpl in *. rewrite Hs. reflexivity.
Qed.

(** The close tag of a pre clears the flag when it is serialized anew. *)
Lemma close_pre_clears_inHTMLPre (node : Node) (w : World Node CT Hidden) :
  tk_name (mkEndTagTk DU node) = js "pre" ->
  inHTMLPre (state (snd (_serializeHTMLEndTag DU U X node false w))) = false.
Proof.
  intros Hpre. unfold _serializeHTMLEndTag. rewrite Hpre. reflexivity.
Qed.

(** With the wrapper unmodified the close tag comes from the original
    source and the state is not touched at all. *)
Lemma close_tag_wrapper_unmodified (node : Node) (w : World Node CT Hidden) :
  snd (_serializeHTMLEndTag DU U X node true w) = w.
Proof. reflexivity. Qed.

(** C9.  Over an HTML pre whose wrapper is unmodified the flag is not
    balanced: the open tag sets it, the close tag, taken from the original
    source, leaves it set. *)
Theorem pre_flag_left_set_when_wrapper_unmodified (node : Node)
    (w : World Node CT Hidden) :
  tk_name (mkTagTk DU node) = js "pre" ->
  tk_name (mkEndTagTk DU node) = js "pre" ->
  let opened := snd (_serializeHTMLTag dom DU U X node true w) in
  let closed := snd (_serializeHTMLEndTag DU U X node true opened) in
  inHTMLPre (state opened) = true /\ inHTMLPre (state closed) = true.
Proof.
  intros Hopen Hclose opened closed. subst closed.
  rewrite close_tag_wrapper_unmodified. subst opened.
  split; apply open_pre_sets_inHTMLPre; exact Hopen.
Qed.

(** The flag is balanced when the tags are serialized anew. *)
Lemma pre_flag_balanced_when_serialized (node : Node) (w w1 : World Node CT Hidden) :
  tk_name (mkTagTk DU node) = js "pre" ->
  tk_name (mkEndTagTk DU node) = js "pre" ->
  inHTMLPre (state (snd (_serializeHTMLTag dom DU U X node false w))) = true
  /\ inHTMLPre (state (snd (_serializeHTMLEndTag DU U X node false w1))) = false.
Proof.
  intros Hopen Hclose. split.
  - apply open_pre_sets_inHTMLPre. exact Hopen.
  - apply close_pre_clears_inHTMLPre. exact Hclose.
Qed.

(** *** _getDOMHandler *)

Section Handlers.

(** What DOMHandlers.js provides: every handler of the registry, the HTML
    element handler and the handler for encapsulated content have a
    [handle] method; and [DU.isElt] holds of element nodes. *)
Hypothesis registry_handles :
  forall key h, tagHandlers X key = Some h -> has_handle h = true.
Hypothesis html_handles : has_handle (htmlElementHandler X) = true.
Hypothesis encapsulated_handles :
  forall n h, _getEncapsulatedContentHandler X n = Some h -> has_handle h = true.
Hypothesis isElt_element :
  forall n, nodeType dom n = ELEMENT_NODE -> isElt DU n = true.

Lemma getDOMHandler_cases (node : Node) :
  isElt DU node = true ->
  let h := _getDOMHandler dom DU U X (Some node) in
  let name := String_toLowerCase U (nodeName dom node) in
  _getEncapsulatedContentHandler X node = Some h
  \/ tagHandlers X (name ++ js "_"
                    ++ as_string (stx (getDataParsoid DU node))) = Some h
  \/ tagHandlers X name = Some h
  \/ h = htmlElementHandler X.
Proof.
  intros Helt h name. subst h. unfold _getDOMHandler. rewrite Helt.
  cbn [negb].
  destruct (_getEncapsulatedContentHandler X node) as [e|]; [left; reflexivity|].
  fold name.
  destruct (tagHandlers X (name ++ js "_"
              ++ as_string (stx (getDataParsoid DU node)))) as [s|] eqn:Es.
  - destruct (new_elt_in_html_parent dom DU U node); auto.
  - destruct (is_html_stx (getDataParsoid DU node) && negb (jstr_eqb name (js "a")));
      [auto|].
    destruct (new_elt_in_html_parent dom DU U node); [auto|].
    destruct (tagHandlers X name) as [t|] eqn:Et; auto.
Qed.

Lemma getDOMHandler_has_handle (node : Node) :
  isElt DU node = true ->
  has_handle (_getDOMHandler dom DU U X (Some node)) = true.
Proof.
  intros Helt.
  destruct (getDOMHandler_cases node Helt) as [H|[H|[H|H]]].
  - eapply encapsulated_handles. exact H.
  - eapply registry_handles. exact H.
  - eapply registry_handles. exact H.
  - rewrite H. exact html_handles.
Qed.

(** C10.  For an element node [_getDOMHandler] returns the handler for
    encapsulated content, the registry entry for tag and syntax, the
    registry entry for the tag, or the HTML element handler, each of which
    has a [handle] method; so the assertion of [_serializeNode] does not
    fail on an element node. *)
Theorem element_handler_has_handle (node : Node) (w : World Node CT Hidden) :
  nodeType dom node = ELEMENT_NODE ->
  let h := _getDOMHandler dom DU U X (Some node) in
  let name := String_toLowerCase U (nodeName dom node) in
  (_getEncapsulatedContentHandler X node = Some h
   \/ tagHandlers X (name ++ js "_"
                     ++ as_string (stx (getDataParsoid DU node))) = Some h
   \/ tagHandlers X name = Some h
   \/ h = htmlElementHandler X)
  /\ has_handle h = true
  /\ failed_assertions (events (snd (_serializeNode dom DU U X node w)))
     = failed_assertions (events w).
Proof.
  intros Htype h name.
  pose proof (isElt_element node Htype) as Helt.
  split; [apply getDOMHandler_cases; exact Helt|].
  pose proof (getDOMHandler_has_handle node Helt) as Hh. fold h in Hh.
  split; [exact Hh|].
  unfold _serializeNode. rewrite Htype.
  change (_getDOMHandler dom DU U X (Some node)) with h.
  clearbody h.
  unfold bind, trace, record, modify. simpl.
  destruct (isMarkerMeta DU node (js "mw:DiffMarker")).
  - unfold modifyState, modify, ret. simpl.
    rewrite failed_assertions_app. simpl. apply app_nil_r.
  - rewrite Hh. unfold when, before_node, modifyState, modify, ret. simpl.
    match goal with
    | |- context [_serializeDOMNode dom DU U X node h ?w1] =>
        set (w1' := w1);
        assert (failed_assertions (events (snd (_serializeDOMNode dom DU U X node h w1')))
                = failed_assertions (events w1')) as Hd
    end.
    { destruct (reuses_source dom DU U (state w1') node) eqn:Hq.
      - rewrite (serializeDOMNode_reuse dom DU U X node h w1' Hq). simpl.
        destruct (serialize_from_source_events dom DU X node w1') as [_ [_ [Ha _]]].
        exact Ha.
      - destruct (serializeDOMNode_handler_events dom DU U X node h w1' Hq) as [_ [_ Ha]].
        exact Ha. }
    destruct (_serializeDOMNode dom DU U X node h w1') as [r w2].
    simpl in Hd.
    assert (failed_assertions (events w1') = failed_assertions (events w)) as H1.
    { subst w1'. simpl. rewrite failed_assertions_app. simpl. apply app_nil_r. }
    unfold after_node. destruct r as [next|]; simpl.
    + unfold bind, modifyState, modify, ret. simpl.
      transitivity (failed_assertions (events w1')); assumption.
    + unfold ret. simpl.
      transitivity (failed_assertions (events w1')); assumption.
Qed.

End Handlers.

End Facts.
End StateFacts.

Module EmissionFacts.
Import WTS WalkerFacts StateFacts.

Section Facts.

Variables Node Doc CT Hidden : Type.
Variable dom : DOMApi Node Doc.
Variable DU : DOMUtils Node.
Variable U : Utils.
Variable X : Externals Node Doc CT Hidden.

(** *** Attributes *)

Lemma reduce_app (A B : Type) (f : B -> A -> M (World Node CT Hidden) B)
    (xs ys : list A) : forall (init : B) (w : World Node CT Hidden),
  reduce f (xs ++ ys) init w =
  reduce f ys (fst (reduce f xs init w)) (snd (reduce f xs init w)).
Proof.
  induction xs as [|x xs IH]; intros init w; simpl; [reflexivity|].
  unfold bind. destruct (f init x w) as [acc w1]. apply IH.
Qed.

Lemma ignore_set_ignored (k : jstr) :
  In k ignore_set ->
  set_has IGNORED_ATTRIBUTES k || jstr_eqb k (js "data-mw") = true.
Proof.
  unfold ignore_set. simpl.
  intros [H|[H|[H|[H|[H|[H|[]]]]]]]; subst k; reflexivity.
Qed.

(** What [_getDOMAttribs] returns holds no key of [IGNORED_ATTRIBUTES]. *)
Lemma getDOMAttribs_not_ignored (attributes : list (jstr * jstr)) :
  Forall (fun kv => set_has IGNORED_ATTRIBUTES (kv_k kv) = false)
         (_getDOMAttribs attributes).
Proof.
  unfold _getDOMAttribs. apply Forall_forall. intros kv Hin.
  apply in_map_iff in Hin. destruct Hin as [a [<- Ha]].
  apply filter_In in Ha. destruct Ha as [_ Ha]. simpl.
  apply negb_true_iff. exact Ha.
Qed.

(** [is_parsoid_id] is the expression of the source: [mw], then two or more
    word characters or hyphens, up to the end. *)
Lemma is_parsoid_id_spec (v : jstr) :
  is_parsoid_id v = true <->
  exists r, v = js "mw" ++ r /\ (2 <= List.length r)%nat
            /\ Forall (fun c => is_word c = true \/ c = 45%N) r.
Proof.
  unfold is_parsoid_id. split.
  - destruct (strip_prefix (js "mw") v) as [r|] eqn:E; [|discriminate].
    intros H. apply andb_true_iff in H. destruct H as [Hlen Hall].
    exists r. split; [apply strip_prefix_sound; exact E|].
    split; [apply Nat.leb_le; exact Hlen|].
    apply Forall_forall. intros c Hc.
    rewrite forallb_forall in Hall. specialize (Hall c Hc).
    apply orb_true_iff in Hall. destruct Hall as [Hw|Hd]; [left; exact Hw|].
    right. apply N.eqb_eq. exact Hd.
  - intros [r [-> [Hlen Hall]]]. rewrite strip_prefix_complete.
    apply andb_true_iff. split; [apply Nat.leb_le; exact Hlen|].
    apply forallb_forall. intros c Hc.
    rewrite Forall_forall in Hall. destruct (Hall c Hc) as [Hw| ->].
    + rewrite Hw. reflexivity.
    + apply orb_true_r.
Qed.

(** C3, as amended.  In the loop over the attributes of the token, an
    attribute whose key is in the ignore set is passed over: nothing is
    added to the output and nothing is logged.  An id attribute whose value
    looks Parsoid-generated adds the id with its shadow value when the node
    has a data-parsoid attribute and the shadow information is unmodified
    and from source, adds nothing when it is not, and logs a warning and
    adds nothing when the node has no data-parsoid attribute. *)
Theorem ignored_and_parsoid_id_attributes (node : Node) (token : Token)
    (pre post : list KV) (kv : KV) (w : World Node CT Hidden) :
  let step := serialize_attribute dom DU U X node token in
  let acc := fst (reduce step pre [] w) in
  let w1 := snd (reduce step pre [] w) in
  let vInfo := getAttributeShadowInfo U token (js "id") in
  (In (kv_k kv) ignore_set ->
   reduce step (pre ++ kv :: post) [] w = reduce step post acc w1)
  /\
  (kv_k kv = js "id" -> is_parsoid_id (kv_v kv) = true ->
   reduce step (pre ++ kv :: post) [] w =
     if attr_truthy (getAttribute dom node (js "data-parsoid")) then
       reduce step post
         (if negb (modified vInfo) && fromsrc vInfo
          then acc ++ [attr_string (js "id") (escape_quot (value vInfo))]
          else acc)
         w1
     else
       reduce step post acc
         {| state := state w1;
            events := events w1
                      ++ [EvLog (js "warning/html2wt") (id_warning dom node kv)] |}).
Proof.
  intros step acc w1 vInfo. split.
  - intros Hin. rewrite reduce_app. fold acc. fold w1. simpl. unfold bind.
    unfold step at 1. unfold serialize_attribute.
    rewrite (ignore_set_ignored Hin). reflexivity.
  - intros Hid Hpid. rewrite reduce_app. fold acc. fold w1. simpl. unfold bind.
    unfold step at 1. unfold serialize_attribute.
    rewrite Hid, Hpid.
    change (set_has IGNORED_ATTRIBUTES (js "id") || jstr_eqb (js "id") (js "data-mw"))
      with false.
    change (jstr_eqb (js "id") (js "id") && true) with true.
    cbv iota. fold vInfo.
    destruct (attr_truthy (getAttribute dom node (js "data-parsoid"))); simpl.
    + destruct (negb (modified vInfo) && fromsrc vInfo); reflexivity.
    + reflexivity.
Qed.

(** *** Template parameters *)

Section Template.

(** The escape handler reports the named form whenever it was asked for:
    it can turn a positional argument into a named one, never the other way
    round. *)
Hypothesis escape_keeps_named :
  forall v o, serializeAsNamed o = true ->
              ev_serializeAsNamed (escapeTplArgWT X v o) = true.

Lemma Z_toString_eqb (k : jstr) (z : Z) :
  jstr_eqb k (Z_toString z) = true <-> k = Z_toString z.
Proof. apply jstr_eqb_eq. Qed.

(** C5.  [pushArg] emits a parameter in positional form, and moves the
    positional counter on, exactly when its key is the decimal form of the
    counter, no named flag is recorded for it, it has no [key.wt], and the
    escape handler does not report the named form.  A positional value is
    emitted as the escape handler returns it; a named value is trimmed and
    emitted after its name and the equals sign, and the counter stays. *)
Theorem template_param_positional_or_named
    (params : list (jstr * Param)) (isTpl : bool) (numPositional n : Z)
    (st : ArgState) (k : jstr) (paramInfo : option ParamInfo) (p : Param)
    (w : World Node CT Hidden) :
  lookup k params = Some p ->
  let info := match paramInfo with Some i => i | None => no_paramInfo end in
  let opts := arg_opts isTpl numPositional n st k info in
  let ev := escapeTplArgWT X (arg_string U X p) opts in
  let st' := fst (pushArg U X params isTpl numPositional n st k paramInfo w) in
  let name := match key_wt p with Some v => toString v | None => k end in
  let '(s0, s1, s2, s3) := arg_spacing opts k info in
  let positional :=
    jstr_eqb k (Z_toString (numericIndex st)) && negb (named info)
    && match key_wt p with Some _ => false | None => true end
    && negb (ev_serializeAsNamed ev) in
  (serializeAsNamed opts = false <->
     k = Z_toString (numericIndex st) /\ named info = false)
  /\ (positional = true ->
      argBuf st' = argBuf st ++ [ev_v ev]
      /\ numericIndex st' = (numericIndex st + 1)%Z)
  /\ (positional = false ->
      argBuf st' = argBuf st
                   ++ [s0 ++ name ++ s1 ++ js "=" ++ s2 ++ trim (ev_v ev) ++ s3]
      /\ numericIndex st' = numericIndex st).
Proof.
  intros Hp info opts ev st' name.
  destruct (arg_spacing opts k info) as [[[s0 s1] s2] s3] eqn:Espc.
  intros positional.
  assert (serializeAsNamed opts = false <->
          k = Z_toString (numericIndex st) /\ named info = false) as Hopts.
  { unfold opts, arg_opts. simpl. rewrite orb_false_iff, negb_false_iff.
    rewrite Z_toString_eqb. tauto. }
  split; [exact Hopts|].
  assert (positional = negb (emitted_as_named p ev)) as Hpos.
  { unfold positional, emitted_as_named.
    destruct (key_wt p) as [v|].
    - rewrite andb_false_r. reflexivity.
    - destruct (ev_serializeAsNamed ev) eqn:Eev.
      + rewrite andb_false_r. reflexivity.
      + destruct (serializeAsNamed opts) eqn:Eo.
        * pose proof (escape_keeps_named (arg_string U X p) opts Eo) as Hk.
          fold ev in Hk. congruence.
        * destruct Hopts as [Hopts _]. destruct (Hopts eq_refl) as [Hk Hn].
          apply Z_toString_eqb in Hk. rewrite Hk, Hn. reflexivity. }
  assert (pushArg U X params isTpl numPositional n st k paramInfo w =
          (if emitted_as_named p ev
           then {| argBuf := argBuf st
                     ++ [s0 ++ name ++ s1 ++ js "=" ++ s2 ++ trim (ev_v ev) ++ s3];
                   argIndexVar := (argIndexVar st + 1)%Z;
                   numericIndex := numericIndex st |}
           else {| argBuf := argBuf st ++ [ev_v ev];
                   argIndexVar := (argIndexVar st + 1)%Z;
                   numericIndex := (numericIndex st + 1)%Z |},
           snd (pushArg U X params isTpl numPositional n st k paramInfo w))) as Hpush.
  { unfold pushArg, get_param. fold info. rewrite Hp.
    unfold bind, ret, log, record, modify.
    change (arg_opts isTpl numPositional n st k info) with opts.
    fold (arg_spacing opts k info). rewrite Espc. fold ev. fold name.
    destruct (arg_value X p); cbv beta iota zeta;
      destruct (emitted_as_named p ev); reflexivity. }
  subst st'. rewrite Hpush. simpl. rewrite Hpos.
  destruct (emitted_as_named p ev); simpl; split; intros H;
    try discriminate; split; reflexivity.
Qed.

End Template.

(** The counters start at 1: the first parameter of a template without
    recorded parameter information is pushed with both counters at 1. *)
Lemma first_param_counters (dp : DataParsoid) (buf : jstr) (tpl : Template)
    (k : jstr) (p : Param) (w : World Node CT Hidden) :
  params tpl = [(k, p)] -> dp_pi dp = None -> trim k = k ->
  let st0 := {| argBuf := []; argIndexVar := 1; numericIndex := 1 |} in
  let pushed :=
    pushArg U X [(k, p)] (typeof_string (target_href tpl)) 0 1 st0 k None w in
  build_part U X dp buf (PartTemplate tpl) w =
    (buf ++ js "{{" ++ toString (target_wt tpl) ++ js "|"
         ++ join (js "|") (argBuf (fst pushed)) ++ js "}}",
     snd pushed).
Proof.
  intros Hps Hpi Htrim st0 pushed. subst pushed.
  unfold build_part. rewrite Hps, Hpi. simpl.
  unfold push_old_params, push_new_params. simpl.
  unfold bind, ret. simpl. rewrite Htrim, jstr_eqb_refl. simpl.
  unfold countPositionalArgs. simpl. subst st0.
  destruct (pushArg U X [(k, p)] (typeof_string (target_href tpl)) 0 1
              {| argBuf := []; argIndexVar := 1; numericIndex := 1 |} k None w)
    as [st1 w1].
  simpl. rewrite <- !app_assoc. reflexivity.
Qed.

(** *** Extensions *)



End Facts.
End EmissionFacts.

Module PageTheorems.
Import WTS WalkerFacts StateFacts EmissionFacts.

(** C1, witness: in selser mode the paragraph of the page is emitted from
    the source [foo] and no handler is called. *)
Lemma selser_reuse_exactly_when_witness :
  selserMode (state (Page.start true)) = true /\
  emitted (events (snd (_serializeDOMNode Page.dom Page.DU Page.U Page.X 1
                          Page.quiet_handler (Page.start true))))
    = [(ChunkCT (js "foo", 1%nat), 1%nat)] /\
  handled (events (snd (_serializeDOMNode Page.dom Page.DU Page.U Page.X 1
                          Page.quiet_handler (Page.start true))))
    = [].
Proof.
  split; [reflexivity|].
  exact (@selser_reuse_exactly_when _ _ _ _ Page.dom Page.DU Page.U Page.X 1%nat
           Page.quiet_handler (Page.start true) eq_refl).
Defined.

(** C2, witness: the paragraph takes the reuse path and the walker goes on
    with the pre, its next sibling. *)
Lemma reuse_path_skips_handler_witness :
  reuses_source Page.dom Page.DU Page.U (state (Page.start true)) 1 = true /\
  handled (events (snd (_serializeDOMNode Page.dom Page.DU Page.U Page.X 1
                          Page.quiet_handler (Page.start true)))) = [] /\
  fst (_serializeDOMNode Page.dom Page.DU Page.U Page.X 1
         Page.quiet_handler (Page.start true)) = Returned (NextNode (Some 3%nat)).
Proof.
  split; [reflexivity|].
  pose proof (@reuse_path_skips_handler _ _ _ _ Page.dom Page.DU Page.U Page.X 1%nat
                Page.quiet_handler (Page.start true) eq_refl) as H.
  exact (conj (proj1 H) (proj1 (proj2 H))).
Defined.

(** C3, counterexample: an attribute written [data-mw] in wikitext reaches
    the serializer as [data-x-data-mw] and is emitted under the key
    [data-mw], a key of the ignore set. *)
Lemma protected_data_mw_is_emitted :
  fst (_serializeAttributes Page.dom Page.DU Page.U Page.X 4
         Page.protected_token (Page.start false))
  = attr_string (js "data-mw") (js "foo").
Proof. vm_compute. reflexivity. Qed.

(** C5, witness: the parameter [1] of value [a], met with the counter at 1
    and no parameter information, is emitted as [a] and the counter moves
    to 2. *)
Lemma escape_arg_keeps_named :
  forall v o, serializeAsNamed o = true ->
              ev_serializeAsNamed (escapeTplArgWT Page.X v o) = true.
Proof. intros v o H. simpl. rewrite H. reflexivity. Qed.

Lemma template_param_positional_or_named_witness :
  lookup (js "1") [(js "1", Page.param_a)] = Some Page.param_a /\
  let st0 := {| argBuf := []; argIndexVar := 1; numericIndex := 1 |} in
  let st' := fst (pushArg Page.U Page.X [(js "1", Page.param_a)] true 0 1 st0
                    (js "1") None (Page.start false)) in
  argBuf st' = [js "a"] /\ numericIndex st' = 2%Z.
Proof.
  split; [reflexivity|].
  exact (proj1 (proj2 (@template_param_positional_or_named _ _ _ _ Page.U Page.X
           escape_arg_keeps_named [(js "1", Page.param_a)] true 0%Z 1%Z
           {| argBuf := []; argIndexVar := 1; numericIndex := 1 |}
           (js "1") None Page.param_a (Page.start false) eq_refl)) eq_refl).
Defined.

(** The template of the specification's third scenario: the recorded
    parameter [1] is positional, the new parameter [x] is named and gets
    the default spacing around its equals sign. *)
Example echo_template_wikitext :
  fst (build_part Page.U Page.X Page.echo_dp [] (PartTemplate Page.echo)
         (Page.start false))
  = js "{{echo|a|x = b}}".
Proof. vm_compute. reflexivity. Qed.



(** C9, witness: over the pre of the page, with the wrapper unmodified,
    the flag is set by the open tag and still set after the close tag. *)
Lemma pre_flag_left_set_when_wrapper_unmodified_witness :
  tk_name (mkTagTk Page.DU 3) = js "pre" /\
  tk_name (mkEndTagTk Page.DU 3) = js "pre" /\
  inHTMLPre (state (Page.start true)) = false /\
  inHTMLPre
    (state (snd (_serializeHTMLEndTag Page.DU Page.U Page.X 3 true
                   (snd (_serializeHTMLTag Page.dom Page.DU Page.U Page.X 3 true
                           (Page.start true)))))) = true.
Proof.
  split; [reflexivity|]. split; [reflexivity|]. split; [reflexivity|].
  exact (proj2 (@pre_flag_left_set_when_wrapper_unmodified _ _ _ _ Page.dom Page.DU
                  Page.U Page.X 3%nat (Page.start true) eq_refl eq_refl)).
Defined.

(** C10, witness: the handlers of the page all have a [handle] method, and
    the paragraph gets the registry entry for its tag. *)
Lemma page_registry_handles :
  forall key h, tagHandlers Page.X key = Some h -> has_handle h = true.
Proof.
  intros key h. simpl. destruct (jstr_eqb key (js "p")); [|discriminate].
  intros H. inversion H. reflexivity.
Qed.

Lemma page_encapsulated_handles :
  forall (n : nat) h,
    _getEncapsulatedContentHandler Page.X n = Some h -> has_handle h = true.
Proof. intros n h. simpl. discriminate. Qed.

Lemma page_isElt_element :
  forall n, WTS.nodeType Page.dom n = ELEMENT_NODE -> isElt Page.DU n = true.
Proof.
  intros n. simpl. unfold Page.nodeType.
  destruct n as [|[|[|n]]]; simpl; try reflexivity. discriminate.
Qed.

Lemma element_handler_has_handle_witness :
  WTS.nodeType Page.dom 1 = ELEMENT_NODE /\
  has_handle (_getDOMHandler Page.dom Page.DU Page.U Page.X (Some 1%nat)) = true /\
  failed_assertions
    (events (snd (_serializeNode Page.dom Page.DU Page.U Page.X 1 (Page.start true))))
  = [].
Proof.
  split; [reflexivity|].
  exact (proj2 (@element_handler_has_handle _ _ _ _ Page.dom Page.DU Page.U Page.X
                  page_registry_handles eq_refl page_encapsulated_handles
                  page_isElt_element 1%nat (Page.start true) eq_refl)).
Defined.

End PageTheorems.

(** ** The post-passes, line by line *)

Module PostPassLines.
Import TrailingNowiki TrailingNowikiFacts QuoteNowiki QuoteNowikiFacts.
Local Open Scope N_scope.

Lemma split_nl_app_nl (a b : jstr) :
  split_nl (a ++ ch_nl :: b) = split_nl a ++ split_nl b.
Proof.
  induction a as [|c a IH]; simpl.
  - reflexivity.
  - destruct (c =? ch_nl).
    + rewrite IH. reflexivity.
    + rewrite IH. pose proof (split_nl_nonempty a) as Hne.
      destruct (split_nl a) as [|l ls]; [congruence|]. reflexivity.
Qed.

Lemma join_nl_app (x y : list jstr) :
  x <> [] -> y <> [] -> join_nl (x ++ y) = join_nl x ++ ch_nl :: join_nl y.
Proof.
  induction x as [|l x IH]; intros Hx Hy; [congruence|].
  destruct x as [|l' x].
  - destruct y as [|m y]; [congruence|]. reflexivity.
  - change (join_nl ((l :: l' :: x) ++ y))
      with (l ++ ch_nl :: join_nl ((l' :: x) ++ y)).
    rewrite IH by (assumption || discriminate).
    change (join_nl (l :: l' :: x)) with (l ++ ch_nl :: join_nl (l' :: x)).
    rewrite <- app_assoc. reflexivity.
Qed.

Lemma map_lines_app_nl (f : jstr -> jstr) (a b : jstr) :
  join_nl (map f (split_nl (a ++ ch_nl :: b))) =
  join_nl (map f (split_nl a)) ++ ch_nl :: join_nl (map f (split_nl b)).
Proof.
  rewrite split_nl_app_nl, map_app. apply join_nl_app.
  - pose proof (split_nl_nonempty a). destruct (split_nl a); [congruence|discriminate].
  - pose proof (split_nl_nonempty b). destruct (split_nl b); [congruence|discriminate].
Qed.

(** X1.  The pass that strips trailing self-closing nowikis works line by
    line: run on two texts joined by a newline, it gives its results on the
    two texts, joined by a newline. *)
Theorem trailing_strip_is_linewise (a b : jstr) :
  stripTrailingNowikis (a ++ ch_nl :: b) =
  stripTrailingNowikis a ++ ch_nl :: stripTrailingNowikis b.
Proof. unfold stripTrailingNowikis. apply map_lines_app_nl. Qed.

(** The split on newline-or-end differs from the split on newlines for the
    empty buffer only, where the mapped function has nothing to do. *)
Lemma quote_strip_lines (out : jstr) :
  stripUnnecessaryQuoteNowikis out = join_nl (map strip_line (split_nl out)).
Proof. destruct out; reflexivity. Qed.

(** X3.  The quote-nowiki pass works line by line as well. *)
Theorem quote_strip_is_linewise (a b : jstr) :
  stripUnnecessaryQuoteNowikis (a ++ ch_nl :: b) =
  stripUnnecessaryQuoteNowikis a ++ ch_nl :: stripUnnecessaryQuoteNowikis b.
Proof. rewrite !quote_strip_lines. apply map_lines_app_nl. Qed.

(** *** What the trailing strip takes away *)

Lemma skip_spaces_split (s : jstr) :
  exists a, s = a ++ skip_spaces s /\ forallb is_space a = true.
Proof.
  induction s as [|c s [a [IH Ha]]]; simpl.
  - exists []. split; reflexivity.
  - destruct (is_space c) eqn:E.
    + exists (c :: a). simpl. rewrite E, Ha. split; [f_equal; exact IH|reflexivity].
    + exists []. split; reflexivity.
Qed.

Lemma spaces_no_eq (a : jstr) : forallb is_space a = true -> ~ In ch_eq a.
Proof.
  intros H Hin. rewrite forallb_forall in H. specialize (H _ Hin).
  vm_compute in H. discriminate.
Qed.

Lemma nowiki_unit_no_eq (s r : jstr) :
  nowiki_unit s = Some r -> exists u, s = u ++ r /\ ~ In ch_eq u.
Proof.
  unfold nowiki_unit. intros H.
  destruct (strip_prefix (js "<nowiki") s) as [r1|] eqn:E1; [|discriminate].
  destruct (strip_prefix (js "/>") (skip_spaces r1)) as [r2|] eqn:E2; [|discriminate].
  inversion H; subst; clear H.
  apply strip_prefix_sound in E1, E2.
  destruct (skip_spaces_split r1) as [a1 [H1 Ha1]].
  destruct (skip_spaces_split r2) as [a2 [H2 Ha2]].
  exists (js "<nowiki" ++ a1 ++ js "/>" ++ a2). split.
  - rewrite E1. rewrite H1 at 1. rewrite E2. rewrite H2 at 1.
    rewrite <- !app_assoc. reflexivity.
  - intros Hin. apply in_app_or in Hin. destruct Hin as [Hin|Hin].
    { vm_compute in Hin. repeat (destruct Hin as [Hin|Hin]; [discriminate|]). exact Hin. }
    apply in_app_or in Hin. destruct Hin as [Hin|Hin].
    { exact (spaces_no_eq _ Ha1 Hin). }
    apply in_app_or in Hin. destruct Hin as [Hin|Hin].
    { vm_compute in Hin. repeat (destruct Hin as [Hin|Hin]; [discriminate|]). exact Hin. }
    exact (spaces_no_eq _ Ha2 Hin).
Qed.

Lemma nowiki_units_no_eq (f : nat) : forall s,
  nowiki_units f s = true -> ~ In ch_eq s.
Proof.
  induction f as [|f IH]; intros s H; simpl in H; [discriminate|].
  destruct (nowiki_unit s) as [r|] eqn:E; [|discriminate].
  destruct (nowiki_unit_no_eq _ E) as [u [-> Hu]].
  intros Hin. apply in_app_or in Hin. destruct Hin as [Hin|Hin]; [exact (Hu Hin)|].
  destruct r as [|c r]; [exact Hin|]. exact (IH _ H Hin).
Qed.

Lemma lazy_prefix_eq_sign (s : jstr) : In ch_eq s -> lazy_prefix s = None.
Proof.
  induction s as [|c s IH]; intros Hin; [destruct Hin|].
  simpl. destruct (nowikis_to_end (c :: s)) eqn:E.
  - exfalso. exact (nowiki_units_no_eq _ _ E Hin).
  - destruct (N.eqb_spec c ch_eq) as [|Hc]; [reflexivity|].
    destruct Hin as [Hin|Hin]; [congruence|].
    rewrite (IH Hin). reflexivity.
Qed.

(** X2.  The function mapped over the lines by the trailing strip never
    changes a line that holds an equals sign, and what it takes from any
    other line is a suffix made of self-closing nowikis and white space
    alone. *)
Theorem trailing_strip_piece_conservative (piece : jstr) :
  (In ch_eq piece -> strip_piece piece = piece) /\
  (exists r, piece = strip_piece piece ++ r /\
             (r = [] \/ nowikis_to_end r = true)).
Proof.
  split.
  - intros Hin. unfold strip_piece. rewrite (lazy_prefix_eq_sign _ Hin). reflexivity.
  - unfold strip_piece. destruct (lazy_prefix piece) as [p|] eqn:E.
    + destruct (@lazy_prefix_sound _ _ E) as [u [-> Hu]].
      exists u. split; [reflexivity|right; exact Hu].
    + exists []. rewrite app_nil_r. split; [reflexivity|left; reflexivity].
Qed.

End PostPassLines.

(** ** The post-passes on the whole buffer *)

Module PostPassWhole.
Import TrailingNowiki TrailingNowikiFacts QuoteNowiki QuoteNowikiFacts.
Import PostPassTheorems PostPassLines WTS WTSMore.
Local Open Scope N_scope.

(** *** Text without nowikis *)

Lemma strip_prefix_ci_app (lit x y : jstr) (r : jstr * jstr) :
  IndentPre.strip_prefix_ci lit x = Some r ->
  exists r', IndentPre.strip_prefix_ci lit (x ++ y) = Some r'.
Proof.
  unfold IndentPre.strip_prefix_ci. intros H.
  destruct (jstr_eqb (map ascii_lower (firstn (List.length lit) x)) lit
            && (List.length lit <=? List.length x)%nat) eqn:E; [|discriminate].
  apply andb_true_iff in E. destruct E as [E1 E2]. apply Nat.leb_le in E2.
  rewrite firstn_app.
  replace (List.length lit - List.length x)%nat with 0%nat by lia.
  simpl. rewrite app_nil_r, E1. simpl.
  rewrite length_app.
  destruct (Nat.leb_spec (List.length lit) (List.length x + List.length y)); [|lia].
  eexists. reflexivity.
Qed.

Lemma strip_prefix_ci_of_strip_prefix (lit s r : jstr) :
  map ascii_lower lit = lit ->
  strip_prefix lit s = Some r ->
  exists r', IndentPre.strip_prefix_ci lit s = Some r'.
Proof.
  intros Hlow H. apply strip_prefix_sound in H. subst s.
  unfold IndentPre.strip_prefix_ci.
  rewrite firstn_app, Nat.sub_diag, firstn_all. simpl. rewrite app_nil_r.
  rewrite Hlow, jstr_eqb_refl. simpl.
  rewrite length_app.
  destruct (Nat.leb_spec (List.length lit) (List.length lit + List.length r)); [|lia].
  eexists. reflexivity.
Qed.

Lemma mentions_nowiki_eq (s : jstr) :
  mentions_nowiki s =
  match IndentPre.strip_prefix_ci (js "<nowiki") s with
  | Some _ => true
  | None => match s with [] => false | _ :: s' => mentions_nowiki s' end
  end.
Proof. destruct s; reflexivity. Qed.

Lemma mentions_nowiki_here (s : jstr) (r : jstr * jstr) :
  IndentPre.strip_prefix_ci (js "<nowiki") s = Some r -> mentions_nowiki s = true.
Proof. intros H. rewrite mentions_nowiki_eq, H. reflexivity. Qed.

Lemma mentions_nowiki_tail (c : N) (s : jstr) :
  mentions_nowiki (c :: s) = false -> mentions_nowiki s = false.
Proof.
  rewrite mentions_nowiki_eq.
  destruct (IndentPre.strip_prefix_ci (js "<nowiki") (c :: s)); [discriminate|].
  trivial.
Qed.

Lemma mentions_nowiki_skipn (n : nat) : forall s,
  mentions_nowiki s = false -> mentions_nowiki (skipn n s) = false.
Proof.
  induction n as [|n IH]; intros s H; [exact H|].
  destruct s as [|c s]; [exact H|]. simpl skipn.
  apply IH. eapply mentions_nowiki_tail. exact H.
Qed.

Lemma mentions_nowiki_app_l (x y : jstr) :
  mentions_nowiki (x ++ y) = false -> mentions_nowiki x = false.
Proof.
  induction x as [|c x IH]; intros H.
  - reflexivity.
  - pose proof (mentions_nowiki_tail _ _ H) as Ht.
    rewrite mentions_nowiki_eq.
    destruct (IndentPre.strip_prefix_ci (js "<nowiki") (c :: x)) as [r|] eqn:E.
    + destruct (@strip_prefix_ci_app _ _ y _ E) as [r' Hr'].
      rewrite (@mentions_nowiki_here _ _ Hr') in H. discriminate.
    + apply IH. exact Ht.
Qed.

Lemma nowiki_free_lines (out : jstr) :
  mentions_nowiki out = false ->
  Forall (fun l => mentions_nowiki l = false) (split_nl out).
Proof.
  intros H.
  assert (forall pre post, out = pre ++ post -> mentions_nowiki post = false) as Hsuf.
  { intros pre post ->. replace post with (skipn (List.length pre) (pre ++ post)).
    - apply mentions_nowiki_skipn. exact H.
    - rewrite skipn_app, skipn_all, Nat.sub_diag. reflexivity. }
  clear H. revert Hsuf. induction out as [|c s IH]; intros Hsuf.
  - repeat constructor.
  - assert (Forall (fun l => mentions_nowiki l = false) (split_nl s)) as Hs.
    { apply IH. intros pre post ->. apply (Hsuf (c :: pre) post). reflexivity. }
    simpl. destruct (N.eqb_spec c ch_nl).
    + constructor; [reflexivity|exact Hs].
    + pose proof (join_split_nl s) as Hjoin.
      pose proof (split_nl_nonempty s) as Hne.
      destruct (split_nl s) as [|l ls]; [congruence|].
      { inversion Hs; subst. constructor; [|assumption].
        apply mentions_nowiki_app_l with
          (y := match ls with [] => [] | _ => ch_nl :: join_nl ls end).
        apply (Hsuf [] _). simpl. f_equal.
        destruct ls; simpl in *; [rewrite app_nil_r|]; reflexivity. }
Qed.

Lemma nowiki_free_no_run (s : jstr) :
  mentions_nowiki s = false -> nowikis_to_end s = false.
Proof.
  intros H. unfold nowikis_to_end. destruct (List.length s); [reflexivity|].
  simpl. unfold nowiki_unit.
  destruct (strip_prefix (js "<nowiki") s) as [r|] eqn:E; [|reflexivity].
  destruct (@strip_prefix_ci_of_strip_prefix (js "<nowiki") s r eq_refl E) as [r' Hr'].
  rewrite (@mentions_nowiki_here _ _ Hr') in H. discriminate.
Qed.

Lemma nowiki_free_piece (s : jstr) :
  mentions_nowiki s = false -> strip_piece s = s.
Proof.
  intros H. unfold strip_piece.
  assert (lazy_prefix s = None) as ->; [|reflexivity].
  induction s as [|c s IH]; [reflexivity|].
  simpl. rewrite nowiki_free_no_run by exact H.
  destruct (c =? ch_eq); [reflexivity|].
  rewrite IH; [reflexivity|]. eapply mentions_nowiki_tail. exact H.
Qed.

Lemma nowiki_free_selfclosing (s : jstr) :
  mentions_nowiki s = false -> has_selfclosing_nowiki s = false.
Proof.
  induction s as [|c s IH]; intros H; [reflexivity|].
  simpl. unfold selfclosing_nowiki_at.
  destruct (strip_prefix (js "<nowiki") (c :: s)) as [r|] eqn:E.
  - destruct (@strip_prefix_ci_of_strip_prefix (js "<nowiki") (c :: s) r eq_refl E)
      as [r' Hr'].
    rewrite (@mentions_nowiki_here _ _ Hr') in H. discriminate.
  - simpl. apply IH. eapply mentions_nowiki_tail. exact H.
Qed.

Lemma nowiki_free_line (s : jstr) :
  mentions_nowiki s = false -> strip_line s = s.
Proof.
  intros H. unfold strip_line. rewrite nowiki_free_selfclosing by exact H. reflexivity.
Qed.

Lemma map_lines_id (f : jstr -> jstr) (out : jstr) :
  Forall (fun l => f l = l) (split_nl out) ->
  join_nl (map f (split_nl out)) = out.
Proof.
  intros H. rewrite <- (join_split_nl out) at 2. f_equal.
  induction H as [|l ls Hl Hls IH]; simpl; [reflexivity|].
  rewrite Hl, IH. reflexivity.
Qed.

Lemma nowiki_free_trailing (out : jstr) :
  mentions_nowiki out = false -> stripTrailingNowikis out = out.
Proof.
  intros H. unfold stripTrailingNowikis. apply map_lines_id.
  eapply Forall_impl; [|apply nowiki_free_lines; exact H].
  intros l. apply nowiki_free_piece.
Qed.

Lemma nowiki_free_quote (out : jstr) :
  mentions_nowiki out = false -> stripUnnecessaryQuoteNowikis out = out.
Proof.
  intros H. rewrite quote_strip_lines. apply map_lines_id.
  eapply Forall_impl; [|apply nowiki_free_lines; exact H].
  intros l. apply nowiki_free_line.
Qed.

(** *** The indent-pre pass on text without nowikis *)

Lemma strip_prefix_ci_sound (lit s : jstr) (m r : jstr) :
  IndentPre.strip_prefix_ci lit s = Some (m, r) ->
  s = m ++ r /\ List.length m = List.length lit.
Proof.
  unfold IndentPre.strip_prefix_ci.
  destruct (jstr_eqb (map ascii_lower (firstn (List.length lit) s)) lit
            && (List.length lit <=? List.length s)%nat) eqn:E; [|discriminate].
  intros H. inversion H; subst; clear H.
  apply andb_true_iff in E. destruct E as [_ E]. apply Nat.leb_le in E.
  split; [symmetry; apply firstn_skipn|].
  rewrite length_firstn. lia.
Qed.

Lemma strip_prefix_ci_intro (lit s : jstr) :
  map ascii_lower (firstn (List.length lit) s) = lit ->
  (List.length lit <= List.length s)%nat ->
  IndentPre.strip_prefix_ci lit s
  = Some (firstn (List.length lit) s, skipn (List.length lit) s).
Proof.
  intros H1 H2. unfold IndentPre.strip_prefix_ci.
  rewrite H1, jstr_eqb_refl. apply Nat.leb_le in H2. rewrite H2. reflexivity.
Qed.

Lemma nowiki_tag_mentions (s : jstr) (r : jstr * jstr) :
  IndentPre.strip_prefix_ci (js "<nowiki>") s = Some r -> mentions_nowiki s = true.
Proof.
  unfold IndentPre.strip_prefix_ci.
  destruct (jstr_eqb (map ascii_lower (firstn (List.length (js "<nowiki>")) s))
              (js "<nowiki>")
            && (List.length (js "<nowiki>") <=? List.length s)%nat) eqn:E;
    [|discriminate].
  intros _. apply andb_true_iff in E. destruct E as [E1 E2].
  apply jstr_eqb_eq in E1. apply Nat.leb_le in E2.
  eapply mentions_nowiki_here. apply strip_prefix_ci_intro.
  - change (List.length (js "<nowiki")) with (Nat.min 7 8).
    rewrite <- firstn_firstn, <- firstn_map.
    change 8%nat with (List.length (js "<nowiki>")). rewrite E1. reflexivity.
  - change (List.length (js "<nowiki>")) with 8%nat in E2.
    change (List.length (js "<nowiki")) with 7%nat. lia.
Qed.

Lemma match_nowiki_mentions (s : jstr) (r : jstr * jstr) :
  IndentPre.match_nowiki s = Some r -> mentions_nowiki s = true.
Proof.
  unfold IndentPre.match_nowiki.
  destruct (IndentPre.strip_prefix_ci (js "<nowiki>") s) as [[o r1]|] eqn:E;
    [|discriminate].
  intros _. eapply nowiki_tag_mentions. exact E.
Qed.

Lemma first_match_nowiki_free (lens : list nat) (s : jstr) :
  mentions_nowiki s = false -> IndentPre.first_match lens s = None.
Proof.
  intros H. induction lens as [|n lens IH]; simpl; [reflexivity|].
  destruct (n <=? List.length s)%nat; [|exact IH].
  destruct (IndentPre.match_nowiki (skipn n s)) as [[nw r]|] eqn:E; [|exact IH].
  apply match_nowiki_mentions in E.
  rewrite mentions_nowiki_skipn in E by exact H. discriminate.
Qed.

Lemma split_go_nowiki_free (conf : IndentPre.Config) (s : jstr) :
  forall sol cur,
  mentions_nowiki s = false ->
  IndentPre.split_go conf s sol 0 cur = [rev cur ++ s].
Proof.
  induction s as [|c s IH]; intros sol cur H.
  - simpl. rewrite app_nil_r. reflexivity.
  - change (IndentPre.split_go conf (c :: s) sol 0 cur) with
      (match IndentPre.match_at conf sol (c :: s) with
       | Some (g1, g2, g3) =>
           rev cur :: g1 :: g2 :: g3
           :: IndentPre.split_go conf s (IndentPre.is_line_terminator c)
                (List.length g1 + List.length g2 + List.length g3 - 1) []
       | None => IndentPre.split_go conf s (IndentPre.is_line_terminator c) 0 (c :: cur)
       end).
    assert (IndentPre.match_at conf sol (c :: s) = None) as ->.
    { unfold IndentPre.match_at. destruct sol; [|reflexivity].
      apply first_match_nowiki_free. exact H. }
    rewrite IH by (eapply mentions_nowiki_tail; exact H).
    simpl. rewrite <- app_assoc. reflexivity.
Qed.

Lemma nowiki_free_indent_pre (conf : IndentPre.Config) (out : jstr) :
  mentions_nowiki out = false ->
  IndentPre.stripUnnecessaryIndentPreNowikis conf out = out.
Proof.
  intros H. unfold IndentPre.stripUnnecessaryIndentPreNowikis.
  rewrite split_go_nowiki_free by exact H. simpl. apply app_nil_r.
Qed.

(** *** Lengths *)

Lemma strip_piece_length (s : jstr) :
  (List.length (strip_piece s) <= List.length s)%nat.
Proof.
  destruct (strip_piece_prefix s) as [u Hu]. rewrite Hu at 2.
  rewrite length_app. lia.
Qed.

Lemma strip_line_length (line : jstr) :
  (List.length (strip_line line) <= List.length line)%nat.
Proof.
  unfold strip_line.
  destruct (negb (has_selfclosing_nowiki line && has_quote line)); [lia|].
  destruct (scan (split_line line)) as [st|]; [|lia].
  destruct (stack st); [|lia].
  destruct (nowikiIndex st) as [j|]; [|lia].
  rewrite concat_blank_at. rewrite <- (concat_split_line line) at 3.
  rewrite <- (firstn_skipn j (split_line line)) at 3.
  rewrite concat_app, !length_app.
  destruct (skipn j (split_line line)) as [|x l] eqn:E.
  - rewrite (skipn_all2 (split_line line)); [simpl; lia|].
    apply (f_equal (@List.length jstr)) in E. rewrite length_skipn in E.
    simpl in E. lia.
  - replace (skipn (S j) (split_line line)) with l.
    + simpl. rewrite length_app. lia.
    + change (S j) with (1 + j)%nat. rewrite <- skipn_skipn, E. reflexivity.
Qed.

Lemma join_map_length (f : jstr -> jstr) (ls : list jstr) :
  (forall l, List.length (f l) <= List.length l)%nat ->
  (List.length (join_nl (map f ls)) <= List.length (join_nl ls))%nat.
Proof.
  intros Hf. induction ls as [|l ls IH]; [simpl; lia|].
  destruct ls as [|l' ls].
  - simpl. apply Hf.
  - change (join_nl (map f (l :: l' :: ls)))
      with (f l ++ ch_nl :: join_nl (map f (l' :: ls))).
    change (join_nl (l :: l' :: ls)) with (l ++ ch_nl :: join_nl (l' :: ls)).
    rewrite !length_app. cbn [List.length].
    specialize (Hf l). lia.
Qed.

Lemma trailing_strip_length (out : jstr) :
  (List.length (stripTrailingNowikis out) <= List.length out)%nat.
Proof.
  unfold stripTrailingNowikis. rewrite <- (join_split_nl out) at 2.
  apply join_map_length. apply strip_piece_length.
Qed.

Lemma quote_strip_length (out : jstr) :
  (List.length (stripUnnecessaryQuoteNowikis out) <= List.length out)%nat.
Proof.
  rewrite quote_strip_lines. rewrite <- (join_split_nl out) at 2.
  apply join_map_length. apply strip_line_length.
Qed.

Lemma match_nowiki_sound (s nw r : jstr) :
  IndentPre.match_nowiki s = Some (nw, r) -> s = nw ++ r /\ nw <> [].
Proof.
  unfold IndentPre.match_nowiki.
  destruct (IndentPre.strip_prefix_ci (js "<nowiki>") s) as [[o r1]|] eqn:E1;
    [|discriminate].
  pose proof (span_app is_space r1) as Hsp.
  destruct (span is_space r1) as [ws r2]. simpl in Hsp.
  destruct ws as [|w0 ws]; [discriminate|].
  destruct (IndentPre.strip_prefix_ci (js "</nowiki>") r2) as [[c r3]|] eqn:E2;
    [|discriminate].
  intros H. inversion H; subst; clear H.
  apply strip_prefix_ci_sound in E1, E2.
  destruct E1 as [-> Ho], E2 as [-> _].
  split.
  - repeat (rewrite <- app_assoc || rewrite <- app_comm_cons). reflexivity.
  - destruct o; [discriminate|discriminate].
Qed.

Lemma rest_of_line_prefix (s : jstr) :
  exists r, s = IndentPre.rest_of_line s ++ r.
Proof.
  induction s as [|c s [r IH]]; simpl.
  - exists []. reflexivity.
  - destruct (c =? ch_nl).
    + exists s. reflexivity.
    + exists r. simpl. f_equal. exact IH.
Qed.

Lemma first_match_sound (lens : list nat) (s g1 g2 g3 : jstr) :
  IndentPre.first_match lens s = Some (g1, g2, g3) ->
  (exists r, s = g1 ++ g2 ++ g3 ++ r) /\ g2 <> [].
Proof.
  induction lens as [|n lens IH]; simpl; [discriminate|].
  destruct (n <=? List.length s)%nat; [|exact IH].
  destruct (IndentPre.match_nowiki (skipn n s)) as [[nw r]|] eqn:E; [|exact IH].
  intros H. inversion H; subst; clear H.
  apply match_nowiki_sound in E. destruct E as [E Hne].
  split; [|exact Hne].
  destruct (rest_of_line_prefix r) as [r' Hr'].
  exists r'. rewrite <- Hr', <- E. symmetry. apply firstn_skipn.
Qed.

Lemma unwrap_nowiki_length (nw ws tail : jstr) :
  IndentPre.unwrap_nowiki nw = Some (ws, tail) ->
  (List.length ws + List.length tail <= List.length nw)%nat.
Proof.
  unfold IndentPre.unwrap_nowiki.
  destruct (strip_prefix (js "<nowiki>") nw) as [r|] eqn:E1; [|discriminate].
  pose proof (span_app is_space r) as Hsp.
  destruct (span is_space r) as [ws' r1]. simpl in Hsp.
  destruct ws' as [|w0 ws']; [discriminate|].
  destruct (strip_prefix (js "</nowiki>") r1) as [t|] eqn:E2; [|discriminate].
  intros H. inversion H; subst; clear H.
  apply strip_prefix_sound in E1, E2. subst.
  rewrite !length_app. simpl. lia.
Qed.

Lemma rewrite_match_length (conf : IndentPre.Config) (g1 nw rest : jstr) :
  (List.length (IndentPre.rewrite_match conf g1 nw rest)
   <= List.length g1 + List.length nw + List.length rest)%nat.
Proof.
  unfold IndentPre.rewrite_match.
  pose proof (skip_spaces_length rest) as Hsk.
  destruct (negb (IndentPre.reqd conf rest)).
  - destruct (IndentPre.unwrap_nowiki nw) as [[ws tail]|] eqn:E.
    + apply unwrap_nowiki_length in E. rewrite !length_app. lia.
    + rewrite !length_app. lia.
  - destruct (IndentPre.scrubWikitext conf).
    + destruct (IndentPre.unwrap_nowiki nw) as [[ws tail]|] eqn:E.
      * apply unwrap_nowiki_length in E. rewrite !length_app. lia.
      * rewrite !length_app. lia.
    + rewrite !length_app. lia.
Qed.

Lemma split_go_lengths (conf : IndentPre.Config) (s : jstr) :
  forall sol skip cur,
  (skip <= List.length s)%nat ->
  exists first rest,
    IndentPre.split_go conf s sol skip cur = first :: rest /\
    (List.length first + List.length (IndentPre.rewrite_pieces conf rest)
     <= List.length cur + (List.length s - skip))%nat.
Proof.
  induction s as [|c s IH]; intros sol skip cur Hskip.
  - simpl. exists (rev cur), []. split; [reflexivity|].
    rewrite length_rev. simpl. lia.
  - destruct skip as [|k].
    + change (IndentPre.split_go conf (c :: s) sol 0 cur) with
        (match IndentPre.match_at conf sol (c :: s) with
         | Some (g1, g2, g3) =>
             rev cur :: g1 :: g2 :: g3
             :: IndentPre.split_go conf s (IndentPre.is_line_terminator c)
                  (List.length g1 + List.length g2 + List.length g3 - 1) []
         | None => IndentPre.split_go conf s (IndentPre.is_line_terminator c) 0 (c :: cur)
         end).
      destruct (IndentPre.match_at conf sol (c :: s)) as [[[g1 g2] g3]|] eqn:E.
      * assert ((exists r, c :: s = g1 ++ g2 ++ g3 ++ r) /\ g2 <> []) as [[r Hr] Hne].
        { unfold IndentPre.match_at in E. destruct sol; [|discriminate].
          eapply first_match_sound. exact E. }
        assert (List.length (c :: s)
                = List.length g1 + List.length g2 + List.length g3 + List.length r)%nat
          as Hlen.
        { rewrite Hr, !length_app. lia. }
        assert (1 <= List.length g2)%nat as Hg2.
        { destruct g2; [congruence|simpl; lia]. }
        simpl in Hlen.
        destruct (IH (IndentPre.is_line_terminator c)
                     (List.length g1 + List.length g2 + List.length g3 - 1)%nat [])
          as [first [rest [Heq Hle]]]; [lia|].
        exists (rev cur), (g1 :: g2 :: g3 :: first :: rest).
        split; [rewrite Heq; reflexivity|].
        simpl IndentPre.rewrite_pieces.
        pose proof (rewrite_match_length conf g1 g2 g3) as Hrm.
        rewrite !length_app, length_rev. simpl in Hle |- *. lia.
      * destruct (IH (IndentPre.is_line_terminator c) 0%nat (c :: cur))
          as [first [rest [Heq Hle]]]; [lia|].
        exists first, rest. split; [exact Heq|]. simpl in Hle |- *. lia.
    + simpl. destruct (IH (IndentPre.is_line_terminator c) k cur)
        as [first [rest [Heq Hle]]]; [simpl in Hskip; lia|].
      exists first, rest. split; [exact Heq|]. simpl. lia.
Qed.

Lemma indent_pre_strip_length (conf : IndentPre.Config) (out : jstr) :
  (List.length (IndentPre.stripUnnecessaryIndentPreNowikis conf out)
   <= List.length out)%nat.
Proof.
  unfold IndentPre.stripUnnecessaryIndentPreNowikis.
  destruct (split_go_lengths conf out true (skip := 0) [])
    as [first [rest [Heq Hle]]]; [lia|].
  rewrite Heq, length_app. simpl in Hle. lia.
Qed.

(** *** The end of serializeDOM *)

Section Passes.

Variables Node Hidden : Type.
Variable conf : IndentPre.Config.

Lemma set_out_same (st : SerializerState Node Hidden) : set_out (out st) st = st.
Proof. destruct st. reflexivity. Qed.

(** X4.  Whatever the flags and the configuration, the three post-passes
    leave a buffer alone that holds no opening nowiki tag (in any letter
    case): the state comes back as it was. *)
Theorem passes_spare_nowiki_free_text (st : SerializerState Node Hidden) :
  mentions_nowiki (out st) = false -> strip_passes conf st = st.
Proof.
  intros H. unfold strip_passes.
  destruct (hasIndentPreNowikis st).
  - rewrite nowiki_free_indent_pre by exact H. rewrite set_out_same.
    destruct (hasQuoteNowikis st).
    + rewrite nowiki_free_quote by exact H. rewrite set_out_same.
      destruct (hasSelfClosingNowikis st || selserMode st); [|reflexivity].
      rewrite nowiki_free_trailing by exact H. apply set_out_same.
    + destruct (hasSelfClosingNowikis st || selserMode st); [|reflexivity].
      rewrite nowiki_free_trailing by exact H. apply set_out_same.
  - destruct (hasQuoteNowikis st).
    + rewrite nowiki_free_quote by exact H. rewrite set_out_same.
      destruct (hasSelfClosingNowikis st || selserMode st); [|reflexivity].
      rewrite nowiki_free_trailing by exact H. apply set_out_same.
    + destruct (hasSelfClosingNowikis st || selserMode st); [|reflexivity].
      rewrite nowiki_free_trailing by exact H. apply set_out_same.
Qed.

(** X5.  In selser mode, or when self-closing nowikis were emitted, what
    the post-passes leave in the buffer has no trailing nowiki left to
    strip: the trailing strip run once more changes nothing. *)
Theorem passes_leave_no_trailing_nowiki (st : SerializerState Node Hidden) :
  hasSelfClosingNowikis st || selserMode st = true ->
  stripTrailingNowikis (out (strip_passes conf st)) = out (strip_passes conf st).
Proof.
  intros H.
  assert (forall o, stripTrailingNowikis (stripTrailingNowikis o)
                    = stripTrailingNowikis o) as Htwice.
  { intros o. unfold stripTrailingNowikis. rewrite strip_piece_lines, map_map.
    f_equal. apply map_ext. intros piece. apply strip_piece_idempotent. }
  unfold strip_passes.
  set (st1 := if hasIndentPreNowikis st
              then set_out (IndentPre.stripUnnecessaryIndentPreNowikis conf (out st)) st
              else st).
  set (st2 := if hasQuoteNowikis st1
              then set_out (stripUnnecessaryQuoteNowikis (out st1)) st1
              else st1).
  assert (hasSelfClosingNowikis st2 || selserMode st2 = true) as ->.
  { rewrite <- H. subst st2 st1.
    destruct (hasIndentPreNowikis st); destruct (hasQuoteNowikis _); reflexivity. }
  apply Htwice.
Qed.

(** X6.  The post-passes only take text away: the buffer they leave is
    never longer than the buffer they were given. *)
Theorem passes_never_lengthen (st : SerializerState Node Hidden) :
  (List.length (out (strip_passes conf st)) <= List.length (out st))%nat.
Proof.
  unfold strip_passes.
  set (st1 := if hasIndentPreNowikis st
              then set_out (IndentPre.stripUnnecessaryIndentPreNowikis conf (out st)) st
              else st).
  assert (List.length (out st1) <= List.length (out st))%nat as H1.
  { subst st1. destruct (hasIndentPreNowikis st); [|lia].
    simpl. apply indent_pre_strip_length. }
  set (st2 := if hasQuoteNowikis st1
              then set_out (stripUnnecessaryQuoteNowikis (out st1)) st1
              else st1).
  assert (List.length (out st2) <= List.length (out st1))%nat as H2.
  { subst st2. destruct (hasQuoteNowikis st1); [|lia].
    simpl. apply quote_strip_length. }
  destruct (hasSelfClosingNowikis st2 || selserMode st2).
  - simpl. pose proof (trailing_strip_length (out st2)). lia.
  - lia.
Qed.

End Passes.

End PostPassWhole.

(** ** The expressions applied to text nodes and attribute values *)

Module ScanFacts.
Import WTS.
Local Open Scope N_scope.

(** *** Blank lines *)

Lemma blank_lines_len_ge (s : jstr) : forall p a,
  (a <= blank_lines_len s p a)%nat.
Proof.
  induction s as [|c s IH]; intros p a; simpl; [lia|].
  destruct (c =? ch_nl).
  - specialize (IH 0%nat (a + p + 1)%nat). lia.
  - destruct (is_blank c); [apply IH|lia].
Qed.

(** Whether a blank line starts here does not depend on the counters. *)
Lemma blank_lines_len_pos (s : jstr) : forall p a,
  (a <? blank_lines_len s p a)%nat = (0 <? blank_lines_len s 0 0)%nat.
Proof.
  induction s as [|c s IH]; intros p a; simpl.
  - rewrite Nat.ltb_irrefl. reflexivity.
  - destruct (c =? ch_nl).
    + pose proof (blank_lines_len_ge s 0 (a + p + 1)).
      pose proof (blank_lines_len_ge s 0 1).
      transitivity true; [apply Nat.ltb_lt; lia|symmetry; apply Nat.ltb_lt; lia].
    + destruct (is_blank c).
      * rewrite (IH (S p) a), (IH 1%nat 0%nat). reflexivity.
      * rewrite Nat.ltb_irrefl. reflexivity.
Qed.

Lemma blank_start_cons (c : N) (s : jstr) :
  (0 <? blank_lines_len (c :: s) 0 0)%nat =
  if c =? ch_nl then true
  else if is_blank c then (0 <? blank_lines_len s 0 0)%nat else false.
Proof.
  simpl. destruct (c =? ch_nl).
  - pose proof (blank_lines_len_ge s 0 1). apply Nat.ltb_lt. lia.
  - destruct (is_blank c); [apply (blank_lines_len_pos s 1 0)|reflexivity].
Qed.

(** The greedy repetition stops where no further blank line starts. *)
Lemma blank_lines_len_rest (s : jstr) : forall p a,
  blank_lines_len s p a = a \/
  ((a + p < blank_lines_len s p a)%nat /\
   (blank_lines_len s p a - a - p <= List.length s)%nat /\
   (0 <? blank_lines_len (skipn (blank_lines_len s p a - a - p) s) 0 0)%nat = false).
Proof.
  induction s as [|c s IH]; intros p a; simpl blank_lines_len; [left; reflexivity|].
  destruct (c =? ch_nl).
  - right. pose proof (blank_lines_len_ge s 0 (a + p + 1)) as Hge.
    destruct (IH 0%nat (a + p + 1)%nat) as [Heq|[Hlt [Hlen Hrest]]].
    + rewrite Heq. split; [lia|]. split; [simpl; lia|].
      replace (a + p + 1 - a - p)%nat with 1%nat by lia. simpl skipn.
      rewrite <- (blank_lines_len_pos s 0 (a + p + 1)), Heq.
      apply Nat.ltb_irrefl.
    + split; [lia|]. split; [simpl; lia|].
      replace (blank_lines_len s 0 (a + p + 1) - a - p)%nat
        with (S (blank_lines_len s 0 (a + p + 1) - (a + p + 1) - 0)) by lia.
      exact Hrest.
  - destruct (is_blank c); [|left; reflexivity].
    destruct (IH (S p) a) as [Heq|[Hlt [Hlen Hrest]]]; [left; exact Heq|].
    right. split; [lia|]. split; [simpl; lia|].
    replace (blank_lines_len s (S p) a - a - p)%nat
      with (S (blank_lines_len s (S p) a - a - S p)) by lia.
    exact Hrest.
Qed.

Lemma blank_run_rest (s : jstr) :
  (blank_lines_len s 0 0 <= List.length s)%nat /\
  (0 <? blank_lines_len (skipn (blank_lines_len s 0 0) s) 0 0)%nat = false.
Proof.
  destruct (blank_lines_len_rest s 0 0) as [Heq|[Hlt [Hlen Hrest]]].
  - rewrite Heq. split; [lia|]. simpl skipn. rewrite Heq. reflexivity.
  - rewrite !Nat.sub_0_r in *. split; assumption.
Qed.

Lemma collapse_newlines_skip (s : jstr) : forall k,
  (k <= List.length s)%nat ->
  collapse_newlines s k = collapse_newlines (skipn k s) 0.
Proof.
  induction s as [|c s IH]; intros k Hk.
  - destruct k; reflexivity.
  - destruct k as [|k]; [reflexivity|]. simpl in Hk |- *. apply IH. lia.
Qed.

Lemma collapse_keeps_no_blank_start (s : jstr) :
  (0 <? blank_lines_len s 0 0)%nat = false ->
  (0 <? blank_lines_len (collapse_newlines s 0) 0 0)%nat = false.
Proof.
  induction s as [|c s IH]; intros H; [reflexivity|].
  rewrite blank_start_cons in H.
  destruct (c =? ch_nl) eqn:Ec; [discriminate|].
  change (collapse_newlines (c :: s) 0)
    with (if (c =? ch_nl) && (0 <? blank_lines_len s 0 0)%nat
          then ch_nl :: collapse_newlines s (blank_lines_len s 0 0)
          else c :: collapse_newlines s 0).
  rewrite Ec. simpl andb. cbv iota.
  rewrite blank_start_cons, Ec.
  destruct (is_blank c); [apply IH; exact H|reflexivity].
Qed.

Lemma collapse_leaves_no_blank_line (n : nat) : forall s,
  (List.length s <= n)%nat ->
  doubleNewlineCount (collapse_newlines s 0) 0 = 0%nat.
Proof.
  induction n as [|n IH]; intros s Hn.
  - destruct s; [reflexivity|simpl in Hn; lia].
  - destruct s as [|c s]; [reflexivity|]. simpl in Hn.
    change (collapse_newlines (c :: s) 0)
      with (if (c =? ch_nl) && (0 <? blank_lines_len s 0 0)%nat
            then ch_nl :: collapse_newlines s (blank_lines_len s 0 0)
            else c :: collapse_newlines s 0).
    destruct ((c =? ch_nl) && (0 <? blank_lines_len s 0 0)%nat) eqn:E.
    + destruct (blank_run_rest s) as [Hlen Hrest].
      rewrite collapse_newlines_skip by exact Hlen.
      set (o := collapse_newlines (skipn (blank_lines_len s 0 0) s) 0).
      change (doubleNewlineCount (ch_nl :: o) 0)
        with (if (ch_nl =? ch_nl) && (0 <? blank_lines_len o 0 0)%nat
              then S (doubleNewlineCount o (blank_lines_len o 0 0))
              else doubleNewlineCount o 0).
      subst o. rewrite collapse_keeps_no_blank_start by exact Hrest.
      rewrite andb_false_r. apply IH. rewrite length_skipn. lia.
    + set (o := collapse_newlines s 0).
      change (doubleNewlineCount (c :: o) 0)
        with (if (c =? ch_nl) && (0 <? blank_lines_len o 0 0)%nat
              then S (doubleNewlineCount o (blank_lines_len o 0 0))
              else doubleNewlineCount o 0).
      assert ((c =? ch_nl) && (0 <? blank_lines_len o 0 0)%nat = false) as ->.
      { destruct (c =? ch_nl); [|reflexivity]. simpl in E |- *.
        subst o. apply collapse_keeps_no_blank_start. exact E. }
      apply IH. lia.
Qed.

(** X9.  Collapsing is complete: in what [replace(doubleNewlineRE_G, '\n')]
    returns, the expression [doubleNewlineRE_G] matches nowhere, that is, no
    newline is followed by a line of blanks. *)
Theorem collapsed_text_has_no_blank_line (s : jstr) :
  doubleNewlineCount (collapse_newlines s 0) 0 = 0%nat.
Proof. apply collapse_leaves_no_blank_line with (n := List.length s). lia. Qed.

(** *** Parsoid-generated types *)

Lemma space_not_letter (c d : N) :
  is_space d = true -> is_space c = false -> (c =? d) = false.
Proof.
  intros Hd Hc. destruct (N.eqb_spec c d); [|reflexivity]. congruence.
Qed.

Lemma head_space_cons (c : N) (s : jstr) :
  forallb is_space (firstn 1 (c :: s)) = true -> is_space c = true.
Proof. simpl. rewrite andb_true_r. trivial. Qed.

Lemma span_nonspace_fst (s : jstr) :
  forallb (fun c => negb (is_space c)) (fst (span (fun c => negb (is_space c)) s))
  = true.
Proof.
  induction s as [|c s IH]; simpl; [reflexivity|].
  destruct (is_space c) eqn:E; simpl; [reflexivity|].
  destruct (span (fun c => negb (is_space c)) s) as [a b]. simpl in *.
  rewrite E, IH. reflexivity.
Qed.

Lemma span_nonspace_snd (s : jstr) :
  forallb is_space (firstn 1 (snd (span (fun c => negb (is_space c)) s))) = true.
Proof.
  induction s as [|c s IH]; simpl; [reflexivity|].
  destruct (is_space c) eqn:E; simpl.
  - rewrite E. reflexivity.
  - destruct (span (fun c => negb (is_space c)) s) as [a b]. exact IH.
Qed.

Lemma span_nonspace_app (u v : jstr) :
  forallb (fun c => negb (is_space c)) u = true ->
  forallb is_space (firstn 1 v) = true ->
  span (fun c => negb (is_space c)) (u ++ v) = (u, v).
Proof.
  intros Hu Hv. induction u as [|c u IH]; simpl.
  - destruct v as [|d v]; [reflexivity|].
    apply head_space_cons in Hv. simpl. rewrite Hv. reflexivity.
  - simpl in Hu. apply andb_true_iff in Hu. destruct Hu as [Hc Hu].
    rewrite Hc, (IH Hu). reflexivity.
Qed.

Lemma strip_prefix_head_space (a : N) (lit v : jstr) :
  is_space a = false ->
  forallb is_space (firstn 1 v) = true ->
  strip_prefix (a :: lit) v = None.
Proof.
  intros Ha Hv. destruct v as [|d v]; [reflexivity|].
  apply head_space_cons in Hv. simpl.
  rewrite (@space_not_letter a d Hv Ha). reflexivity.
Qed.

Lemma strip_prefix_cons (a b : N) (lit s : jstr) :
  strip_prefix (a :: lit) (b :: s) = if a =? b then strip_prefix lit s else None.
Proof. reflexivity. Qed.

Lemma strip_prefix_nil (s : jstr) : strip_prefix [] s = Some s.
Proof. destruct s; reflexivity. Qed.

(** What [mw_here] finds depends on the run of non-space code units at
    the head only. *)
Lemma mw_here_run (u v v' : jstr) :
  forallb (fun c => negb (is_space c)) u = true ->
  forallb is_space (firstn 1 v) = true ->
  forallb is_space (firstn 1 v') = true ->
  mw_here (u ++ v) = mw_here (u ++ v').
Proof.
  intros Hu Hv Hv'. unfold mw_here. change (js "mw:") with [109; 119; 58].
  destruct u as [|a [|b [|c u]]].
  - change ([] ++ v) with v. change ([] ++ v') with v'.
    rewrite !strip_prefix_head_space by (reflexivity || assumption). reflexivity.
  - change ([a] ++ v) with (a :: v). change ([a] ++ v') with (a :: v').
    rewrite !strip_prefix_cons.
    destruct (109 =? a); [|reflexivity].
    rewrite !strip_prefix_head_space by (reflexivity || assumption). reflexivity.
  - change ([a; b] ++ v) with (a :: b :: v). change ([a; b] ++ v') with (a :: b :: v').
    rewrite !strip_prefix_cons.
    destruct (109 =? a); [|reflexivity]. destruct (119 =? b); [|reflexivity].
    rewrite !strip_prefix_head_space by (reflexivity || assumption). reflexivity.
  - change ((a :: b :: c :: u) ++ v) with (a :: b :: c :: u ++ v).
    change ((a :: b :: c :: u) ++ v') with (a :: b :: c :: u ++ v').
    rewrite !strip_prefix_cons.
    destruct (109 =? a); [|reflexivity]. destruct (119 =? b); [|reflexivity].
    destruct (58 =? c); [|reflexivity].
    assert (forallb (fun c => negb (is_space c)) u = true) as Hu'.
    { simpl in Hu. repeat (apply andb_true_iff in Hu; destruct Hu as [_ Hu]). exact Hu. }
    rewrite !strip_prefix_nil.
    rewrite !span_nonspace_app by assumption. reflexivity.
Qed.

Lemma mw_here_sound (s : jstr) (n : nat) :
  mw_here s = Some n ->
  (1 <= n <= List.length s)%nat /\
  forallb is_space (firstn 1 (skipn n s)) = true.
Proof.
  unfold mw_here.
  destruct (strip_prefix (js "mw:") s) as [r|] eqn:E; [|discriminate].
  apply strip_prefix_sound in E. subst s.
  pose proof (span_app (fun c => negb (is_space c)) r) as Hsp.
  pose proof (span_nonspace_snd r) as Hsnd.
  destruct (span (fun c => negb (is_space c)) r) as [a b].
  cbn [fst snd] in *. subst r.
  destruct (0 <? List.length a)%nat; [|discriminate].
  intros H. inversion H; subst; clear H.
  assert (skipn (3 + List.length a) (js "mw:" ++ a ++ b) = b) as Hsk.
  { change (skipn (3 + List.length a) (js "mw:" ++ a ++ b))
      with (skipn (List.length a) (a ++ b)).
    rewrite skipn_app, skipn_all, Nat.sub_diag. reflexivity. }
  split.
  - rewrite !length_app. change (List.length (js "mw:")) with 3%nat. lia.
  - match goal with
    | |- forallb is_space (firstn 1 (skipn ?k ?l)) = true =>
        replace (skipn k l) with b by (symmetry; exact Hsk)
    end.
    exact Hsnd.
Qed.

Lemma mw_match_len_sound (b : bool) (s : jstr) (n : nat) :
  mw_match_len b s = Some n ->
  (1 <= n <= List.length s)%nat /\
  forallb is_space (firstn 1 (skipn n s)) = true.
Proof.
  unfold mw_match_len, orelse.
  destruct (if b then mw_here s else None) as [m|] eqn:E1.
  - intros H. inversion H; subst. destruct b; [|discriminate].
    apply mw_here_sound. exact E1.
  - destruct s as [|c s]; [discriminate|].
    destruct (is_space c); [|discriminate].
    destruct (mw_here s) as [m|] eqn:E2; [|discriminate].
    intros H. inversion H; subst. apply mw_here_sound in E2.
    simpl. split; [lia|tauto].
Qed.

Lemma replace_mw_skip (s : jstr) : forall k,
  (k <= List.length s)%nat ->
  replace_mw s false k = replace_mw (skipn k s) false 0.
Proof.
  induction s as [|c s IH]; intros k Hk.
  - destruct k; reflexivity.
  - destruct k as [|k]; [reflexivity|]. simpl in Hk |- *. apply IH. lia.
Qed.

Lemma replace_mw_step (b : bool) (c : N) (s : jstr) :
  replace_mw (c :: s) b 0 =
  match mw_match_len b (c :: s) with
  | Some n => replace_mw (skipn n (c :: s)) false 0
  | None => c :: replace_mw s false 0
  end.
Proof.
  change (replace_mw (c :: s) b 0) with
    (match mw_match_len b (c :: s) with
     | Some n => replace_mw s false (n - 1)
     | None => c :: replace_mw s false 0
     end).
  destruct (mw_match_len b (c :: s)) as [n|] eqn:E; [|reflexivity].
  apply mw_match_len_sound in E. destruct E as [[H1 H2] _]. simpl in H2.
  rewrite replace_mw_skip by lia.
  destruct n as [|n]; [lia|]. simpl. rewrite Nat.sub_0_r. reflexivity.
Qed.

Lemma replace_mw_head_space (n : nat) : forall s,
  (List.length s <= n)%nat ->
  forallb is_space (firstn 1 s) = true ->
  forallb is_space (firstn 1 (replace_mw s false 0)) = true.
Proof.
  induction n as [|n IH]; intros s Hn Hs.
  - destruct s; [reflexivity|simpl in Hn; lia].
  - destruct s as [|c s]; [reflexivity|]. rewrite replace_mw_step.
    destruct (mw_match_len false (c :: s)) as [m|] eqn:E.
    + apply mw_match_len_sound in E. destruct E as [[H1 H2] H3].
      apply IH; [|exact H3]. rewrite length_skipn. cbn [List.length] in *. lia.
    + exact Hs.
Qed.

Lemma replace_mw_run (s : jstr) :
  replace_mw s false 0 =
  fst (span (fun c => negb (is_space c)) s)
  ++ replace_mw (snd (span (fun c => negb (is_space c)) s)) false 0.
Proof.
  induction s as [|c s IH]; [reflexivity|].
  simpl span. destruct (is_space c) eqn:E; simpl negb; cbv iota.
  - reflexivity.
  - rewrite replace_mw_step.
    assert (mw_match_len false (c :: s) = None) as ->.
    { unfold mw_match_len, orelse. rewrite E. reflexivity. }
    destruct (span (fun c => negb (is_space c)) s) as [a b]. simpl in *.
    rewrite IH. reflexivity.
Qed.

Lemma mw_match_len_replaced (b : bool) (c : N) (s : jstr) :
  mw_match_len b (c :: replace_mw s false 0) = mw_match_len b (c :: s).
Proof.
  rewrite replace_mw_run.
  pose proof (span_app (fun c => negb (is_space c)) s) as Hsp.
  pose proof (span_nonspace_fst s) as Hu.
  pose proof (span_nonspace_snd s) as Hv.
  destruct (span (fun c => negb (is_space c)) s) as [u v]. cbn [fst snd] in *.
  assert (forallb is_space (firstn 1 (replace_mw v false 0)) = true) as Hv'.
  { apply replace_mw_head_space with (n := List.length v); [lia|exact Hv]. }
  rewrite <- Hsp. unfold mw_match_len. f_equal.
  - destruct b; [|reflexivity].
    destruct (is_space c) eqn:E.
    + unfold mw_here. change (js "mw:") with [109; 119; 58].
      change (c :: u ++ replace_mw v false 0) with (c :: (u ++ replace_mw v false 0)).
      rewrite !strip_prefix_cons.
      rewrite (@space_not_letter 109 c E eq_refl). reflexivity.
    + apply (@mw_here_run (c :: u)); [simpl; rewrite E, Hu; reflexivity| |]; assumption.
  - destruct (is_space c); [|reflexivity]. f_equal.
    apply mw_here_run; assumption.
Qed.

Lemma has_mw_head_space (o : jstr) :
  forallb is_space (firstn 1 o) = true -> has_mw o true = has_mw o false.
Proof.
  intros H. destruct o as [|c o]; [reflexivity|].
  apply head_space_cons in H.
  assert (mw_match_len true (c :: o) = mw_match_len false (c :: o)) as Heq.
  { unfold mw_match_len. f_equal. unfold mw_here.
    change (js "mw:") with [109; 119; 58]. rewrite strip_prefix_cons.
    rewrite (@space_not_letter 109 c H eq_refl). reflexivity. }
  simpl. rewrite Heq. reflexivity.
Qed.

Lemma replace_mw_complete (n : nat) : forall s b,
  (List.length s <= n)%nat -> has_mw (replace_mw s b 0) b = false.
Proof.
  induction n as [|n IH]; intros s b Hn.
  - destruct s; [destruct b; reflexivity|simpl in Hn; lia].
  - destruct s as [|c s]; [destruct b; reflexivity|].
    rewrite replace_mw_step.
    destruct (mw_match_len b (c :: s)) as [m|] eqn:E.
    + apply mw_match_len_sound in E. destruct E as [[H1 H2] H3].
      assert (List.length (skipn m (c :: s)) <= n)%nat as Hlen.
      { rewrite length_skipn. cbn [List.length] in *. lia. }
      destruct b; [|apply IH; exact Hlen].
      rewrite has_mw_head_space; [apply IH; exact Hlen|].
      apply replace_mw_head_space with (n := n); assumption.
    + change (has_mw (c :: replace_mw s false 0) b) with
        (match mw_match_len b (c :: replace_mw s false 0) with
         | Some _ => true
         | None => has_mw (replace_mw s false 0) false
         end).
      rewrite mw_match_len_replaced, E. apply IH. simpl in Hn. lia.
Qed.

Section Attributes.

Variables Node Doc CT Hidden : Type.
Variable dom : DOMApi Node Doc.
Variable DU : DOMUtils Node.
Variable U : Utils.
Variable X : Externals Node Doc CT Hidden.

(** X12.  A typeof value is stripped of its Parsoid-generated types for
    good: in what [replace] leaves the expression matches nowhere.  For a
    [typeof] attribute whose value holds such a type the loop of
    [_serializeAttributes] therefore emits the attribute with a value free
    of them, or nothing when no other type is left, and logs nothing.  An
    [about] attribute whose value is a Parsoid-generated id is dropped. *)
Theorem parsoid_generated_values_are_stripped (node : Node) (token : Token)
    (acc : list jstr) (kv : KV) (w : World Node CT Hidden) :
  let v := re_strip TypeofRE (kv_v kv) in
  re_matches TypeofRE v = false /\
  (kv_k kv = js "typeof" -> re_matches TypeofRE (kv_v kv) = true ->
   serialize_attribute dom DU U X node token acc kv w =
     (if nonempty v then acc ++ [attr_string (js "typeof") v] else acc, w)) /\
  (kv_k kv = js "about" -> re_matches AboutRE (kv_v kv) = true ->
   serialize_attribute dom DU U X node token acc kv w = (acc, w)).
Proof.
  intros v. split; [|split].
  - subst v. simpl. apply replace_mw_complete with (n := List.length (kv_v kv)). lia.
  - intros Hk Hm. unfold serialize_attribute. rewrite Hk.
    change (set_has IGNORED_ATTRIBUTES (js "typeof")
            || jstr_eqb (js "typeof") (js "data-mw")) with false.
    change (jstr_eqb (js "typeof") (js "id")) with false.
    change (PARSOID_ATTRIBUTES_get (js "typeof")) with (Some TypeofRE).
    cbv iota. simpl andb. cbv iota. rewrite Hm. fold v.
    destruct (nonempty v); reflexivity.
  - intros Hk Hm. unfold serialize_attribute. rewrite Hk.
    change (set_has IGNORED_ATTRIBUTES (js "about")
            || jstr_eqb (js "about") (js "data-mw")) with false.
    change (jstr_eqb (js "about") (js "id")) with false.
    change (PARSOID_ATTRIBUTES_get (js "about")) with (Some AboutRE).
    cbv iota. simpl andb. cbv iota. rewrite Hm.
    change (re_matches AboutRE (kv_v kv)) with (about_matches (kv_v kv)) in Hm.
    unfold re_strip. rewrite Hm. reflexivity.
Qed.

End Attributes.

End ScanFacts.

(** ** What reaches emitChunk for text *)

Module TextEmission.
Import WTS WTSMore WalkerFacts PostPassLines.
Local Open Scope N_scope.

(** *** The separator expressions *)

Lemma span_fst_forall (p : N -> bool) (s : jstr) :
  forallb p (fst (span p s)) = true.
Proof.
  induction s as [|c s IH]; simpl; [reflexivity|].
  destruct (p c) eqn:E; [|reflexivity].
  destruct (span p s) as [a b]. simpl in *. rewrite E, IH. reflexivity.
Qed.

Lemma blanks_are_spaces (a : jstr) :
  forallb is_blank a = true -> forallb is_space a = true.
Proof.
  induction a as [|c a IH]; simpl; [reflexivity|].
  intros H. apply andb_true_iff in H. destruct H as [Hc Ha].
  rewrite (IH Ha), andb_true_r.
  unfold is_blank in Hc. apply orb_true_iff in Hc.
  destruct Hc as [Hc|Hc]; apply N.eqb_eq in Hc; subst c; reflexivity.
Qed.

(** The match of [sepSuffixWithNlsRE] is a newline and white space up to
    the end, and what stands before it has no such suffix. *)
Lemma sepSuffix_sound (s : jstr) : forall b m,
  sepSuffixWithNls s = Some (b, m) ->
  s = b ++ m /\
  (exists t, m = ch_nl :: t /\ forallb is_space t = true) /\
  sepSuffixWithNls b = None.
Proof.
  induction s as [|c s IH]; intros b m H; simpl in H; [discriminate|].
  destruct ((c =? ch_nl) && forallb is_space s) eqn:E.
  - inversion H; subst; clear H. apply andb_true_iff in E. destruct E as [Ec Es].
    apply N.eqb_eq in Ec. subst c.
    split; [reflexivity|]. split; [|reflexivity].
    exists s. split; [reflexivity|exact Es].
  - destruct (sepSuffixWithNls s) as [[b' m']|] eqn:E'; [|discriminate].
    inversion H; subst; clear H.
    destruct (IH b' m eq_refl) as [Hs [[t [Hm Ht]] Hb]].
    split; [simpl; f_equal; exact Hs|]. split; [exists t; split; assumption|].
    simpl. rewrite Hb.
    destruct ((c =? ch_nl) && forallb is_space b') eqn:E2; [|reflexivity].
    exfalso. apply andb_true_iff in E2. destruct E2 as [Ec Eb].
    rewrite Ec in E. simpl in E. rewrite Hs, forallb_app, Eb, Hm in E.
    simpl in E. rewrite Ht in E. discriminate.
Qed.

(** What [sepPrefixWithNlsRE] takes away is white space. *)
Lemma strip_sepPrefix_sound (s : jstr) :
  exists lead, s = lead ++ strip_sepPrefixWithNls s /\ forallb is_space lead = true.
Proof.
  unfold strip_sepPrefixWithNls.
  pose proof (span_app is_blank s) as Hsp.
  pose proof (span_fst_forall is_blank s) as Hbl.
  destruct (span is_blank s) as [bl rest]. cbn [fst snd] in *.
  destruct rest as [|c r].
  - exists []. split; reflexivity.
  - destruct (c =? ch_nl).
    + destruct (skip_spaces_split (c :: r)) as [a [Ha Hsa]].
      exists (bl ++ a). split.
      * rewrite <- app_assoc, <- Ha. symmetry. exact Hsp.
      * rewrite forallb_app, (blanks_are_spaces _ Hbl), Hsa. reflexivity.
    + exists []. split; reflexivity.
Qed.

Section Emission.

Variables Node Doc CT Hidden : Type.
Variable dom : DOMApi Node Doc.
Variable DU : DOMUtils Node.
Variable U : Utils.
Variable X : Externals Node Doc CT Hidden.

Lemma move_trailing_newlines_events (node : Node) (o : option (jstr * jstr))
    (w : World Node CT Hidden) :
  events (snd (move_trailing_newlines X node o w)) = events w.
Proof.
  unfold move_trailing_newlines. destruct o as [[b m]|]; [|reflexivity].
  unfold bind, getState, modifyState, modify, ret. simpl.
  destruct (sep_src_truthy (state w)); reflexivity.
Qed.

Lemma move_trailing_newlines_state (node : Node) (b m : jstr)
    (w : World Node CT Hidden) :
  state (snd (move_trailing_newlines X node (Some (b, m)) w)) =
  if sep_src_truthy (state w) then state w
  else updateSep X node (setSep X m (state w)).
Proof.
  unfold move_trailing_newlines.
  unfold bind, getState, modifyState, modify, ret. simpl.
  destruct (sep_src_truthy (state w)); reflexivity.
Qed.

(** X10.  [emitWikitext] takes nothing but white space from the two ends
    of the text: the text is a run of white space, the one chunk that is
    emitted, and a run of white space.  The chunk is emitted in the state
    the function was entered in and has no newline-and-white-space suffix
    left; the trailing run becomes the source of the separator, and is
    dropped when the separator has a source already. *)
Theorem emitWikitext_trims_white_space (text : jstr) (node : Node)
    (w : World Node CT Hidden) :
  exists lead chunk trail,
    text = lead ++ chunk ++ trail /\
    forallb is_space lead = true /\
    forallb is_space trail = true /\
    sepSuffixWithNls chunk = None /\
    events (snd (emitWikitext X text node w))
      = events w ++ [EvEmitChunk (ChunkString chunk) node (state w)] /\
    state (snd (emitWikitext X text node w))
      = let st1 := SS_emitChunk X (ChunkString chunk) node (state w) in
        if nonempty trail && negb (sep_src_truthy st1)
        then updateSep X node (setSep X trail st1)
        else st1.
Proof.
  destruct (strip_sepPrefix_sound text) as [lead [Htext Hlead]].
  destruct (sepSuffixWithNls (strip_sepPrefixWithNls text)) as [[b m]|] eqn:E.
  - destruct (sepSuffix_sound _ E) as [Hs [[t [Hm Ht]] Hb]].
    exists lead, b, m.
    split; [rewrite <- Hs; exact Htext|].
    split; [exact Hlead|].
    split; [rewrite Hm; simpl; rewrite Ht; reflexivity|].
    split; [exact Hb|].
    assert (emitWikitext X text node w =
            move_trailing_newlines X node (Some (b, m))
              {| state := SS_emitChunk X (ChunkString b) node (state w);
                 events := events w
                           ++ [EvEmitChunk (ChunkString b) node (state w)] |})
      as Heq.
    { unfold emitWikitext. rewrite E. reflexivity. }
    rewrite Heq, move_trailing_newlines_events, move_trailing_newlines_state.
    cbn [state events]. split; [reflexivity|]. rewrite Hm. cbn [nonempty andb].
    destruct (sep_src_truthy _); reflexivity.
  - exists lead, (strip_sepPrefixWithNls text), [].
    split; [rewrite app_nil_r; exact Htext|].
    split; [exact Hlead|]. split; [reflexivity|]. split; [exact E|].
    unfold emitWikitext. rewrite E. split; reflexivity.
Qed.

(** X8.  Inside a pre (indent-pre or HTML pre) a text node is not
    collapsed: its value is a run of white space (empty in an indent-pre),
    the text whose entity-escaped form is the one chunk emitted, and a run
    of white space. *)
Theorem pre_text_is_only_trimmed (node : Node) (w : World Node CT Hidden) :
  inIndentPre (state w) || inHTMLPre (state w) = true ->
  exists lead body trail,
    nodeValue dom node = lead ++ body ++ trail /\
    forallb is_space lead = true /\
    forallb is_space trail = true /\
    (inIndentPre (state w) = true -> lead = []) /\
    emitted (events (snd (_serializeTextNode dom DU U X node w)))
      = emitted (events w) ++ [(ChunkString (escapeEntities U body), node)].
Proof.
  intros Hpre.
  assert (
    emitted (events (snd (_serializeTextNode dom DU U X node w)))
    = emitted (events w)
      ++ [(ChunkString (text_to_emit dom DU U node (state w) (nodeValue dom node)),
           node)]) as Hev.
  { set (c := @ChunkString CT
                (text_to_emit dom DU U node (state w) (nodeValue dom node))).
    set (entered := set_escapeText (escapeText_for (state w)) (state w)).
    assert (_serializeTextNode dom DU U X node w =
            move_trailing_newlines X node (sepSuffixWithNls (nodeValue dom node))
              {| state := set_escapeText false (SS_emitChunk X c node entered);
                 events := events w ++ [EvEmitChunk c node entered] |}) as Heq.
    { reflexivity. }
    rewrite Heq, move_trailing_newlines_events. cbn [events].
    rewrite emitted_app. reflexivity. }
  rewrite Hev. clear Hev. unfold text_to_emit.
  set (v := nodeValue dom node).
  assert (exists before trail,
            v = before ++ trail /\ forallb is_space trail = true /\
            match sepSuffixWithNls v with
            | Some (b, _) => b
            | None => v
            end = before) as [before [trail [Hv [Htrail Hbefore]]]].
  { destruct (sepSuffixWithNls v) as [[b m]|] eqn:E.
    - destruct (sepSuffix_sound _ E) as [Hs [[t [Hm Ht]] _]].
      exists b, m. split; [exact Hs|]. split; [|reflexivity].
      rewrite Hm. simpl. exact Ht.
    - exists v, []. split; [rewrite app_nil_r; reflexivity|]. split; reflexivity. }
  rewrite Hbefore.
  destruct (inIndentPre (state w)) eqn:Ei.
  - exists [], before, trail. simpl negb. cbv iota.
    repeat split; try assumption; reflexivity.
  - simpl in Hpre. rewrite Hpre. simpl negb. simpl andb. cbv iota.
    destruct (strip_sepPrefix_sound before) as [lead [Hb Hlead]].
    exists lead, (strip_sepPrefixWithNls before), trail.
    split; [rewrite Hv, Hb at 1; rewrite <- app_assoc; reflexivity|].
    split; [exact Hlead|]. split; [exact Htrail|].
    split; [discriminate|reflexivity].
Qed.

End Emission.

End TextEmission.

(** ** The string builders and the walker *)

Module BuilderFacts.
Import WTS WalkerFacts StateFacts EmissionFacts.

Section Facts.

Variables Node Doc CT Hidden : Type.
Variable dom : DOMApi Node Doc.
Variable DU : DOMUtils Node.
Variable U : Utils.
Variable X : Externals Node Doc CT Hidden.

(** *** Attributes and tags *)

Lemma log_quiet (t m : jstr) (w : World Node CT Hidden) :
  emitted (events (snd (log t m w))) = emitted (events w) /\
  handled (events (snd (log t m w))) = handled (events w).
Proof.
  unfold log, record, modify. simpl.
  rewrite emitted_app, handled_app. simpl. rewrite !app_nil_r. auto.
Qed.

Lemma serialize_attribute_quiet (node : Node) (token : Token)
    (acc : list jstr) (kv : KV) (w : World Node CT Hidden) :
  emitted (events (snd (serialize_attribute dom DU U X node token acc kv w)))
    = emitted (events w) /\
  handled (events (snd (serialize_attribute dom DU U X node token acc kv w)))
    = handled (events w).
Proof.
  unfold serialize_attribute.
  destruct (set_has IGNORED_ATTRIBUTES (kv_k kv) || jstr_eqb (kv_k kv) (js "data-mw"));
    [auto|].
  destruct (jstr_eqb (kv_k kv) (js "id") && is_parsoid_id (kv_v kv)).
  - destruct (negb (attr_truthy (getAttribute dom node (js "data-parsoid")))).
    + unfold bind.
      destruct (log_quiet (js "warning/html2wt") (id_warning dom node kv) w) as [He Hh].
      destruct (log (js "warning/html2wt") (id_warning dom node kv) w) as [u w1].
      simpl in *. auto.
    + destruct (negb (modified (getAttributeShadowInfo U token (kv_k kv)))
                && fromsrc (getAttributeShadowInfo U token (kv_k kv))); auto.
  - destruct (PARSOID_ATTRIBUTES_get (kv_k kv)) as [re|]; [|auto].
    destruct (re_matches re (kv_v kv)); [|auto].
    destruct (nonempty (re_strip re (kv_v kv))); auto.
Qed.

Lemma serializeAttributes_quiet (node : Node) (token : Token)
    (w : World Node CT Hidden) :
  emitted (events (snd (_serializeAttributes dom DU U X node token w)))
    = emitted (events w) /\
  handled (events (snd (_serializeAttributes dom DU U X node token w)))
    = handled (events w).
Proof.
  unfold _serializeAttributes, bind, ret.
  assert (forall kvs acc (w : World Node CT Hidden),
    emitted (events (snd (reduce (serialize_attribute dom DU U X node token) kvs acc w)))
      = emitted (events w) /\
    handled (events (snd (reduce (serialize_attribute dom DU U X node token) kvs acc w)))
      = handled (events w)) as Hred.
  { induction kvs as [|kv kvs IH]; intros acc w0; simpl; [auto|].
    unfold bind.
    destruct (serialize_attribute_quiet node token acc kv w0) as [He Hh].
    destruct (serialize_attribute dom DU U X node token acc kv w0) as [acc' w1].
    simpl in *. destruct (IH acc' w1) as [He' Hh']. rewrite He', Hh'. auto. }
  destruct (Hred (attribs token) [] w) as [He Hh].
  destruct (reduce (serialize_attribute dom DU U X node token) (attribs token) [] w).
  exact (conj He Hh).
Qed.

(** X14.  Serializing attributes and tags emits nothing: neither
    [_serializeAttributes] nor [_serializeHTMLTag] nor
    [_serializeHTMLEndTag] calls [emitChunk] or a handler.  The first
    leaves the serializer state alone; of the state the other two change
    the [inHTMLPre] flag at most, which the open tag can only set and the
    close tag can only clear. *)
Theorem tags_and_attributes_only_build_strings (node : Node) (token : Token)
    (wu : bool) (w : World Node CT Hidden) :
  let quiet (w' : World Node CT Hidden) :=
    emitted (events w') = emitted (events w) /\
    handled (events w') = handled (events w) in
  let attrs := snd (_serializeAttributes dom DU U X node token w) in
  let opened := snd (_serializeHTMLTag dom DU U X node wu w) in
  let closed := snd (_serializeHTMLEndTag DU U X node wu w) in
  (quiet attrs /\ state attrs = state w) /\
  (quiet opened /\
   (state opened = state w \/ state opened = set_inHTMLPre true (state w))) /\
  (quiet closed /\
   (state closed = state w \/ state closed = set_inHTMLPre false (state w))).
Proof.
  intros quiet attrs opened closed. subst quiet. cbv beta.
  split; [|split].
  - split; [apply serializeAttributes_quiet|apply serializeAttributes_state].
  - subst opened.
    remember (_serializeHTMLTag dom DU U X node wu w) as r eqn:Hr.
    unfold _serializeHTMLTag in Hr.
    set (w1 := snd (when (jstr_eqb (tk_name (mkTagTk DU node)) (js "pre"))
                      (modifyState (set_inHTMLPre true)) w)) in *.
    assert (events w1 = events w /\
            (state w1 = state w \/ state w1 = set_inHTMLPre true (state w)))
      as [Hev Hst].
    { subst w1. destruct (jstr_eqb (tk_name (mkTagTk DU node)) (js "pre")); simpl; auto. }
    unfold bind at 1 in Hr.
    replace (when (jstr_eqb (tk_name (mkTagTk DU node)) (js "pre"))
               (modifyState (set_inHTMLPre true)) w) with (tt, w1) in Hr.
    2:{ subst w1. destruct (jstr_eqb (tk_name (mkTagTk DU node)) (js "pre")); reflexivity. }
    clearbody w1.
    destruct wu; [subst r; simpl; rewrite Hev; auto|].
    destruct (autoInsertedStart (dataAttribs (mkTagTk DU node)));
      [subst r; simpl; rewrite Hev; auto|].
    unfold bind in Hr.
    pose proof (serializeAttributes_quiet node (mkTagTk DU node) w1) as [He Hh].
    pose proof (serializeAttributes_state dom DU U X node (mkTagTk DU node) w1) as Hs.
    destruct (_serializeAttributes dom DU U X node (mkTagTk DU node) w1) as [sa w2].
    subst r. simpl in *. rewrite He, Hh, Hs, Hev. auto.
  - subst closed. unfold _serializeHTMLEndTag.
    destruct wu; [simpl; auto|].
    destruct (jstr_eqb (tk_name (mkEndTagTk DU node)) (js "pre")); simpl; auto.
Qed.

(** X13.  The open and the close tag of an element agree.  When both are
    serialized anew from tokens of the same name and data, and the name is
    not nowiki: a tag written in the self-closing form (a void element
    without [noClose], or [selfClose]) has no close tag; any other open
    tag ends with a plain [>], and its close tag is the name between [</]
    and [>] unless the end was inserted automatically or the element is
    void. *)
Theorem open_and_close_tags_agree (node : Node) (w w' : World Node CT Hidden) :
  let token := mkTagTk DU node in
  let da := dataAttribs token in
  let name :=
    match srcTagName da with
    | Some (c :: n) => c :: n
    | _ => tk_name token
    end in
  tk_name (mkEndTagTk DU node) = tk_name token ->
  dataAttribs (mkEndTagTk DU node) = da ->
  jstr_eqb (toLowerCase name) (js "nowiki") = false ->
  autoInsertedStart da = false ->
  let opened := fst (_serializeHTMLTag dom DU U X node false w) in
  let closed := fst (_serializeHTMLEndTag DU U X node false w') in
  exists sAttribs,
    (sAttribs = [] \/ exists a, sAttribs = js " " ++ a /\ a <> []) /\
    if (isVoidElement U (tk_name token) && negb (noClose da)) || dp_selfClose da
    then opened = js "<" ++ name ++ sAttribs ++ js " />" /\ closed = []
    else opened = js "<" ++ name ++ sAttribs ++ js ">" /\
         closed = if autoInsertedEnd da || isVoidElement U (tk_name token)
                  then [] else js "</" ++ name ++ js ">".
Proof.
  intros token da name Hname Hda Hnowiki Hstart opened closed.
  assert (closed =
          if negb (autoInsertedEnd da) && negb (isVoidElement U (tk_name token))
             && negb (dp_selfClose da)
          then js "</" ++ name ++ js ">" else []) as Hclosed.
  { subst closed. unfold _serializeHTMLEndTag. rewrite Hname, Hda.
    fold token. fold da. fold name. rewrite Hnowiki.
    destruct (jstr_eqb (tk_name token) (js "pre")); reflexivity. }
  remember (_serializeHTMLTag dom DU U X node false w) as r eqn:Hr.
  unfold _serializeHTMLTag in Hr. fold token in Hr. fold da in Hr.
  unfold bind at 1 in Hr.
  destruct (when (jstr_eqb (tk_name token) (js "pre"))
              (modifyState (set_inHTMLPre true)) w) as [u w1].
  rewrite Hstart in Hr. unfold bind in Hr.
  destruct (_serializeAttributes dom DU U X node token w1) as [sa w2].
  fold name in Hr. rewrite Hnowiki in Hr. unfold ret in Hr.
  subst opened. subst r. cbn [fst].
  exists (if (0 <? List.length sa)%nat then js " " ++ sa else sa).
  split.
  { destruct sa as [|c sa]; [left; reflexivity|].
    right. exists (c :: sa). split; [reflexivity|discriminate]. }
  rewrite Hclosed. clearbody name. clear Hclosed.
  destruct (isVoidElement U (tk_name token)); destruct (noClose da);
    destruct (dp_selfClose da); destruct (autoInsertedEnd da);
    split; reflexivity.
Qed.

(** *** Nodes that are not serialized *)

(** X11.  A comment, a diff-marker meta and a text node that
    [handleSeparatorText] takes for a separator are passed over by
    [_serializeNode]: nothing is handed to [emitChunk], no handler is
    called, and the walk goes on with the next sibling. *)
Theorem separators_and_markers_emit_nothing (node : Node)
    (w : World Node CT Hidden) :
  nodeType dom node = COMMENT_NODE \/
  (nodeType dom node = ELEMENT_NODE /\
   isMarkerMeta DU node (js "mw:DiffMarker") = true) \/
  (nodeType dom node = TEXT_NODE /\
   fst (handleSeparatorText X node (state w)) = true) ->
  let r := _serializeNode dom DU U X node w in
  fst r = Returned (nextSibling dom node) /\
  emitted (events (snd r)) = emitted (events w) /\
  handled (events (snd r)) = handled (events w).
Proof.
  intros H r. subst r. unfold _serializeNode.
  unfold bind at 1. unfold trace, record, modify. cbv beta iota.
  destruct H as [H|[[H Hm]|[H Hs]]]; rewrite H.
  - simpl. rewrite emitted_app, handled_app. simpl. rewrite !app_nil_r. auto.
  - rewrite Hm. simpl. rewrite emitted_app, handled_app. simpl.
    rewrite !app_nil_r. auto.
  - unfold bind, getState. cbn [state].
    destruct (handleSeparatorText X node (state w)) as [isSep st'].
    simpl in Hs. subst isSep. simpl.
    rewrite emitted_app, handled_app. simpl. rewrite !app_nil_r. auto.
Qed.

(** *** The handler call *)

(** X7.  A node that is not reused from source has its handler called
    once.  The handler is told that the wrapper is unmodified only in
    selser mode, outside modified content, for a node that has diff markers
    of which only the subtree changed.  It runs in a state where
    [currNodeUnmodified] is false and, for a node with an inserted diff
    mark in selser mode, [inModifiedContent] is true; that flag is false
    again once the handler has returned, and is left set when the handler
    has no [handle] method and the call throws. *)
Theorem handler_call_of_a_serialized_node (node : Node) (h : Handler Node Hidden)
    (w : World Node CT Hidden) :
  reuses_source dom DU U (state w) node = false ->
  let r := _serializeDOMNode dom DU U X node h w in
  let wu := selser_candidate dom DU U (state w) node
            && wrapper_unmodified dom DU U node in
  let marked := selserMode (state w) && hasInsertedDiffMark DU node in
  let entered :=
    if marked
    then set_inModifiedContent true (set_currNodeUnmodified false (state w))
    else set_currNodeUnmodified false (state w) in
  handled (events (snd r)) = handled (events w) ++ [(h, node, wu)] /\
  (wu = true ->
   selserMode (state w) = true /\ inModifiedContent (state w) = false /\
   hasDiffMarkers DU node = true /\ onlySubtreeChanged DU node = true) /\
  currNodeUnmodified entered = false /\
  (marked = true -> inModifiedContent entered = true) /\
  match handle h with
  | Some f =>
      fst r = Returned (fst (f node entered wu)) /\
      state (snd r) =
        if marked then set_inModifiedContent false (snd (f node entered wu))
        else snd (f node entered wu)
  | None => fst r = Thrown /\ state (snd r) = entered
  end.
Proof.
  intros Hq r wu marked entered.
  split.
  { destruct (serializeDOMNode_handler_events dom DU U X node h w Hq) as [_ [Hh _]].
    exact Hh. }
  split.
  { intros Hwu. subst wu. apply andb_true_iff in Hwu. destruct Hwu as [Hc Hw].
    unfold reuses_source in Hq. rewrite Hc in Hq. simpl in Hq.
    apply negb_false_iff in Hq.
    unfold selser_candidate in Hc. unfold wrapper_unmodified in Hw.
    repeat (apply andb_true_iff in Hc; destruct Hc as [Hc ?]).
    repeat (apply andb_true_iff in Hw; destruct Hw as [Hw ?]).
    repeat split; try assumption.
    apply negb_true_iff. assumption. }
  split; [subst entered; destruct marked; reflexivity|].
  split; [intros Hm; subst entered; rewrite Hm; reflexivity|].
  subst r. unfold _serializeDOMNode, bind, getState. cbn [state].
  unfold reuses_source in Hq. rewrite Hq. fold wu. fold marked.
  unfold when, modifyState, modify, ret, call_handle, bind, record, modify, getState.
  subst entered. destruct marked; destruct (handle h) as [f|]; cbn [state fst snd];
    try (destruct (f node _ wu) as [next st']); cbn [state fst snd]; split; reflexivity.
Qed.

End Facts.

End BuilderFacts.

(** ** Transclusions and extensions *)

Module TransclusionFacts.
Import WTS WTSMore WalkerFacts StateFacts EmissionFacts BuilderFacts.

(** *** Objects used as maps *)

Lemma lookup_in_keys (A : Type) (k : jstr) (m : list (jstr * A)) :
  lookup k m <> None <-> In k (map fst m).
Proof.
  induction m as [|[k0 y] m IH]; simpl; [tauto|].
  destruct (jstr_eqb k0 k) eqn:E.
  - apply jstr_eqb_eq in E. split; [auto|discriminate].
  - rewrite IH. split; [auto|].
    intros [H|H]; [|exact H]. subst. rewrite jstr_eqb_refl in E. discriminate.
Qed.

Lemma set_has_in (s : list jstr) (k : jstr) : set_has s k = true <-> In k s.
Proof.
  unfold set_has. rewrite existsb_exists. split.
  - intros [x [Hin Hx]]. apply jstr_eqb_eq in Hx. subst. exact Hin.
  - intros Hin. exists k. split; [exact Hin|apply jstr_eqb_refl].
Qed.

Section Facts.

Variables Node Doc CT Hidden : Type.
Variable dom : DOMApi Node Doc.
Variable DU : DOMUtils Node.
Variable U : Utils.
Variable X : Externals Node Doc CT Hidden.

(** *** pushArg *)

Lemma get_param_own (k : jstr) (ps : list (jstr * Param)) :
  In k (map fst ps) -> get_param k ps = lookup k ps.
Proof.
  intros Hin. apply lookup_in_keys in Hin. unfold get_param.
  destruct (lookup k ps); [reflexivity|congruence].
Qed.

Lemma get_param_present (k : jstr) (ps : list (jstr * Param)) :
  In k (map fst ps) -> get_param k ps <> None.
Proof.
  intros Hin. rewrite (get_param_own _ _ Hin). apply lookup_in_keys. exact Hin.
Qed.

(** One call of [pushArg] for a key under which something is found appends
    one argument and moves [argIndex] on by one; it logs at most and leaves
    the serializer state alone. *)
Lemma pushArg_effect (ps : list (jstr * Param)) (isTpl : bool) (np n : Z)
    (st : ArgState) (k : jstr) (info : option ParamInfo)
    (w : World Node CT Hidden) :
  let r := pushArg U X ps isTpl np n st k info w in
  state (snd r) = state w /\
  emitted (events (snd r)) = emitted (events w) /\
  handled (events (snd r)) = handled (events w) /\
  argIndexVar (fst r) = (argIndexVar st + 1)%Z /\
  match get_param k ps with
  | Some _ => exists item, argBuf (fst r) = argBuf st ++ [item]
  | None => argBuf (fst r) = argBuf st
  end.
Proof.
  intros r. subst r. unfold pushArg.
  destruct (get_param k ps) as [p|]; [|simpl; auto].
  unfold bind.
  set (w1 := snd (match arg_value X p with
                  | JStr _ => ret tt
                  | _ => log (js "error/html2wt/spec") k
                  end w)).
  assert (state w1 = state w /\ emitted (events w1) = emitted (events w)
          /\ handled (events w1) = handled (events w)) as [Hs [He Hh]].
  { subst w1. destruct (arg_value X p); simpl;
      rewrite ?emitted_app, ?handled_app; simpl; rewrite ?app_nil_r; auto. }
  replace (match arg_value X p with
           | JStr _ => ret tt
           | _ => log (js "error/html2wt/spec") k
           end w) with (tt, w1).
  2:{ subst w1. destruct (arg_value X p); reflexivity. }
  clearbody w1.
  match goal with
  | |- context [arg_spacing ?o k ?i] => destruct (arg_spacing o k i) as [[[s0 s1] s2] s3]
  end.
  match goal with
  | |- context [emitted_as_named p ?e] => destruct (emitted_as_named p e)
  end; simpl; repeat split; try assumption; eexists; reflexivity.
Qed.

Lemma push_old_cons (tpl : Template) (isTpl : bool) (np n : Z)
    (i : ParamInfo) (infos : list ParamInfo) (st : ArgState)
    (w : World Node CT Hidden) :
  push_old_params U X tpl isTpl np n (i :: infos) st w =
  let r1 :=
    match get_param (pi_k i) (params tpl) with
    | Some _ => pushArg U X (params tpl) isTpl np n st (pi_k i) (Some i) w
    | None => (st, w)
    end in
  push_old_params U X tpl isTpl np n infos (fst r1) (snd r1).
Proof.
  unfold push_old_params. cbn [reduce]. unfold bind at 1.
  destruct (get_param (pi_k i) (params tpl)).
  - destruct (pushArg U X (params tpl) isTpl np n st (pi_k i) (Some i) w).
    reflexivity.
  - reflexivity.
Qed.

Lemma push_old_quiet (tpl : Template) (isTpl : bool) (np n : Z)
    (infos : list ParamInfo) : forall (st : ArgState) (w : World Node CT Hidden),
  let r := push_old_params U X tpl isTpl np n infos st w in
  state (snd r) = state w /\
  emitted (events (snd r)) = emitted (events w) /\
  handled (events (snd r)) = handled (events w).
Proof.
  induction infos as [|i infos IH]; intros st w.
  - simpl. auto.
  - rewrite push_old_cons.
    pose proof (pushArg_effect (params tpl) isTpl np n st (pi_k i) (Some i) w)
      as Hpush. cbv zeta in Hpush.
    destruct (get_param (pi_k i) (params tpl)) as [p|].
    + destruct (pushArg U X (params tpl) isTpl np n st (pi_k i) (Some i) w)
        as [st1 w1].
      cbn [fst snd] in Hpush |- *. destruct Hpush as [Hs [He [Hh _]]].
      specialize (IH st1 w1). cbv zeta in IH |- *.
      destruct IH as [Hs' [He' Hh']].
      rewrite Hs', He', Hh'. auto.
    + cbn [fst snd]. apply IH.
Qed.

Lemma push_new_cons (isTpl : bool) (np n : Z) (origKeys : list jstr)
    (k : jstr) (keys : list jstr) (ps : list (jstr * Param)) (st : ArgState)
    (w : World Node CT Hidden) :
  push_new_params U X isTpl np n origKeys (k :: keys) ps st w =
  if negb (set_has origKeys (trim k)) then
    let ps' :=
      if negb (jstr_eqb (trim k) k)
      then match lookup k ps with
           | Some p => assign (trim k) p ps
           | None => ps
           end
      else ps in
    let r1 := pushArg U X ps' isTpl np n st (trim k) None w in
    push_new_params U X isTpl np n origKeys keys ps' (fst r1) (snd r1)
  else push_new_params U X isTpl np n origKeys keys ps st w.
Proof.
  unfold push_new_params. cbn [reduce]. unfold bind at 1.
  destruct (negb (set_has origKeys (trim k))); [|reflexivity].
  unfold bind at 1.
  match goal with
  | |- context [pushArg U X ?a isTpl np n st (trim k) None w] =>
      destruct (pushArg U X a isTpl np n st (trim k) None w)
  end.
  reflexivity.
Qed.

Lemma push_new_quiet (isTpl : bool) (np n : Z) (origKeys : list jstr)
    (keys : list jstr) :
  forall (ps : list (jstr * Param)) (st : ArgState) (w : World Node CT Hidden),
  let r := push_new_params U X isTpl np n origKeys keys ps st w in
  state (snd r) = state w /\
  emitted (events (snd r)) = emitted (events w) /\
  handled (events (snd r)) = handled (events w).
Proof.
  induction keys as [|k keys IH]; intros ps st w.
  - simpl. auto.
  - rewrite push_new_cons.
    destruct (negb (set_has origKeys (trim k))); [|apply IH].
    set (ps' := if negb (jstr_eqb (trim k) k)
                then match lookup k ps with
                     | Some p => assign (trim k) p ps
                     | None => ps
                     end
                else ps).
    clearbody ps'. cbv zeta.
    pose proof (pushArg_effect ps' isTpl np n st (trim k) None w) as Hpush.
    cbv zeta in Hpush.
    destruct (pushArg U X ps' isTpl np n st (trim k) None w) as [st1 w1].
    cbn [fst snd] in Hpush |- *.
    destruct Hpush as [Hs [He [Hh _]]].
    specialize (IH ps' st1 w1). cbv zeta in IH.
    destruct IH as [Hs' [He' Hh']].
    rewrite Hs', He', Hh'. auto.
Qed.

(** *** One transclusion *)

Lemma build_part_quiet (dp : DataParsoid) (buf : jstr) (part : Part)
    (w : World Node CT Hidden) :
  let r := build_part U X dp buf part w in
  state (snd r) = state w /\
  emitted (events (snd r)) = emitted (events w) /\
  handled (events (snd r)) = handled (events w).
Proof.
  destruct part as [s|tpl|]; [simpl; auto| |simpl; auto].
  intros r. subst r. unfold build_part.
  destruct (Z.of_nat (List.length (map fst (params tpl))) =? 0)%Z; [simpl; auto|].
  unfold bind.
  match goal with
  | |- context [push_old_params U X tpl ?isTpl ?np ?n ?infos ?st0 w] =>
      pose proof (push_old_quiet tpl isTpl np n infos st0 w) as Hold;
      destruct (push_old_params U X tpl isTpl np n infos st0 w) as [st1 w1]
  end.
  cbv zeta in Hold. cbn [fst snd] in Hold. destruct Hold as [Hs [He Hh]].
  match goal with
  | |- context [push_new_params U X ?isTpl ?np ?n ?ok ?ks ?ps st1 w1] =>
      pose proof (@push_new_quiet isTpl np n ok ks ps st1 w1) as Hnew;
      destruct (push_new_params U X isTpl np n ok ks ps st1 w1) as [[ps2 st2] w2]
  end.
  cbv zeta in Hnew. cbn [fst snd] in Hnew. destruct Hnew as [Hs' [He' Hh']].
  cbn [fst snd ret]. rewrite Hs', He', Hh'. auto.
Qed.

(** *** The two loops as one pass *)

Lemma pass_cons (ps : list (jstr * Param)) (isTpl : bool) (np n : Z)
    (k : jstr) (info : option ParamInfo)
    (order : list (jstr * option ParamInfo)) (st : ArgState)
    (w : World Node CT Hidden) :
  reduce (one_push U X ps isTpl np n) ((k, info) :: order) st w =
  let r := pushArg U X ps isTpl np n st k info w in
  reduce (one_push U X ps isTpl np n) order (fst r) (snd r).
Proof.
  cbn [reduce]. unfold bind.
  change (one_push U X ps isTpl np n st (k, info) w)
    with (pushArg U X ps isTpl np n st k info w).
  destruct (pushArg U X ps isTpl np n st k info w). reflexivity.
Qed.

(** The first loop calls [pushArg] for the recorded infos whose key is a
    parameter, when no other recorded key names an inherited member. *)
Lemma push_old_as_pass (tpl : Template) (isTpl : bool) (np n : Z)
    (infos : list ParamInfo) :
  (forall k, In k (map pi_k infos) -> inherited k = true ->
             In k (map fst (params tpl))) ->
  forall (st : ArgState) (w : World Node CT Hidden),
  push_old_params U X tpl isTpl np n infos st w =
  reduce (one_push U X (params tpl) isTpl np n)
    (map (fun i => (pi_k i, Some i))
         (filter (fun i => set_has (map fst (params tpl)) (pi_k i)) infos)) st w.
Proof.
  induction infos as [|i infos IH]; intros Hinh st w; [reflexivity|].
  rewrite push_old_cons. cbn [filter].
  assert (forall k, In k (map pi_k infos) -> inherited k = true ->
                    In k (map fst (params tpl))) as Hrest.
  { intros k Hin. apply Hinh. right. exact Hin. }
  destruct (set_has (map fst (params tpl)) (pi_k i)) eqn:Ehas.
  - apply set_has_in in Ehas.
    pose proof (get_param_present _ _ Ehas) as Hp.
    destruct (get_param (pi_k i) (params tpl)); [|congruence].
    cbn [map]. rewrite pass_cons.
    destruct (pushArg U X (params tpl) isTpl np n st (pi_k i) (Some i) w)
      as [st1 w1].
    cbn [fst snd]. apply IH. exact Hrest.
  - assert (get_param (pi_k i) (params tpl) = None) as ->.
    { unfold get_param.
      destruct (lookup (pi_k i) (params tpl)) eqn:El.
      - assert (In (pi_k i) (map fst (params tpl))) as Hin.
        { apply lookup_in_keys. congruence. }
        apply set_has_in in Hin. congruence.
      - destruct (inherited (pi_k i)) eqn:Ei; [|reflexivity].
        assert (In (pi_k i) (map fst (params tpl))) as Hin.
        { apply Hinh; [left; reflexivity|exact Ei]. }
        apply set_has_in in Hin. congruence. }
    cbn [fst snd]. apply IH. exact Hrest.
Qed.

(** The second loop calls [pushArg] for the parameters without recorded
    info and leaves [tpl.params] alone, when the keys are trimmed. *)
Lemma push_new_as_pass (isTpl : bool) (np n : Z) (origKeys : list jstr)
    (ps : list (jstr * Param)) (keys : list jstr) :
  (forall k, In k keys -> trim k = k) ->
  forall (st : ArgState) (w : World Node CT Hidden),
  push_new_params U X isTpl np n origKeys keys ps st w =
  let r := reduce (one_push U X ps isTpl np n)
             (map (fun k => (k, None))
                  (filter (fun k => negb (set_has origKeys k)) keys)) st w in
  ((ps, fst r), snd r).
Proof.
  induction keys as [|k keys IH]; intros Htrim st w; [reflexivity|].
  rewrite push_new_cons. cbn [filter].
  assert (forall k', In k' keys -> trim k' = k') as Hrest.
  { intros k' Hin. apply Htrim. right. exact Hin. }
  rewrite (Htrim k (or_introl eq_refl)). rewrite jstr_eqb_refl. cbn [negb].
  destruct (negb (set_has origKeys k)).
  - cbv zeta. cbn [map]. rewrite pass_cons.
    destruct (pushArg U X ps isTpl np n st k None w) as [st1 w1].
    cbn [fst snd]. apply IH. exact Hrest.
  - apply IH. exact Hrest.
Qed.

(** In a pass over keys under which something is found, every call pushes
    one argument, and the calls are numbered by [argIndex]. *)
Lemma pass_pushes_one_each (ps : list (jstr * Param)) (isTpl : bool) (np n : Z)
    (order : list (jstr * option ParamInfo)) :
  forall (base : nat) (st : ArgState) (w : World Node CT Hidden),
  argIndexVar st = Z.of_nat base ->
  (forall slot, In slot order -> get_param (fst slot) ps <> None) ->
  exists items,
    argBuf (fst (reduce (one_push U X ps isTpl np n) order st w))
      = argBuf st ++ items /\
    Forall2 (pushed_at U X ps isTpl np n)
            (combine (seq base (List.length order)) order) items.
Proof.
  induction order as [|[k info] order IH]; intros base st w Hbase Hall.
  - exists []. simpl. rewrite app_nil_r. split; [reflexivity|constructor].
  - rewrite pass_cons.
    pose proof (pushArg_effect ps isTpl np n st k info w) as Hpush.
    cbv zeta in Hpush. destruct Hpush as [_ [_ [_ [Hidx Hitem]]]].
    specialize (Hall (k, info) (or_introl eq_refl)) as Hhere. cbn [fst] in Hhere.
    destruct (get_param k ps) as [p|] eqn:Ep; [|congruence].
    destruct Hitem as [item Hitem].
    destruct (pushArg U X ps isTpl np n st k info w) as [st1 w1] eqn:Epush.
    cbn [fst snd] in Hidx, Hitem |- *.
    destruct (IH (S base) st1 w1) as [items [Hitems Hforall]].
    { rewrite Hidx, Hbase. lia. }
    { intros slot Hin. apply Hall. right. exact Hin. }
    exists (item :: items). split.
    + rewrite Hitems, Hitem, <- app_assoc. reflexivity.
    + cbn [List.length seq combine]. constructor; [|exact Hforall].
      exists st, w. split; [exact Hbase|].
      change (argBuf (fst (pushArg U X ps isTpl np n st k info w))
              = argBuf st ++ [item]).
      rewrite Epush. exact Hitem.
Qed.

Lemma NoDup_map_filter (A B : Type) (f : A -> B) (g : A -> bool) (l : list A) :
  NoDup (map f l) -> NoDup (map f (filter g l)).
Proof.
  induction l as [|x l IH]; simpl; intros H; [constructor|].
  inversion H as [|? ? Hnotin Hrest]; subst.
  destruct (g x); [|apply IH; exact Hrest].
  simpl. constructor; [|apply IH; exact Hrest].
  intros Hin. apply Hnotin. apply in_map_iff in Hin.
  destruct Hin as [y [Hy Hiny]]. apply filter_In in Hiny.
  apply in_map_iff. exists y. tauto.
Qed.

(** The keys of the pass are the keys of the parameters, in another order. *)
Lemma pass_order_permutes (keys : list jstr) (infos : list ParamInfo) :
  NoDup keys -> NoDup (map pi_k infos) ->
  Permutation
    (map fst (pass_order keys infos)) keys.
Proof.
  intros Hkeys Hinfos. unfold pass_order.
  rewrite map_app, !map_map. cbn [fst]. rewrite map_id.
  apply NoDup_Permutation; [|exact Hkeys|].
  - apply NoDup_app.
    + apply NoDup_map_filter. exact Hinfos.
    + apply NoDup_filter. exact Hkeys.
    + intros k Hin1 Hin2. apply in_map_iff in Hin1.
      destruct Hin1 as [i [Hi Hini]]. apply filter_In in Hini.
      apply filter_In in Hin2. destruct Hin2 as [_ Hnot].
      apply negb_true_iff in Hnot.
      assert (set_has (map pi_k infos) k = true) as Hyes.
      { apply set_has_in. apply in_map_iff. exists i. tauto. }
      congruence.
  - intros k. rewrite in_app_iff. split.
    + intros [Hin|Hin].
      * apply in_map_iff in Hin. destruct Hin as [i [Hi Hini]].
        apply filter_In in Hini. destruct Hini as [_ Hhas].
        apply set_has_in in Hhas. congruence.
      * apply filter_In in Hin. tauto.
    + intros Hin. destruct (set_has (map pi_k infos) k) eqn:E.
      * left. apply set_has_in in E. apply in_map_iff in E.
        destruct E as [i [Hi Hini]]. apply in_map_iff. exists i.
        split; [exact Hi|]. apply filter_In. split; [exact Hini|].
        apply set_has_in. congruence.
      * right. apply filter_In. split; [exact Hin|]. rewrite E. reflexivity.
Qed.

(** X16.  Every parameter of a transclusion is written exactly once.  When
    the transclusion has parameters, the keys of [tpl.params] are distinct
    and trimmed, the keys recorded in [data-parsoid.pi] are distinct, and a
    recorded key that names a member inherited from [Object.prototype] is a
    parameter: the two loops are one pass of [pushArg] over the recorded
    infos whose key is a parameter, in recorded order, followed by the
    parameters without recorded info, in key order.  The keys of the pass
    are the keys of the parameters in another order, the call number j of
    the pass runs with [argIndex] j and pushes one argument, and the text is
    the target and the arguments pushed, joined and introduced by pipes,
    between double braces. *)
Theorem every_parameter_is_written_once (dp : DataParsoid) (buf : jstr)
    (tpl : Template) (w : World Node CT Hidden) :
  let keys := map fst (params tpl) in
  let infos :=
    match dp_pi dp, tpl_i tpl with
    | Some infos, Some i => nth i infos []
    | _, _ => []
    end in
  let isTpl := typeof_string (target_href tpl) in
  let np := countPositionalArgs tpl infos in
  let n := Z.of_nat (List.length keys) in
  let order := pass_order keys infos in
  let pass :=
    reduce (one_push U X (params tpl) isTpl np n) order
      {| argBuf := []; argIndexVar := 1; numericIndex := 1 |} w in
  keys <> [] ->
  NoDup keys ->
  NoDup (map pi_k infos) ->
  (forall k, In k keys -> trim k = k) ->
  (forall k, In k (map pi_k infos) -> inherited k = true -> In k keys) ->
  Permutation (map fst order) keys /\
  build_part U X dp buf (PartTemplate tpl) w
    = (buf ++ js "{{" ++ toString (target_wt tpl) ++ js "|"
       ++ join (js "|") (argBuf (fst pass)) ++ js "}}", snd pass) /\
  Forall2 (pushed_at U X (params tpl) isTpl np n)
          (combine (seq 1 (List.length order)) order) (argBuf (fst pass)) /\
  List.length (argBuf (fst pass)) = List.length keys.
Proof.
  intros keys infos isTpl np n order pass Hne Hkeys Hinfos Htrim Hinh.
  pose proof (@pass_order_permutes keys infos Hkeys Hinfos) as Hperm. fold order in Hperm.
  assert (forall slot, In slot order -> get_param (fst slot) (params tpl) <> None)
    as Hall.
  { intros slot Hin. apply get_param_present.
    apply (Permutation_in _ Hperm). apply in_map. exact Hin. }
  destruct (@pass_pushes_one_each (params tpl) isTpl np n order 1
              {| argBuf := []; argIndexVar := 1; numericIndex := 1 |} w
              eq_refl Hall) as [items [Hitems Hforall]].
  fold pass in Hitems. cbn [argBuf app] in Hitems.
  split; [exact Hperm|]. split; [|split].
  - unfold build_part. fold keys. fold infos. fold isTpl. fold np. fold n.
    assert ((n =? 0)%Z = false) as ->.
    { apply Z.eqb_neq. unfold n. destruct keys; [congruence|].
      cbn [List.length]. lia. }
    unfold bind.
    rewrite (@push_old_as_pass tpl isTpl np n infos Hinh).
    fold keys.
    set (r1 := reduce (one_push U X (params tpl) isTpl np n)
                 (map (fun i => (pi_k i, Some i))
                      (filter (fun i => set_has keys (pi_k i)) infos))
                 {| argBuf := []; argIndexVar := 1; numericIndex := 1 |} w).
    assert (pass = reduce (one_push U X (params tpl) isTpl np n)
                     (map (fun k => (k, None))
                          (filter (fun k => negb (set_has (map pi_k infos) k)) keys))
                     (fst r1) (snd r1)) as Hpass.
    { unfold pass, order, pass_order. rewrite reduce_app. reflexivity. }
    destruct r1 as [st1 w1]. cbn [fst snd] in Hpass.
    rewrite (@push_new_as_pass isTpl np n (map pi_k infos) (params tpl) keys Htrim).
    cbv zeta. rewrite <- Hpass. cbn [fst snd]. unfold ret.
    rewrite <- !app_assoc. reflexivity.
  - rewrite Hitems. exact Hforall.
  - rewrite Hitems. apply Forall2_length in Hforall. rewrite <- Hforall.
    rewrite length_combine, length_seq, Nat.min_id.
    rewrite <- (length_map fst order). apply Permutation_length. exact Hperm.
Qed.

(** *** Several parts *)

Lemma build_part_appends (dp : DataParsoid) (buf : jstr) (part : Part)
    (w : World Node CT Hidden) :
  build_part U X dp buf part w =
  (buf ++ fst (build_part U X dp [] part w), snd (build_part U X dp [] part w)).
Proof.
  destruct part as [s|tpl|].
  - reflexivity.
  - unfold build_part.
    destruct (Z.of_nat (List.length (map fst (params tpl))) =? 0)%Z.
    + simpl. rewrite <- !app_assoc. reflexivity.
    + unfold bind.
      match goal with
      | |- context [push_old_params U X tpl ?isTpl ?np ?n ?infos ?st0 w] =>
          destruct (push_old_params U X tpl isTpl np n infos st0 w) as [st1 w1]
      end.
      match goal with
      | |- context [push_new_params U X ?isTpl ?np ?n ?ok ?ks ?ps st1 w1] =>
          destruct (push_new_params U X isTpl np n ok ks ps st1 w1) as [r2 w2]
      end.
      simpl. rewrite <- !app_assoc. reflexivity.
  - reflexivity.
Qed.

Lemma build_parts_append (dp : DataParsoid) (parts : list Part) :
  forall (buf : jstr) (w : World Node CT Hidden),
  reduce (build_part U X dp) parts buf w =
  (buf ++ fst (reduce (build_part U X dp) parts [] w),
   snd (reduce (build_part U X dp) parts [] w)).
Proof.
  induction parts as [|part parts IH]; intros buf w.
  - simpl. rewrite app_nil_r. reflexivity.
  - cbn [reduce]. unfold bind.
    rewrite (build_part_appends dp buf part w).
    destruct (build_part U X dp [] part w) as [b1 w1]. cbn [fst snd].
    rewrite (IH (buf ++ b1) w1), (IH b1 w1). cbn [fst snd].
    rewrite <- app_assoc. reflexivity.
Qed.

(** X17.  The wikitext of a list of parts is the wikitext of its parts put
    end to end: what [_buildTemplateWT] builds for two lists joined is what
    it builds for the first, followed by what it builds for the second
    where the first has left off. *)
Theorem template_parts_compose (node : Node) (ps1 ps2 : list Part)
    (w : World Node CT Hidden) :
  let r1 := _buildTemplateWT DU U X node ps1 w in
  let r2 := _buildTemplateWT DU U X node ps2 (snd r1) in
  _buildTemplateWT DU U X node (ps1 ++ ps2) w = (fst r1 ++ fst r2, snd r2).
Proof.
  intros r1 r2. subst r1 r2. unfold _buildTemplateWT.
  rewrite reduce_app. apply build_parts_append.
Qed.

(** *** Nothing is emitted *)

(** X15.  Building the wikitext of a transclusion or of an extension tag
    emits nothing: [_buildTemplateWT] and [defaultExtensionHandler] return
    a string, log at most, call neither [emitChunk] nor a handler and
    leave the serializer state as it was. *)
Theorem transclusions_and_extensions_only_build_strings (node : Node)
    (srcParts : list Part) (dataMW : DataMw) (w : World Node CT Hidden) :
  let built := snd (_buildTemplateWT DU U X node srcParts w) in
  let ext := snd (defaultExtensionHandler dom DU U X node dataMW w) in
  (state built = state w /\
   emitted (events built) = emitted (events w) /\
   handled (events built) = handled (events w)) /\
  (state ext = state w /\
   emitted (events ext) = emitted (events w) /\
   handled (events ext) = handled (events w)).
Proof.
  intros built ext. split.
  - subst built. clear ext. unfold _buildTemplateWT.
    generalize (@nil N). revert w.
    induction srcParts as [|part parts IH]; intros w buf; [simpl; auto|].
    cbn [reduce]. unfold bind.
    pose proof (build_part_quiet (getDataParsoid DU node) buf part w) as Hq.
    cbv zeta in Hq.
    destruct (build_part U X (getDataParsoid DU node) buf part w) as [b1 w1].
    cbn [snd] in Hq. destruct Hq as [Hs [He Hh]].
    destruct (IH w1 b1) as [Hs' [He' Hh']].
    rewrite Hs', He', Hh'. auto.
  - subst ext. clear built.
    remember (defaultExtensionHandler dom DU U X node dataMW w) as r eqn:Hr.
    unfold defaultExtensionHandler in Hr. unfold bind at 1 in Hr.
    pose proof (serializeAttributes_quiet dom DU U X node
                  (extension_token dom node dataMW) w) as [He Hh].
    pose proof (serializeAttributes_state dom DU U X node
                  (extension_token dom node dataMW) w) as Hs.
    destruct (_serializeAttributes dom DU U X node
                (extension_token dom node dataMW) w) as [attrStr w1].
    cbn [snd] in He, Hh, Hs.
    destruct (mw_body dataMW) as [b|]; [|subst r; simpl; auto].
    destruct (resolve_body dom X node b).
    + destruct (truthy htmlText); subst r; simpl; auto.
    + destruct (extraDebug dom X node); [|subst r; simpl; auto].
      subst r. unfold bind, log, record, modify, ret. simpl.
      rewrite emitted_app, handled_app. simpl. rewrite !app_nil_r. auto.
    + subst r. simpl. auto.
    + subst r. unfold bind, log, record, modify, ret. simpl.
      rewrite emitted_app, handled_app. simpl. rewrite !app_nil_r. auto.
Qed.

End Facts.

End TransclusionFacts.

(** ** The command line utility *)

Module ParseCLIFacts.
Import WTS ParseCLI.

(** X18.  The defaults of the main function always leave a conversion
    mode and a wiki: after them one of wt2html, html2wt, wt2wt and
    html2html is set, html2wt is set under selser, and wt2html is switched
    on only when none of the three others is set; the prefix or the domain
    is set, the prefix being customwiki with no domain under an API URL and
    the domain being en.wikipedia.org when neither was given. *)
Theorem main_defaults_select_mode_and_wiki (argv : Argv) :
  let a := default_modes argv in
  let wiki := select_wiki argv in
  (truthy (wt2html a) || truthy (html2wt a) || truthy (wt2wt a)
   || truthy (html2html a) = true) /\
  (truthy (selser argv) = true -> html2wt a = JBool true) /\
  (wt2html a <> wt2html argv ->
   truthy (html2wt a) || truthy (wt2wt a) || truthy (html2html a) = false) /\
  (truthy (fst wiki) || truthy (snd wiki) = true) /\
  (truthy (apiURL argv) = true -> wiki = (JStr (js "customwiki"), JNull)) /\
  (truthy (apiURL argv) = false -> truthy (prefix argv) = false ->
   truthy (domain argv) = false -> wiki = (JNull, JStr (js "en.wikipedia.org"))).
Proof.
  intros a wiki. subst a wiki. unfold default_modes, select_wiki, or_null.
  destruct (truthy (selser argv)) eqn:Es;
    destruct (truthy (html2wt argv)) eqn:E1;
    destruct (truthy (wt2wt argv)) eqn:E2;
    destruct (truthy (html2html argv)) eqn:E3;
    destruct (truthy (offline argv)) eqn:Eo;
    destruct (truthy (apiURL argv)) eqn:Ea;
    destruct (truthy (prefix argv)) eqn:Ep;
    destruct (truthy (domain argv)) eqn:Ed;
    cbn [set_html2wt set_wt2html set_offline wt2html html2wt wt2wt html2html
         selser offline truthy negb andb orb fst snd];
    rewrite ?E1, ?E2, ?E3, ?Eo, ?Ep, ?Ed;
    cbn [set_html2wt set_wt2html set_offline wt2html html2wt wt2wt html2html
         selser offline truthy negb andb orb fst snd];
    rewrite ?E1, ?E2, ?E3, ?Eo, ?Ep, ?Ed;
    cbn [set_html2wt set_wt2html set_offline wt2html html2wt wt2wt html2html
         selser offline truthy negb andb orb fst snd];
    repeat split; try reflexivity; try congruence;
    try (rewrite ?orb_true_r; reflexivity);
    try (intros H; exfalso; apply H; reflexivity).
Qed.

Section Pipeline.

Variables E HDoc DPV : Type.
Variable ops : Ops E HDoc DPV.

(** *** Ways through a chain of calls *)

Lemma pbind_fuel (A B : Type) (m : P E A) (k : A -> P E B) (e : E) :
  (forall e0, m e0 <> OutOfFuel) ->
  (forall x e0, k x e0 <> OutOfFuel) ->
  pbind m k e <> OutOfFuel.
Proof.
  intros Hm Hk. unfold pbind. specialize (Hm e).
  destruct (m e) as [[x e']| |]; [apply Hk|discriminate|congruence].
Qed.

Lemma pbind_done (A B : Type) (m : P E A) (k : A -> P E B) (e : E) :
  (forall x e0 r, k x e0 <> Done r) ->
  forall r, pbind m k e <> Done r.
Proof.
  intros Hk r. unfold pbind.
  destruct (m e) as [[x e']| |]; [apply Hk|discriminate|discriminate].
Qed.

Lemma call_fuel (A : Type) (f : E -> Outcome (A * E)) (e : E) :
  call f e <> OutOfFuel.
Proof. unfold call. destruct (f e); discriminate. Qed.

Lemma pret_fuel (A : Type) (x : A) (e : E) : pret x e <> OutOfFuel.
Proof. discriminate. Qed.

Lemma dpFromHead_fuel (doc : HDoc) (e : E) : dpFromHead ops doc e <> OutOfFuel.
Proof.
  unfold dpFromHead. apply pbind_fuel; [intros; apply call_fuel|].
  intros [t|] e0; [|apply pret_fuel].
  apply pbind_fuel; [intros; apply call_fuel|]. intros _ e1.
  apply pbind_fuel; [intros; apply call_fuel|]. intros dp e2. apply pret_fuel.
Qed.

Lemma apply_if_given_fuel (doc : P E HDoc) (dp : option DPV) (e : E) :
  (forall e0, doc e0 <> OutOfFuel) ->
  apply_if_given ops doc dp e <> OutOfFuel.
Proof.
  intros Hdoc. unfold apply_if_given. destruct dp as [d|]; [|apply pret_fuel].
  destruct (dp_truthy ops d); [|apply pret_fuel].
  apply pbind_fuel; [exact Hdoc|]. intros; apply call_fuel.
Qed.

(** The part of [startsAtHTML] up to the call of [serializeDOM], and the
    part of [startsAtWikitext] up to the test of the mode, go through
    calls only. *)
Lemma startsAtHTML_S (fuel : nat) (argv : Argv) (input : jstr)
    (dp : option DPV) (e : E) :
  (forall res e0,
     (if truthy (html2wt argv) || truthy (wt2wt argv)
      then pret {| trailingNL := true; out := OutString res |}
      else startsAtWikitext ops fuel argv res) e0 <> OutOfFuel) ->
  startsAtHTML ops (S fuel) argv input dp e <> OutOfFuel.
Proof.
  intros Htail. cbn [startsAtHTML].
  apply pbind_fuel; [intros; apply call_fuel|]. intros doc e1.
  apply pbind_fuel.
  { intros e0. destruct (dp_given ops dp); [apply pret_fuel|apply dpFromHead_fuel]. }
  intros dp1 e2. apply pbind_fuel.
  { intros e0. destruct (truthy (selser argv)); [|apply pret_fuel].
    apply pbind_fuel.
    - intros e3. destruct (dp_given ops dp1); [apply pret_fuel|].
      apply pbind_fuel; [intros; apply call_fuel|]. intros; apply dpFromHead_fuel.
    - intros dp2 e3. apply pbind_fuel; [|intros; apply pret_fuel].
      intros e4. apply apply_if_given_fuel. intros; apply call_fuel. }
  intros dp2 e3. apply pbind_fuel.
  { intros e0. apply apply_if_given_fuel. intros; apply pret_fuel. }
  intros _ e4. apply pbind_fuel; [intros; apply call_fuel|].
  exact Htail.
Qed.

Lemma startsAtWikitext_S (fuel : nat) (argv : Argv) (input : jstr) (e : E) :
  (truthy (wt2html argv) || truthy (html2html argv) = false ->
   forall html e0, startsAtHTML ops fuel argv html None e0 <> OutOfFuel) ->
  startsAtWikitext ops (S fuel) argv input e <> OutOfFuel.
Proof.
  intros Htail. cbn [startsAtWikitext].
  apply pbind_fuel; [intros; apply call_fuel|]. intros _ e1.
  apply pbind_fuel; [intros; apply call_fuel|]. intros src e2.
  apply pbind_fuel; [intros; apply call_fuel|]. intros doc e3.
  apply pbind_fuel.
  { intros e0. destruct (truthy (lint argv)); [apply call_fuel|apply pret_fuel]. }
  intros _ e4.
  destruct (truthy (wt2html argv) || truthy (html2html argv)).
  - apply pbind_fuel; [|intros; apply pret_fuel].
    intros e0. destruct (truthy (normalize argv)).
    + apply pbind_fuel; [intros; apply call_fuel|intros; apply pret_fuel].
    + destruct (truthy (document argv)); [apply pret_fuel|].
      apply pbind_fuel; [intros; apply call_fuel|intros; apply pret_fuel].
  - apply pbind_fuel; [intros; apply call_fuel|].
    intros html e0. apply Htail. reflexivity.
Qed.

(** X19.  With a conversion mode set, two stages are enough: whichever of
    the two functions the conversion starts in, and whatever the calls
    into the rest of the code return or throw, the conversion ends (with a
    result or an exception) within two stages. *)
Theorem conversion_ends_within_two_stages (argv : Argv) (fuel : nat)
    (input : jstr) (dp : option DPV) (e : E) :
  truthy (wt2html argv) || truthy (html2wt argv) || truthy (wt2wt argv)
  || truthy (html2html argv) = true ->
  (2 <= fuel)%nat ->
  startsAtHTML ops fuel argv input dp e <> OutOfFuel /\
  startsAtWikitext ops fuel argv input e <> OutOfFuel.
Proof.
  intros Hmode Hfuel.
  destruct fuel as [|[|fuel]]; [lia|lia|]. split.
  - apply startsAtHTML_S. intros res e0.
    destruct (truthy (html2wt argv) || truthy (wt2wt argv)) eqn:Eh;
      [apply pret_fuel|].
    apply startsAtWikitext_S. intros Ew.
    apply orb_false_iff in Eh, Ew. destruct Eh as [E1 E2], Ew as [E3 E4].
    rewrite E1, E2, E3, E4 in Hmode. discriminate.
  - apply startsAtWikitext_S. intros Ew html e0.
    apply startsAtHTML_S. intros res e1.
    destruct (truthy (html2wt argv) || truthy (wt2wt argv)) eqn:Eh;
      [apply pret_fuel|].
    apply orb_false_iff in Eh, Ew. destruct Eh as [E1 E2], Ew as [E3 E4].
    rewrite E1, E2, E3, E4 in Hmode. discriminate.
Qed.

(** X20.  Without a conversion mode the two stages hand the text to each
    other for ever: whatever the number of stages allowed, neither
    function comes to a result. *)
Theorem conversion_without_mode_never_returns (argv : Argv) (fuel : nat) :
  truthy (wt2html argv) || truthy (html2wt argv) || truthy (wt2wt argv)
  || truthy (html2html argv) = false ->
  (forall input dp e r, startsAtHTML ops fuel argv input dp e <> Done r) /\
  (forall input e r, startsAtWikitext ops fuel argv input e <> Done r).
Proof.
  intros Hmode.
  apply orb_false_iff in Hmode. destruct Hmode as [Hmode E4].
  apply orb_false_iff in Hmode. destruct Hmode as [Hmode E3].
  apply orb_false_iff in Hmode. destruct Hmode as [E1 E2].
  induction fuel as [|fuel [IHh IHw]].
  - split; intros; discriminate.
  - split.
    + intros input dp e r. cbn [startsAtHTML].
      repeat (apply pbind_done; intros).
      rewrite E2, E3. cbn [orb]. apply IHw.
    + intros input e r. cbn [startsAtWikitext].
      repeat (apply pbind_done; intros).
      rewrite E1, E4. cbn [orb]. apply pbind_done. intros. apply IHh.
Qed.

End Pipeline.

End ParseCLIFacts.

(** ** Runs on the small page and on the string pipeline *)

Module PageRuns.
Import WTS WTSMore PageMore.
Import PostPassWhole TextEmission BuilderFacts TransclusionFacts.

(** The post-passes on a buffer without nowikis. *)
Lemma passes_spare_nowiki_free_text_witness :
  mentions_nowiki (out (buffer (js "a = b
''c''"))) = false /\
  strip_passes (IndentPre.sample_config true) (buffer (js "a = b
''c''")) = buffer (js "a = b
''c''").
Proof.
  split; [reflexivity|].
  apply (@passes_spare_nowiki_free_text nat unit (IndentPre.sample_config true)
           (buffer (js "a = b
''c''"))).
  reflexivity.
Defined.

(** The post-passes on a buffer with a trailing nowiki. *)
Lemma passes_leave_no_trailing_nowiki_witness :
  hasSelfClosingNowikis (buffer (js "foo<nowiki/>
bar"))
  || selserMode (buffer (js "foo<nowiki/>
bar")) = true /\
  TrailingNowiki.stripTrailingNowikis
    (out (strip_passes (IndentPre.sample_config false) (buffer (js "foo<nowiki/>
bar"))))
  = out (strip_passes (IndentPre.sample_config false) (buffer (js "foo<nowiki/>
bar"))).
Proof.
  split; [reflexivity|].
  apply (@passes_leave_no_trailing_nowiki nat unit (IndentPre.sample_config false)
           (buffer (js "foo<nowiki/>
bar"))).
  reflexivity.
Defined.

(** The text of the paragraph, serialized inside an HTML pre. *)
Lemma pre_text_is_only_trimmed_witness :
  inIndentPre (state in_pre) || inHTMLPre (state in_pre) = true /\
  exists lead body trail,
    nodeValue Page.dom 2 = lead ++ body ++ trail /\
    forallb is_space lead = true /\
    forallb is_space trail = true /\
    (inIndentPre (state in_pre) = true -> lead = []) /\
    emitted (events (snd (_serializeTextNode Page.dom Page.DU Page.U Page.X 2 in_pre)))
      = emitted (events in_pre)
        ++ [(ChunkString (escapeEntities Page.U body), 2)].
Proof.
  split; [reflexivity|].
  apply (@pre_text_is_only_trimmed nat unit (jstr * nat) unit
           Page.dom Page.DU Page.U Page.X 2 in_pre).
  reflexivity.
Defined.

(** The tags of the paragraph. *)
Lemma open_and_close_tags_agree_witness :
  tk_name (mkEndTagTk Page.DU 1) = tk_name (mkTagTk Page.DU 1) /\
  dataAttribs (mkEndTagTk Page.DU 1) = dataAttribs (mkTagTk Page.DU 1) /\
  jstr_eqb (toLowerCase (tk_name (mkTagTk Page.DU 1))) (js "nowiki") = false /\
  autoInsertedStart (dataAttribs (mkTagTk Page.DU 1)) = false /\
  exists sAttribs,
    (sAttribs = [] \/ exists a, sAttribs = js " " ++ a /\ a <> []) /\
    fst (_serializeHTMLTag Page.dom Page.DU Page.U Page.X 1 false (Page.start false))
      = js "<" ++ js "p" ++ sAttribs ++ js ">" /\
    fst (_serializeHTMLEndTag Page.DU Page.U Page.X 1 false (Page.start false))
      = js "</p>".
Proof.
  split; [reflexivity|]. split; [reflexivity|]. split; [reflexivity|].
  split; [reflexivity|].
  exact (@open_and_close_tags_agree nat unit (jstr * nat) unit
           Page.dom Page.DU Page.U Page.X 1 (Page.start false) (Page.start false)
           eq_refl eq_refl eq_refl eq_refl).
Defined.

(** The text of the paragraph, taken for a separator. *)
Lemma separators_and_markers_emit_nothing_witness :
  (nodeType Page.dom 2 = COMMENT_NODE \/
   (nodeType Page.dom 2 = ELEMENT_NODE /\
    isMarkerMeta Page.DU 2 (js "mw:DiffMarker") = true) \/
   (nodeType Page.dom 2 = TEXT_NODE /\
    fst (handleSeparatorText X_sep 2 (state (Page.start false))) = true)) /\
  fst (_serializeNode Page.dom Page.DU Page.U X_sep 2 (Page.start false))
    = Returned (nextSibling Page.dom 2) /\
  emitted (events (snd (_serializeNode Page.dom Page.DU Page.U X_sep 2 (Page.start false))))
    = emitted (events (Page.start false)) /\
  handled (events (snd (_serializeNode Page.dom Page.DU Page.U X_sep 2 (Page.start false))))
    = handled (events (Page.start false)).
Proof.
  assert (nodeType Page.dom 2 = COMMENT_NODE \/
          (nodeType Page.dom 2 = ELEMENT_NODE /\
           isMarkerMeta Page.DU 2 (js "mw:DiffMarker") = true) \/
          (nodeType Page.dom 2 = TEXT_NODE /\
           fst (handleSeparatorText X_sep 2 (state (Page.start false))) = true))
    as H.
  { right. right. split; reflexivity. }
  split; [exact H|].
  exact (@separators_and_markers_emit_nothing nat unit (jstr * nat) unit
           Page.dom Page.DU Page.U X_sep 2 (Page.start false) H).
Defined.

(** The handler call for the pre, outside selser mode. *)
Lemma handler_call_of_a_serialized_node_witness :
  reuses_source Page.dom Page.DU Page.U (state (Page.start false)) 3 = false /\
  handled (events (snd (_serializeDOMNode Page.dom Page.DU Page.U Page.X 3
                          Page.quiet_handler (Page.start false))))
    = [(Page.quiet_handler, 3, false)] /\
  fst (_serializeDOMNode Page.dom Page.DU Page.U Page.X 3
         Page.quiet_handler (Page.start false))
    = Returned NextUndefined.
Proof.
  split; [reflexivity|].
  pose proof (@handler_call_of_a_serialized_node nat unit (jstr * nat) unit
                Page.dom Page.DU Page.U Page.X 3 Page.quiet_handler
                (Page.start false) eq_refl) as H.
  cbv zeta in H. destruct H as [Hh [_ [_ [_ [Hr _]]]]].
  split; [exact Hh|exact Hr].
Defined.

(** The two parameters of the template echo: the recorded one first, in
    positional form, then the new one, named. *)
Lemma every_parameter_is_written_once_witness :
  map fst (params Page.echo) <> [] /\
  NoDup (map fst (params Page.echo)) /\
  NoDup (map pi_k [{| pi_k := js "1"; named := false; spc := None |}]) /\
  (forall k, In k (map fst (params Page.echo)) -> trim k = k) /\
  (forall k, In k (map pi_k [{| pi_k := js "1"; named := false; spc := None |}]) ->
             inherited k = true -> In k (map fst (params Page.echo))) /\
  map fst (pass_order (map fst (params Page.echo))
             [{| pi_k := js "1"; named := false; spc := None |}])
    = [js "1"; js "x"] /\
  fst (build_part Page.U Page.X Page.echo_dp [] (PartTemplate Page.echo)
         (Page.start false))
    = js "{{echo|a|x = b}}".
Proof.
  assert (map fst (params Page.echo) <> []) as H1 by discriminate.
  assert (NoDup (map fst (params Page.echo))) as H2.
  { repeat constructor; simpl; intuition discriminate. }
  assert (NoDup (map pi_k [{| pi_k := js "1"; named := false; spc := None |}])) as H3.
  { repeat constructor; simpl; intuition. }
  assert (forall k, In k (map fst (params Page.echo)) -> trim k = k) as H4.
  { intros k [<-|[<-|[]]]; reflexivity. }
  assert (forall k, In k (map pi_k [{| pi_k := js "1"; named := false; spc := None |}]) ->
                    inherited k = true -> In k (map fst (params Page.echo))) as H5.
  { intros k [<-|[]] _. left. reflexivity. }
  split; [exact H1|]. split; [exact H2|]. split; [exact H3|]. split; [exact H4|].
  split; [exact H5|]. split; [reflexivity|].
  pose proof (@every_parameter_is_written_once nat unit (jstr * nat) unit
                Page.U Page.X Page.echo_dp [] Page.echo (Page.start false)
                H1 H2 H3 H4 H5) as H.
  cbv zeta in H. destruct H as [_ [Hb _]].
  rewrite Hb. reflexivity.
Defined.

(** A reference whose [body.id] names no element, in a node whose first
    link has an href that is no valid selector: the handler throws before
    it logs. *)
Example missing_element_debugging_can_throw :
  defaultExtensionHandler dom_invalid_href Page.DU Page.U Page.X 4
    (Page.ref_with Page.body_by_id_with_extsrc) (Page.start false)
  = (Thrown, Page.start false).
Proof. vm_compute. reflexivity. Qed.

End PageRuns.

Module PipelineRuns.
Import WTS ParseCLI ParseCLIFacts.

(** The defaults applied to the empty command line give wt2html, which
    ends in one stage. *)
Lemma conversion_ends_within_two_stages_witness :
  truthy (wt2html (default_modes no_options))
  || truthy (html2wt (default_modes no_options))
  || truthy (wt2wt (default_modes no_options))
  || truthy (html2html (default_modes no_options)) = true /\
  (2 <= 2)%nat /\
  startsAtHTML echo_ops 2 (default_modes no_options) (js "<p>x</p>") None (js "", [])
    <> OutOfFuel /\
  startsAtWikitext echo_ops 2 (default_modes no_options) (js "<p>x</p>") (js "", [])
    <> OutOfFuel.
Proof.
  split; [reflexivity|]. split; [lia|].
  apply (@conversion_ends_within_two_stages (jstr * list jstr) jstr unit echo_ops
           (default_modes no_options) 2 (js "<p>x</p>") None (js "", []));
    [reflexivity|lia].
Defined.

(** Without a mode the stages go round: seven are not enough. *)
Lemma conversion_without_mode_never_returns_witness :
  truthy (wt2html no_options) || truthy (html2wt no_options)
  || truthy (wt2wt no_options) || truthy (html2html no_options) = false /\
  (forall input dp e r,
     startsAtHTML echo_ops 7 no_options input dp e <> Done r) /\
  (forall input e r,
     startsAtWikitext echo_ops 7 no_options input e <> Done r).
Proof.
  split; [reflexivity|].
  apply (@conversion_without_mode_never_returns (jstr * list jstr) jstr unit
           echo_ops no_options 7).
  reflexivity.
Defined.

(** What the runs give. *)
Example wt2wt_run :
  startsAtWikitext echo_ops 2
    (set_wt2html (JBool false)
       {| wt2html := JBool false; html2wt := JBool false; wt2wt := JBool true;
          html2html := JBool false; selser := JBool false;
          normalize := JBool false; document := JUndefined; lint := JBool false;
          offline := JBool false; prefix := JNull; domain := JNull;
          apiURL := JUndefined; fetchConfig := JUndefined;
          fetchTemplates := JUndefined; fetchImageInfo := JUndefined;
          usephppreprocessor := JUndefined |})
    (js "x") (js "", [])
  = Done ({| trailingNL := true; out := OutString (js "x") |},
          (js "x", [js "parse"; js "serializeDOM"])).
Proof. reflexivity. Qed.

Example no_mode_run :
  startsAtWikitext echo_ops 7 no_options (js "x") (js "", []) = OutOfFuel.
Proof. reflexivity. Qed.

End PipelineRuns.
